(** * fits-header: the header-card codec, the HDU layout and the file layer

    A shallow embedding of [src/lib/constants.mjs], [src/lib/header.mjs],
    [src/lib/hdu.mjs] and [src/lib/file.mjs].

    Conventions of the embedding.
    - A JavaScript string and a Node [Buffer] are both [list ascii]: an
      [ascii] is one 8-bit unit.  The strings the program is given hold
      8-bit units only; upper-casing can leave that range, and an
      upper-cased text is a list of code units ([wstr]).
    - The 'ASCII' encoding of Node is written out: decoding a buffer clears
      the high bit of every byte ([Buffer_toString]); writing a string stores
      the low byte of every unit, the identity on 8-bit units.
    - A JavaScript number is an exact rational or NaN ([number]); rounding,
      overflow and infinities of IEEE doubles are outside the model.  The two
      conversions between numbers and text, [Number(s)] and
      [n.toString()], belong to the host and are an interface ([NumberHost]).
    - An exception is a value of [exn]; a function that can throw returns a
      [result].
    - The storage device is a table of files by path and a table of open
      descriptors ([World]); a string is written to it in UTF-8
      ([utf8_encode]), and [File.write] carries the position of its output
      descriptor along. *)

From Stdlib Require Import String Ascii List Bool Arith ZArith QArith Qabs Qround Lia.
From Stdlib Require DecimalString.
Import ListNotations.

Local Open Scope string_scope.
Local Open Scope nat_scope.
Local Open Scope list_scope.

(** ** Exceptions and results *)

Inductive exn : Type :=
| TypeError                  (* throw new TypeError() / property of undefined *)
| RangeError                 (* throw RangeError() *)
| MalformedUnits             (* throw 'Malformed units field in comment' *)
| StringValueParserError     (* throw `string value parser error` *)
| EmptyFile                  (* throw Error(`FITS file "${path}" is empty`) *)
| IncompleteBlocks           (* throw Error(`... does not contain full blocks`) *)
| ShortRead                  (* throw Error("FITS short buffer read") *)
| OpenFailed                 (* fs.openSync finds no such file *)
| BadDescriptor              (* fs.fstatSync / fs.readSync on a closed descriptor *)
| Diverges.                  (* a loop of the model ran out of fuel *)

Inductive result (A : Type) : Type :=
| Ok (a : A)
| Throw (e : exn).
Arguments Ok {A} a.
Arguments Throw {A} e.

Definition bind {A B} (m : result A) (k : A -> result B) : result B :=
  match m with
  | Ok a => k a
  | Throw e => Throw e
  end.

Declare Scope js_scope.
Delimit Scope js_scope with js.
Notation "x <- m ;; k" := (bind m (fun x => k))
  (at level 61, m at next level, right associativity) : js_scope.
Notation "' p <- m ;; k" := (bind m (fun x => match x with p => k end))
  (at level 61, p pattern, m at next level, right associativity) : js_scope.
Local Open Scope js_scope.

(** ** JavaScript strings and Node buffers *)

Module JS.

Definition str := list ascii.
Definition bytes := list ascii.

Coercion list_ascii_of_string : string >-> list.

Definition str_eqb (a b : str) : bool :=
  if list_eq_dec ascii_dec a b then true else false.

(** White space as [String.prototype.trim] sees it, on 8-bit units: TAB, LF,
    VT, FF, CR, SPACE and NBSP. *)
Definition is_white (c : ascii) : bool :=
  let n := nat_of_ascii c in
  ((9 <=? n) && (n <=? 13)) || (n =? 32) || (n =? 160).

Fixpoint trimStart (s : str) : str :=
  match s with
  | [] => []
  | c :: r => if is_white c then trimStart r else s
  end.

Definition trimEnd (s : str) : str := rev (trimStart (rev s)).

Definition trim (s : str) : str := trimEnd (trimStart s).

Fixpoint startsWith (p s : str) : bool :=
  match p, s with
  | [], _ => true
  | _ :: _, [] => false
  | a :: p', b :: s' => Ascii.eqb a b && startsWith p' s'
  end.

Definition endsWith (p s : str) : bool := startsWith (rev p) (rev s).

(** [s.substring(a, b)]: both indices clamped to the length, swapped when
    [a > b].  Indices are naturals: a negative index of the source clamps to
    0, which is what truncated subtraction gives. *)
Definition substring (a b : nat) (s : str) : str :=
  let a' := Nat.min a (length s) in
  let b' := Nat.min b (length s) in
  firstn (Nat.max a' b' - Nat.min a' b') (skipn (Nat.min a' b') s).

(** [s.substring(a)] *)
Definition substring_from (a : nat) (s : str) : str := skipn a s.

Fixpoint find_char (c : ascii) (s : str) : option nat :=
  match s with
  | [] => None
  | d :: r => if Ascii.eqb d c then Some 0
              else match find_char c r with
                   | Some i => Some (S i)
                   | None => None
                   end
  end.

(** [s.indexOf(c, from)]; [None] is the source's -1. *)
Definition indexOf (c : ascii) (from : nat) (s : str) : option nat :=
  match find_char c (skipn from s) with
  | Some i => Some (from + i)
  | None => None
  end.

Definition padEnd (n : nat) (c : ascii) (s : str) : str :=
  s ++ repeat c (n - length s).

Definition padStart (n : nat) (c : ascii) (s : str) : str :=
  repeat c (n - length s) ++ s.

(** A string whose units need not be 8-bit: the code units, as numbers.
    Upper-casing an 8-bit text gives such a string. *)
Definition wstr := list N.

Definition wide (s : str) : wstr := map N_of_ascii s.

(** What the 'ASCII' encoding stores of a unit: its low byte. *)
Definition low_byte (n : N) : ascii := ascii_of_N (n mod 256)%N.

Definition low_bytes (s : wstr) : str := map low_byte s.

Definition wstr_eqb (a b : wstr) : bool :=
  if list_eq_dec N.eq_dec a b then true else false.

(** [toUpperCase] of one 8-bit unit, by the case mapping of Unicode: a-z and
    the letters 0xE0-0xFE (but the division sign 0xF7) move down by 32, the
    sharp s becomes SS, the micro sign becomes U+039C and the y with
    diaeresis U+0178; every other unit is left as it is. *)
Definition upper (c : ascii) : wstr :=
  let n := N_of_ascii c in
  (if (97 <=? n) && (n <=? 122) then [n - 32]
   else if n =? 181 then [924]
   else if n =? 223 then [83; 83]
   else if (224 <=? n) && (n <=? 254) && negb (n =? 247) then [n - 32]
   else if n =? 255 then [376]
   else [n])%N.

Definition toUpperCase (s : str) : wstr := flat_map upper s.

(** [s.padEnd(n, c)] *)
Definition wpadEnd (n : nat) (c : N) (s : wstr) : wstr :=
  s ++ repeat c (n - length s).

(** White space as [String.prototype.trim] sees it, on all units. *)
Definition wis_white (n : N) : bool :=
  (((9 <=? n) && (n <=? 13)) || (n =? 32) || (n =? 160) || (n =? 5760)
   || ((8192 <=? n) && (n <=? 8202)) || (n =? 8232) || (n =? 8233)
   || (n =? 8239) || (n =? 8287) || (n =? 12288) || (n =? 65279))%N.

Fixpoint wtrimStart (s : wstr) : wstr :=
  match s with
  | [] => []
  | c :: r => if wis_white c then wtrimStart r else s
  end.

Definition wtrimEnd (s : wstr) : wstr := rev (wtrimStart (rev s)).

Definition wtrim (s : wstr) : wstr := wtrimEnd (wtrimStart s).

Definition QUOTE : ascii := "'"%char.
Definition SLASH : ascii := "/"%char.
Definition SPACE : ascii := " "%char.

(** [s.replace(/'/g, "''")] *)
Fixpoint double_quotes (s : str) : str :=
  match s with
  | [] => []
  | c :: r => if Ascii.eqb c QUOTE then QUOTE :: QUOTE :: double_quotes r
              else c :: double_quotes r
  end.

(** [s.replace(/''/g, QUOTE)]: matches are taken left to right and do not
    overlap. *)
Fixpoint undouble_quotes (s : str) : str :=
  match s with
  | [] => []
  | c :: t =>
      match t with
      | [] => [c]
      | d :: r => if Ascii.eqb c QUOTE && Ascii.eqb d QUOTE
                  then QUOTE :: undouble_quotes r
                  else c :: undouble_quotes t
      end
  end.

(** [buf.subarray(a, b)]: indices clamped, empty when [b < a]. *)
Definition subarray (a b : nat) (buf : bytes) : bytes :=
  firstn (b - a) (skipn a buf).

(** Decoding one byte in the 'ASCII' encoding clears its high bit. *)
Definition clear7 (c : ascii) : ascii :=
  match c with
  | Ascii b0 b1 b2 b3 b4 b5 b6 _ => Ascii b0 b1 b2 b3 b4 b5 b6 false
  end.

(** [buf.toString('ASCII')] *)
Definition Buffer_toString (buf : bytes) : str := map clear7 buf.

(** [buf.write(data, offset, length, 'ASCII')]: at most [length] bytes, at
    most the length of [data], and never past the end of the buffer; the
    bytes around the written span are kept. *)
Definition Buffer_write_bytes (data : str) (offset length : nat) (buf : bytes) : bytes :=
  let n := Nat.min (Nat.min length (List.length data)) (List.length buf - offset) in
  firstn offset buf ++ firstn n data ++ skipn (offset + n) buf.

(** An offset or a length beyond the length of the buffer is a RangeError of
    Node; a length that reaches past the end from the offset is cut there. *)
Definition Buffer_write (data : str) (offset length : nat) (buf : bytes) : result bytes :=
  if (List.length buf <? offset) || (List.length buf <? length) then Throw RangeError
  else Ok (Buffer_write_bytes data offset length buf).

(** [Buffer.alloc(n).fill(' ')] *)
Definition Buffer_alloc_fill (n : nat) (c : ascii) : bytes := repeat c n.

End JS.
Export JS.

(** ** Numbers and values

    A number is an exact rational or NaN.  The doubles of the code agree
    with it as long as they are exact: on integers of magnitude up to 2^53,
    their eighths, and the products and quotients the code forms of them
    within that range.  Beyond it the doubles round, or overflow to an
    infinity, which [number] has not: the properties of the arithmetic are
    stated within the range ([exact_extent]). *)

Inductive number : Type :=
| Num (q : Q)
| NaN.

Definition num_of_Z (z : Z) : number := Num (inject_Z z).

Definition num_abs (x : number) : number :=
  match x with Num q => Num (Qabs q) | NaN => NaN end.

Definition num_mul (x y : number) : number :=
  match x, y with Num p, Num q => Num (p * q) | _, _ => NaN end.

Definition num_add (x y : number) : number :=
  match x, y with Num p, Num q => Num (p + q) | _, _ => NaN end.

(** [x / k] for a non-zero integer constant [k] *)
Definition num_div_const (x : number) (k : Z) : number :=
  match x with Num q => Num (q / inject_Z k) | NaN => NaN end.

(** [Math.ceil] *)
Definition num_ceil (x : number) : number :=
  match x with Num q => Num (inject_Z (Qceiling q)) | NaN => NaN end.

(** [x > y], [x <= y]: false as soon as one side is NaN *)
Definition num_gt (x y : number) : bool :=
  match x, y with
  | Num p, Num q => negb (Qle_bool p q)
  | _, _ => false
  end.

Definition num_le (x y : number) : bool :=
  match x, y with
  | Num p, Num q => Qle_bool p q
  | _, _ => false
  end.

(** [Number.isInteger(x)], with the integer when there is one *)
Definition as_integer (x : number) : option Z :=
  match x with
  | Num q => if Qeq_bool q (inject_Z (Qfloor q)) then Some (Qfloor q) else None
  | NaN => None
  end.

(** The values a card can hold or be given.  [JNull] stands for every value
    that is neither undefined, a boolean, a number nor a string. *)
Inductive jsval : Type :=
| JUndefined
| JBool (b : bool)
| JNum (x : number)
| JStr (s : str)
| JNull.

(** The host's conversions between numbers and text: [Number(s)] and
    [Number.prototype.toString]. *)
Class NumberHost : Type := {
  Number : str -> number;
  number_toString : number -> str
}.

(** [ToNumber] of the language, as applied by [>], [/] and [*=] *)
Definition ToNumber `{NumberHost} (v : jsval) : number :=
  match v with
  | JUndefined => NaN
  | JBool b => if b then num_of_Z 1 else num_of_Z 0
  | JNum x => x
  | JStr s => Number s
  | JNull => num_of_Z 0
  end.

(** ** Constants ([src/lib/constants.mjs]) *)

Definition headerSize : nat := 80.
Definition blockSize : nat := 2880.
Definition keySize : nat := 8.
Definition valueSize : nat := 20.

(** ** Header cards ([src/lib/header.mjs]) *)

Section HeaderCards.

Context {host : NumberHost}.

(** *** class RawHeader *)

Record RawHeader : Type := mkRawHeader {
  buffer_ : bytes;        (* #buffer *)
  modified_ : bool        (* #modified *)
}.

(** A method that mutates its object returns the object as the call leaves
    it, also when the call throws, and the outcome of the call. *)
Definition method (S A : Type) : Type := S -> S * result A.

Definition _write (data : str) (offset length : nat) : method RawHeader unit :=
  fun this =>
    let this := {| buffer_ := buffer_ this; modified_ := true |} in
    let length := Nat.min headerSize (offset + length) in
    match Buffer_write data offset length (buffer_ this) with
    | Ok b => ({| buffer_ := b; modified_ := modified_ this |}, Ok tt)
    | Throw e => (this, Throw e)
    end.

Definition raw_substring (start stop : nat) (this : RawHeader) : str :=
  Buffer_toString (subarray start stop (buffer_ this)).

Definition raw_modified (this : RawHeader) : bool := modified_ this.

Definition has_value (this : RawHeader) : bool :=
  str_eqb (raw_substring keySize (keySize + 2) this) "= ".

Definition raw_keyword (this : RawHeader) : str :=
  trimEnd (raw_substring 0 keySize this).

(** [#set_keyword]: the upper-cased text can hold units above 255, and more
    than [keySize] units; the write stores the low bytes of its first
    [keySize] units. *)
Definition set_keyword (arg : str) : method RawHeader unit :=
  fun this =>
    let s := wpadEnd keySize 32%N (toUpperCase (substring 0 keySize arg)) in
    _write (low_bytes s) 0 keySize this.

Definition raw_toString (this : RawHeader) : str :=
  raw_substring 0 headerSize this.

(** The first argument of the three constructors: a Buffer, a string, or
    anything else. *)
Inductive ctor_arg : Type :=
| ABuffer (b : bytes)
| AString (s : str)
| AOther.

Definition new_RawHeader (arg : ctor_arg) : result RawHeader :=
  match arg with
  | ABuffer b => Ok {| buffer_ := b; modified_ := false |}
  | AString s =>
      let this := {| buffer_ := Buffer_alloc_fill headerSize SPACE; modified_ := false |} in
      let (this, r) := set_keyword s this in
      _ <- r ;; Ok this
  | AOther => Throw TypeError
  end.

(** *** class CommentHeader *)

Definition comment_text (this : RawHeader) : str :=
  raw_substring keySize headerSize this.

(** [set text(arg)]: [arg.substring] is a TypeError unless [arg] is a string. *)
Definition set_text (arg : jsval) : method RawHeader unit :=
  fun this =>
    match arg with
    | JStr a =>
        let maxlen := headerSize - keySize in
        let s := padEnd maxlen SPACE (substring 0 maxlen a) in
        _write s keySize maxlen this
    | _ => (this, Throw TypeError)
    end.

Definition new_CommentHeader (arg : ctor_arg) (text : jsval) : result RawHeader :=
  this <- new_RawHeader arg ;;
  match arg with
  | AString _ => let (this, r) := set_text text this in _ <- r ;; Ok this
  | _ => Ok this
  end.

(** *** class ValueHeader *)

Record ValueHeader : Type := mkValueHeader {
  super : RawHeader;
  value_ : jsval;             (* #value: value as a JS primitive *)
  svalue_ : option str;       (* #svalue: value as a padded string *)
  units_ : option str;        (* #units: a string or undefined *)
  comment_ : option str;      (* #comment: a string or undefined *)
  dirty_ : bool               (* #dirty *)
}.

Definition with_super (r : RawHeader) (this : ValueHeader) : ValueHeader :=
  {| super := r; value_ := value_ this; svalue_ := svalue_ this;
     units_ := units_ this; comment_ := comment_ this; dirty_ := dirty_ this |}.

Definition with_value (v : jsval) (this : ValueHeader) : ValueHeader :=
  {| super := super this; value_ := v; svalue_ := svalue_ this;
     units_ := units_ this; comment_ := comment_ this; dirty_ := dirty_ this |}.

Definition with_svalue (s : str) (this : ValueHeader) : ValueHeader :=
  {| super := super this; value_ := value_ this; svalue_ := Some s;
     units_ := units_ this; comment_ := comment_ this; dirty_ := dirty_ this |}.

Definition with_units (u : option str) (this : ValueHeader) : ValueHeader :=
  {| super := super this; value_ := value_ this; svalue_ := svalue_ this;
     units_ := u; comment_ := comment_ this; dirty_ := dirty_ this |}.

Definition with_comment (c : option str) (this : ValueHeader) : ValueHeader :=
  {| super := super this; value_ := value_ this; svalue_ := svalue_ this;
     units_ := units_ this; comment_ := c; dirty_ := dirty_ this |}.

Definition with_dirty (d : bool) (this : ValueHeader) : ValueHeader :=
  {| super := super this; value_ := value_ this; svalue_ := svalue_ this;
     units_ := units_ this; comment_ := comment_ this; dirty_ := d |}.

Definition get_value (this : ValueHeader) : jsval := value_ this.
Definition get_units (this : ValueHeader) : option str := units_ this.
Definition get_comment (this : ValueHeader) : option str := comment_ this.

(** The formatted value field of [#update_svalue], when the value has one of
    the three supported types. *)
Definition format_value (arg : jsval) : option str :=
  match arg with
  | JBool b => Some (padStart valueSize SPACE (if b then "T" else "F"))
  | JNum x => Some (padStart valueSize SPACE (number_toString x))
  | JStr a =>
      let arg := double_quotes a in
      Some (padEnd valueSize SPACE ([QUOTE] ++ padEnd 8 SPACE arg ++ [QUOTE]))
  | _ => None
  end.

Definition update_svalue : method ValueHeader unit :=
  fun this =>
    match format_value (value_ this) with
    | Some s => (with_dirty true (with_svalue s this), Ok tt)
    | None => (this, Throw TypeError)
    end.

Definition set_value (arg : jsval) : method ValueHeader unit :=
  fun this => update_svalue (with_value arg this).

Definition set_units (arg : jsval) : method ValueHeader unit :=
  fun this =>
    match arg with
    | JStr u => (with_dirty true (with_units (Some u) this), Ok tt)
    | JUndefined => (with_dirty true (with_units None this), Ok tt)
    | _ => (this, Throw TypeError)
    end.

Definition set_comment (arg : jsval) : method ValueHeader unit :=
  fun this =>
    match arg with
    | JStr c => (with_dirty true (with_comment (Some c) this), Ok tt)
    | JUndefined => (with_dirty true (with_comment None this), Ok tt)
    | _ => (this, Throw TypeError)
    end.

Definition value_modified (this : ValueHeader) : bool :=
  dirty_ this || raw_modified (super this).

(** The 72 characters that [#update] writes after the keyword. *)
Definition card_text (svalue : str) (units comment : option str) : str :=
  let s := "= " ++ svalue in
  let s := match units, comment with
           | None, None => s
           | _, _ => s ++ " / "
           end in
  let s := match units with
           | Some u => s ++ "[" ++ u ++ "] "
           | None => s
           end in
  let s := match comment with
           | Some c => s ++ c
           | None => s
           end in
  let maxlen := headerSize - keySize in
  substring 0 maxlen (padEnd maxlen SPACE s).

Definition update : method ValueHeader unit :=
  fun this =>
    match update_svalue this with
    | (this, Throw e) => (this, Throw e)
    | (this, Ok _) =>
        let svalue := match svalue_ this with Some s => s | None => [] end in
        let s := card_text svalue (units_ this) (comment_ this) in
        match _write s keySize (headerSize - keySize) (super this) with
        | (r, Throw e) => (with_super r this, Throw e)
        | (r, Ok _) => (with_dirty false (with_super r this), Ok tt)
        end
    end.

Definition value_toString : method ValueHeader str :=
  fun this =>
    if dirty_ this then
      match update this with
      | (this, Throw e) => (this, Throw e)
      | (this, Ok _) => (this, Ok (raw_toString (super this)))
      end
    else (this, Ok (raw_toString (super this))).

(** [#parse_comment], [#parse_string] and [#parse] run inside the
    constructor only: when they throw, the object is lost with them. *)
Definition parse_comment (s : str) (this : ValueHeader) : result ValueHeader :=
  let this := with_comment None (with_units None this) in
  let s := trim s in
  if startsWith "/" s then
    let s := trimStart (substring_from 1 s) in
    if startsWith "[" s then
      match indexOf "]"%char 1 s with
      | Some i =>
          if 1 <? i then
            Ok (with_comment (Some (trimStart (substring_from (i + 1) s)))
                  (with_units (Some (substring 1 i s)) this))
          else Throw MalformedUnits
      | None => Throw MalformedUnits
      end
    else Ok (with_comment (Some (trimStart s)) this)
  else Ok this.

(** The scanning loop of [#parse_string]: the flag [inside] and the offset
    where the loop stops. *)
Fixpoint scan_string (rest : str) (inside : bool) (offset : nat) : bool * nat :=
  match rest with
  | [] => (inside, offset)
  | ch :: rest' =>
      if Ascii.eqb ch QUOTE then scan_string rest' (negb inside) (S offset)
      else if Ascii.eqb ch SLASH then
        if negb inside then (inside, offset)
        else scan_string rest' inside (S offset)
      else scan_string rest' inside (S offset)
  end.

Definition parse_string (this : ValueHeader) : result ValueHeader :=
  let data := raw_substring 10 headerSize (super this) in
  let (inside, offset) := scan_string data false 0 in
  let value := trimEnd (substring 0 offset data) in
  if inside || negb (startsWith [QUOTE] value) || negb (endsWith [QUOTE] value) then
    Throw StringValueParserError
  else
    let comment := substring_from offset data in
    let this :=
      with_value
        (JStr (trimEnd (undouble_quotes (substring 1 (length value - 1) value))))
        this in
    parse_comment comment this.

Definition parse (this : ValueHeader) : result ValueHeader :=
  let content := raw_substring (keySize + 2) headerSize (super this) in
  if startsWith [QUOTE] (trimStart content) then parse_string this
  else
    let value := trimStart (substring 0 valueSize content) in
    let this :=
      if str_eqb value "T" then with_value (JBool true) this
      else if str_eqb value "F" then with_value (JBool false) this
      else with_value (JNum (Number value)) this in
    let comment := raw_substring 30 headerSize (super this) in
    parse_comment comment this.

Definition new_ValueHeader (arg : ctor_arg) (value units comment : jsval)
  : result ValueHeader :=
  r <- new_RawHeader arg ;;
  let this := {| super := r; value_ := JUndefined; svalue_ := None;
                 units_ := None; comment_ := None; dirty_ := false |} in
  match arg with
  | ABuffer _ => parse this
  | AString _ =>
      let (this, r1) := set_value value this in
      _ <- r1 ;;
      let (this, r2) := set_units units this in
      _ <- r2 ;;
      let (this, r3) := set_comment comment this in
      _ <- r3 ;;
      Ok this
  | AOther => Ok this
  end.

(** *** class Header: the closed set of cards and the factory functions *)

Inductive Header : Type :=
| HRaw (r : RawHeader)
| HComment (r : RawHeader)
| HValue (v : ValueHeader).

Definition from_buffer (buffer : bytes) : result Header :=
  raw <- new_RawHeader (ABuffer buffer) ;;
  let keyword := raw_keyword raw in
  if str_eqb keyword "COMMENT" || str_eqb keyword "HISTORY" then
    c <- new_CommentHeader (ABuffer buffer) JUndefined ;; Ok (HComment c)
  else if has_value raw then
    v <- new_ValueHeader (ABuffer buffer) JUndefined JUndefined JUndefined ;;
    Ok (HValue v)
  else Ok (HRaw raw).

Definition Header_comment (text : jsval) : result Header :=
  c <- new_CommentHeader (AString "COMMENT") text ;; Ok (HComment c).

Definition Header_history (text : jsval) : result Header :=
  c <- new_CommentHeader (AString "HISTORY") text ;; Ok (HComment c).

Definition Header_value (keyword : ctor_arg) (value units comment : jsval)
  : result Header :=
  v <- new_ValueHeader keyword value units comment ;; Ok (HValue v).

(** The members every card answers, dispatched on the class. *)
Definition raw_of (h : Header) : RawHeader :=
  match h with
  | HRaw r | HComment r => r
  | HValue v => super v
  end.

Definition keyword (h : Header) : str := raw_keyword (raw_of h).

Definition modified (h : Header) : bool :=
  match h with
  | HRaw r | HComment r => raw_modified r
  | HValue v => value_modified v
  end.

Definition toString : method Header str :=
  fun h =>
    match h with
    | HRaw r => (h, Ok (raw_toString r))
    | HComment r => (h, Ok (raw_toString r))
    | HValue v => let (v', s) := value_toString v in (HValue v', s)
    end.

(** [h.value]: a card that is not a Value card has no such property. *)
Definition value (h : Header) : jsval :=
  match h with
  | HValue v => get_value v
  | _ => JUndefined
  end.

Definition units (h : Header) : option str :=
  match h with
  | HValue v => get_units v
  | _ => None
  end.

Definition comment (h : Header) : option str :=
  match h with
  | HValue v => get_comment v
  | _ => None
  end.

End HeaderCards.

(** ** A host for the examples: decimal integers

    An instance of [NumberHost] for the cards of the examples, which hold
    integers.  [Number] reads, after trimming, the empty text as 0 and an
    optional sign followed by decimal digits as that integer; [number_toString]
    prints an integer in decimal.  That is what JavaScript does for the
    integers that are doubles and of magnitude below 10^21.  Outside: the
    texts JavaScript reads as fractions, exponents, hexadecimal or Infinity are
    NaN here, larger integers are not rounded and print without exponent, and
    a number that is not an integer prints as "NaN".  The theorems do not
    depend on this instance. *)

Module DecimalHost.

Import DecimalString.

Definition decimal_Number (s : str) : number :=
  match trim s with
  | [] => num_of_Z 0
  | c :: r =>
      if Ascii.eqb c "+" then
        match NilZero.uint_of_string (string_of_list_ascii r) with
        | Some d => num_of_Z (Z.of_uint d)
        | None => NaN
        end
      else
        match NilZero.int_of_string (string_of_list_ascii (c :: r)) with
        | Some d => num_of_Z (Z.of_int d)
        | None => NaN
        end
  end.

Definition decimal_toString (x : number) : str :=
  match as_integer x with
  | Some z => list_ascii_of_string (NilZero.string_of_int (Z.to_int z))
  | None => "NaN"
  end.

#[export] Instance host : NumberHost :=
  {| Number := decimal_Number; number_toString := decimal_toString |}.

End DecimalHost.

(** ** The storage device ([node:fs])

    The files of the disk by path, and the table of open descriptors. *)

Record World : Type := mkWorld {
  disk : list (str * bytes);
  handles : list (nat * str);      (* open descriptors and the paths they read *)
  next_fd : nat
}.

Fixpoint lookup_path (path : str) (d : list (str * bytes)) : option bytes :=
  match d with
  | [] => None
  | (p, c) :: d' => if str_eqb p path then Some c else lookup_path path d'
  end.

Fixpoint lookup_fd (fd : nat) (h : list (nat * str)) : option str :=
  match h with
  | [] => None
  | (f, p) :: h' => if f =? fd then Some p else lookup_fd fd h'
  end.

Definition is_open (fd : nat) (w : World) : bool :=
  match lookup_fd fd (handles w) with Some _ => true | None => false end.

Definition openSync (path : str) : method World nat :=
  fun w =>
    match lookup_path path (disk w) with
    | Some _ =>
        ({| disk := disk w; handles := (next_fd w, path) :: handles w;
            next_fd := S (next_fd w) |}, Ok (next_fd w))
    | None => (w, Throw OpenFailed)
    end.

Definition closeSync (fd : nat) : method World unit :=
  fun w =>
    if is_open fd w then
      ({| disk := disk w;
          handles := filter (fun e => negb (fst e =? fd)) (handles w);
          next_fd := next_fd w |}, Ok tt)
    else (w, Throw BadDescriptor).

Definition contents (fd : nat) (w : World) : result bytes :=
  match lookup_fd fd (handles w) with
  | Some p => match lookup_path p (disk w) with
              | Some c => Ok c
              | None => Throw BadDescriptor
              end
  | None => Throw BadDescriptor
  end.

(** [fs.fstatSync(fd).size] *)
Definition fstatSync_size (fd : nat) (w : World) : result nat :=
  c <- contents fd w ;; Ok (length c).

(** [fs.readSync(fd, buf, 0, length, pos)] into a zero-filled buffer of
    [length] bytes: the buffer after the call and the count of bytes read. *)
Definition readSync (fd : nat) (length pos : nat) (w : World) : result (bytes * nat) :=
  c <- contents fd w ;;
  let data := firstn length (skipn pos c) in
  Ok (data ++ repeat zero (length - List.length data), List.length data).

(** ** File and its block iterator ([src/lib/file.mjs]) *)

Section Layout.

Context {host : NumberHost}.

Record BlockIterator : Type := mkIter {
  n_ : Z;          (* the captured [n] *)
  end_ : Z         (* the captured [end] *)
}.

(** What the iterator and the HDU need of the File object. *)
Record FileCore : Type := mkFileCore {
  fd_ : nat;              (* #fd *)
  blockCount_ : Z         (* #blockCount *)
}.

Definition block (w : World) (self : FileCore) (n : number) : result (option bytes) :=
  match as_integer n with
  | Some i =>
      if (i <? 0)%Z || (i >=? blockCount_ self)%Z then Throw RangeError
      else
        let pos := Z.to_nat i * blockSize in
        '(buf, count) <- readSync (fd_ self) blockSize pos w ;;
        if count =? blockSize then Ok (Some buf)
        else if count =? 0 then Ok None
        else Throw ShortRead
  | None => Throw TypeError
  end.

Definition position (it : BlockIterator) : Z := n_ it.

Definition done (it : BlockIterator) : bool := (n_ it >=? end_ it)%Z.

(** [next()]: [self.block(n++)] increments [n] before the block is read. *)
Definition next (w : World) (self : FileCore) : method BlockIterator (option bytes) :=
  fun it =>
    if done it then (it, Ok None)
    else
      let n := n_ it in
      ({| n_ := (n + 1)%Z; end_ := end_ it |}, block w self (num_of_Z n)).

Definition skip (c : number) : method BlockIterator unit :=
  fun it =>
    match as_integer c with
    | None => (it, Throw TypeError)
    | Some c =>
        if (c <? 0)%Z || (n_ it + c >? end_ it)%Z then (it, Throw RangeError)
        else ({| n_ := (n_ it + c)%Z; end_ := end_ it |}, Ok tt)
    end.

Definition block_iterator (start stop : Z) : BlockIterator :=
  {| n_ := start; end_ := stop |}.

Definition blocks (self : FileCore) : BlockIterator :=
  block_iterator 0 (blockCount_ self).

(** ** HDU ([src/lib/hdu.mjs]) *)

Record HDU : Type := mkHDU {
  headers_ : list Header;     (* #headers *)
  size_ : number;             (* #size *)
  hdu_start : Z;              (* #start *)
  hdu_end : number            (* #end *)
}.

(** The offsets [j] of the loop [for (j = 0; j < blockSize; j += headerSize)]. *)
Definition card_offsets : list nat :=
  map (fun i => i * headerSize) (seq 0 (blockSize / headerSize)).

(** One pass of that loop over the block [buf]: the cards pushed, and whether
    the keyword END was met. *)
Fixpoint read_cards (offsets : list nat) (buf : bytes) (headers : list Header)
  : result (list Header * bool) :=
  match offsets with
  | [] => Ok (headers, false)
  | j :: offsets' =>
      header <- from_buffer (subarray j (j + headerSize) buf) ;;
      let headers := headers ++ [header] in
      if str_eqb (keyword header) "END" then Ok (headers, true)
      else read_cards offsets' buf headers
  end.

(** [#read_headers]: [buf.subarray] is a TypeError when [next()] has no block
    to give.  Every round takes one block from the iterator, so the fuel
    [S (end - n)] is never used up ([read_headers_fuel]). *)
Fixpoint read_headers_loop (fuel : nat) (w : World) (self : FileCore)
    (iter : BlockIterator) (headers : list Header)
  : result (list Header * BlockIterator) :=
  match fuel with
  | O => Throw Diverges
  | S fuel' =>
      let (iter, r) := next w self iter in
      nxt <- r ;;
      match nxt with
      | None => Throw TypeError
      | Some buf =>
          '(headers, ended) <- read_cards card_offsets buf headers ;;
          if ended : bool then Ok (headers, iter)
          else read_headers_loop fuel' w self iter headers
      end
  end.

Definition read_headers (w : World) (self : FileCore) (iter : BlockIterator)
  : result (list Header * BlockIterator) :=
  read_headers_loop (S (Z.to_nat (end_ iter - n_ iter))) w self iter [].

(** [header(keyword)]: [===] against anything but a string is false. *)
Definition find_header (headers : list Header) (kw : jsval) : option Header :=
  match kw with
  | JStr k => find (fun header => str_eqb (keyword header) k) headers
  | _ => None
  end.

(** [h.value] where [h] is what [header()] returned: a TypeError on
    undefined. *)
Definition value_of (h : option Header) : result jsval :=
  match h with
  | Some h => Ok (value h)
  | None => Throw TypeError
  end.

(** The loop [for (let i = 1; i <= naxis.value; ++i)].  The test holds for
    the integers up to the floor of the value only, which bounds the fuel
    ([naxis_loop_fuel]). *)
Fixpoint naxis_loop (fuel : nat) (i : Z) (bound : number)
    (headers : list Header) (size : number) : result number :=
  if num_le (num_of_Z i) bound then
    match fuel with
    | O => Throw Diverges
    | S fuel' =>
        v <- value_of (find_header headers (JStr ("NAXIS" ++ number_toString (num_of_Z i)))) ;;
        naxis_loop fuel' (i + 1)%Z bound headers (num_mul size (ToNumber v))
    end
  else Ok size.

Definition loop_fuel (bound : number) : nat :=
  match bound with
  | Num q => Z.to_nat (Qfloor q)
  | NaN => 0
  end.

Definition new_HDU (w : World) (self : FileCore) (iter : BlockIterator)
  : result (HDU * BlockIterator) :=
  '(headers, iter) <- read_headers w self iter ;;
  let start := position iter in
  let naxis := find_header headers (JStr "NAXIS") in
  let bpp := find_header headers (JStr "BITPIX") in
  naxis_value <- value_of naxis ;;
  if num_gt (ToNumber naxis_value) (num_of_Z 0) then
    bpp_value <- value_of bpp ;;
    let size := num_abs (num_div_const (ToNumber bpp_value) 8) in
    size <- naxis_loop (loop_fuel (ToNumber naxis_value)) 1 (ToNumber naxis_value)
              headers size ;;
    let count := num_ceil (num_div_const size (Z.of_nat blockSize)) in
    let stop := num_add (num_of_Z start) count in
    let (iter, r) := skip count iter in
    _ <- r ;;
    Ok ({| headers_ := headers; size_ := size; hdu_start := start; hdu_end := stop |},
        iter)
  else
    Ok ({| headers_ := headers; size_ := num_of_Z 0; hdu_start := start;
           hdu_end := num_of_Z start |}, iter).

Definition hdu_modified (this : HDU) : bool :=
  existsb modified (headers_ this).

Definition header (this : HDU) (kw : jsval) : option Header :=
  find_header (headers_ this) kw.

Definition headers (this : HDU) (kw : jsval) : result (list Header) :=
  match kw with
  | JStr k =>
      let k := wtrim (toUpperCase k) in
      Ok (filter (fun header => wstr_eqb (wide (keyword header)) k) (headers_ this))
  | JUndefined => Ok (headers_ this)
  | _ => Throw TypeError
  end.

(** ** File: the constructor *)

Record File : Type := mkFile {
  core : FileCore;
  hdus_ : list HDU           (* #hdus *)
}.

(** [while (!iter.done) this.#hdus.push(new HDU(iter))].  Every HDU takes at
    least one block, so a fuel of the block count is never used up
    ([read_hdus_fuel]). *)
Fixpoint read_hdus (fuel : nat) (w : World) (self : FileCore)
    (iter : BlockIterator) (hdus : list HDU) : result (list HDU) :=
  if done iter then Ok hdus
  else
    match fuel with
    | O => Throw Diverges
    | S fuel' =>
        '(hdu, iter) <- new_HDU w self iter ;;
        read_hdus fuel' w self iter (hdus ++ [hdu])
    end.

Definition new_File (path : str) : method World File :=
  fun w =>
    match openSync path w with
    | (w, Throw e) => (w, Throw e)
    | (w, Ok fd) =>
        (w,
         size <- fstatSync_size fd w ;;
         if size =? 0 then Throw EmptyFile
         else if negb (size mod blockSize =? 0) then Throw IncompleteBlocks
         else
           let self := {| fd_ := fd; blockCount_ := Z.of_nat (size / blockSize) |} in
           let iter := blocks self in
           hdus <- read_hdus (size / blockSize) w self iter [] ;;
           Ok {| core := self; hdus_ := hdus |})
    end.

Definition primary_hdu (this : File) : option HDU := hd_error (hdus_ this).

Definition file_modified (this : File) : bool := existsb hdu_modified (hdus_ this).

End Layout.

(** ** Writing to the storage device ([node:fs])

    [File.write] opens its output with the flag 'w' and writes it from the
    first byte on with [fs.writeSync].  The position of that descriptor is
    carried along by the caller in the model: a write without a position
    goes there and moves it on by the count of bytes written.  On this
    device a write is never cut short. *)

(** The disk with the file [path] holding [c]. *)
Fixpoint store_path (path : str) (c : bytes) (d : list (str * bytes)) : list (str * bytes) :=
  match d with
  | [] => [(path, c)]
  | (p, c0) :: d' =>
      if str_eqb p path then (p, c) :: d' else (p, c0) :: store_path path c d'
  end.

(** [fs.openSync(path, 'w')]: the file is created, or cut to length 0; the
    descriptors already open on it see that. *)
Definition openSync_w (path : str) : method World nat :=
  fun w =>
    ({| disk := store_path path [] (disk w);
        handles := (next_fd w, path) :: handles w;
        next_fd := S (next_fd w) |}, Ok (next_fd w)).

(** The file [c] after [data] is written at the position [pos]; a gap
    before it reads as zeros. *)
Definition write_at (pos : nat) (data c : bytes) : bytes :=
  firstn pos c ++ repeat zero (pos - length c) ++ data ++ skipn (pos + length data) c.

(** Writing [data] through [fd] at [pos]: the count of bytes written. *)
Definition writeSync (fd : nat) (data : bytes) (pos : nat) : method World nat :=
  fun w =>
    match lookup_fd fd (handles w) with
    | Some p =>
        match lookup_path p (disk w) with
        | Some c =>
            ({| disk := store_path p (write_at pos data c) (disk w);
                handles := handles w;
                next_fd := next_fd w |}, Ok (length data))
        | None => (w, Throw BadDescriptor)
        end
    | None => (w, Throw BadDescriptor)
    end.

(** One character of a string in UTF-8, the encoding of
    [fs.writeSync(fd, string)]: one byte for a code below 128, two for a code
    from 128 to 255. *)
Definition utf8 (c : ascii) : bytes :=
  match c with
  | Ascii _ _ _ _ _ _ _ false => [c]
  | Ascii b0 b1 b2 b3 b4 b5 b6 true =>
      [Ascii b6 true false false false false true true;
       Ascii b0 b1 b2 b3 b4 b5 false true]
  end.

Definition utf8_encode (s : str) : bytes := flat_map utf8 s.

(** [fs.writeSync(fd, string)] *)
Definition writeSync_string (fd : nat) (s : str) (pos : nat) : method World nat :=
  writeSync fd (utf8_encode s) pos.

(** [fs.writeSync(fd, buffer, offset, length)]: [undefined] in the place of
    the buffer is a TypeError of Node, a span that leaves the buffer a
    RangeError. *)
Definition writeSync_buffer (fd : nat) (buffer : option bytes) (offset length : nat)
    (pos : nat) : method World nat :=
  fun w =>
    match buffer with
    | None => (w, Throw TypeError)
    | Some b =>
        if List.length b <? offset + length then (w, Throw RangeError)
        else writeSync fd (subarray offset (offset + length) b) pos w
    end.

(** ** File: write ([src/lib/file.mjs], [src/lib/hdu.mjs]) *)

Section Writing.

Context {host : NumberHost}.

(** The iterator that [range_iterator(start, end)] returns: the closure of
    [#block_iterator] again, over the bounds it is given. *)
Record RangeIterator : Type := mkRange {
  rn_ : Z;           (* the captured [n] *)
  rend_ : number     (* the captured [end] *)
}.

Definition range_iterator (start : Z) (stop : number) : RangeIterator :=
  {| rn_ := start; rend_ := stop |}.

(** [n >= end] *)
Definition range_done (it : RangeIterator) : bool :=
  num_le (rend_ it) (num_of_Z (rn_ it)).

Definition range_next (w : World) (self : FileCore) : method RangeIterator (option bytes) :=
  fun it =>
    if range_done it then (it, Ok None)
    else
      let n := rn_ it in
      ({| rn_ := (n + 1)%Z; rend_ := rend_ it |}, block w self (num_of_Z n)).

(** [get blocks()] of HDU *)
Definition hdu_blocks (this : HDU) : RangeIterator :=
  range_iterator (hdu_start this) (hdu_end this).

(** [for (const header of hdu.headers()) { fs.writeSync(fd, header.toString());
    hwn += headerSize; }].  The cards are the objects of the HDU: a card
    that [toString] updates is updated there. *)
Fixpoint write_headers (fd : nat) (cards : list Header) (pos hwn : nat) (w : World)
  : (list Header * nat * nat * World) * result unit :=
  match cards with
  | [] => (([], pos, hwn, w), Ok tt)
  | header :: rest =>
      let (header, r) := toString header in
      match r with
      | Throw e => ((header :: rest, pos, hwn, w), Throw e)
      | Ok s =>
          match writeSync_string fd s pos w with
          | (w, Throw e) => ((header :: rest, pos, hwn, w), Throw e)
          | (w, Ok n) =>
              let '((rest, pos, hwn, w), r) :=
                write_headers fd rest (pos + n) (hwn + headerSize) w in
              ((header :: rest, pos, hwn, w), r)
          end
      end
  end.

(** [while (hwn % blockSize !== 0) { fs.writeSync(fd, ' '.repeat(headerSize));
    hwn += headerSize; }].  [hwn] is a multiple of [headerSize], so a fuel of
    the cards of a block is never used up ([pad_header_block_fuel]). *)
Fixpoint pad_header_block (fuel : nat) (fd : nat) (pos hwn : nat) (w : World)
  : (nat * World) * result unit :=
  if hwn mod blockSize =? 0 then ((pos, w), Ok tt)
  else
    match fuel with
    | O => ((pos, w), Throw Diverges)
    | S fuel' =>
        match writeSync_string fd (repeat SPACE headerSize) pos w with
        | (w, Throw e) => ((pos, w), Throw e)
        | (w, Ok n) => pad_header_block fuel' fd (pos + n) (hwn + headerSize) w
        end
    end.

(** [for (const block of hdu.blocks) fs.writeSync(fd, block, 0, blockSize)]:
    the loop ends when [next()] reports done, which it does when [done]
    holds.  [block] throws past the last block of the file, which bounds
    the fuel ([copy_blocks_fuel]). *)
Fixpoint copy_blocks (fuel : nat) (fd : nat) (self : FileCore) (it : RangeIterator)
    (pos : nat) (w : World) : (nat * World) * result unit :=
  if range_done it then ((pos, w), Ok tt)
  else
    match fuel with
    | O => ((pos, w), Throw Diverges)
    | S fuel' =>
        let (it, r) := range_next w self it in
        match r with
        | Throw e => ((pos, w), Throw e)
        | Ok blk =>
            match writeSync_buffer fd blk 0 blockSize pos w with
            | (w, Throw e) => ((pos, w), Throw e)
            | (w, Ok n) => copy_blocks fuel' fd self it (pos + n) w
            end
        end
    end.

Definition copy_fuel (self : FileCore) (it : RangeIterator) : nat :=
  S (Z.to_nat (blockCount_ self - rn_ it)).

Definition with_headers (hs : list Header) (this : HDU) : HDU :=
  {| headers_ := hs; size_ := size_ this;
     hdu_start := hdu_start this; hdu_end := hdu_end this |}.

(** The body of [for (const hdu of this.hdus)]. *)
Definition write_hdu (fd : nat) (self : FileCore) (hdu : HDU) (pos : nat) (w : World)
  : (HDU * nat * World) * result unit :=
  match headers hdu JUndefined with
  | Throw e => ((hdu, pos, w), Throw e)
  | Ok cards =>
      let '((cards, pos, hwn, w), r) := write_headers fd cards pos 0 w in
      let hdu := with_headers cards hdu in
      match r with
      | Throw e => ((hdu, pos, w), Throw e)
      | Ok _ =>
          let '((pos, w), r) := pad_header_block (blockSize / headerSize) fd pos hwn w in
          match r with
          | Throw e => ((hdu, pos, w), Throw e)
          | Ok _ =>
              let '((pos, w), r) :=
                copy_blocks (copy_fuel self (hdu_blocks hdu)) fd self (hdu_blocks hdu)
                  pos w in
              ((hdu, pos, w), r)
          end
      end
  end.

Fixpoint write_hdus (fd : nat) (self : FileCore) (hdus : list HDU) (pos : nat) (w : World)
  : (list HDU * nat * World) * result unit :=
  match hdus with
  | [] => (([], pos, w), Ok tt)
  | hdu :: rest =>
      let '((hdu, pos, w), r) := write_hdu fd self hdu pos w in
      match r with
      | Throw e => ((hdu :: rest, pos, w), Throw e)
      | Ok _ =>
          let '((rest, pos, w), r) := write_hdus fd self rest pos w in
          ((hdu :: rest, pos, w), r)
      end
  end.

(** [write(path)]: the File with its cards as the renderings left them, and
    the device.  The descriptor is closed on the way out of the last
    statement only. *)
Definition write (path : str) (this : File) (w : World) : (File * World) * result unit :=
  match openSync_w path w with
  | (w, Throw e) => ((this, w), Throw e)
  | (w, Ok fd) =>
      let '((hdus, _, w), r) := write_hdus fd (core this) (hdus_ this) 0 w in
      let this := {| core := core this; hdus_ := hdus |} in
      match r with
      | Throw e => ((this, w), Throw e)
      | Ok _ => let (w, r) := closeSync fd w in ((this, w), r)
      end
  end.

End Writing.

(** ** Vocabulary of the properties *)

Section Vocabulary.

Context {host : NumberHost}.

(** The text that [#parse] hands to [#parse_comment] for a buffer that
    [from_buffer] decodes as a Value card, when the value itself is well
    formed: what follows the value scan for a quoted value, the bytes from 30
    on otherwise. *)
Definition value_card_commentary (buffer : bytes) : option str :=
  let raw := {| buffer_ := buffer; modified_ := false |} in
  let keyword := raw_keyword raw in
  if str_eqb keyword "COMMENT" || str_eqb keyword "HISTORY" then None
  else if negb (has_value raw) then None
  else if startsWith [QUOTE] (trimStart (raw_substring (keySize + 2) headerSize raw)) then
    let data := raw_substring 10 headerSize raw in
    let (inside, offset) := scan_string data false 0 in
    let value := trimEnd (substring 0 offset data) in
    if inside || negb (startsWith [QUOTE] value) || negb (endsWith [QUOTE] value)
    then None
    else Some (substring_from offset data)
  else Some (raw_substring 30 headerSize raw).

(** The commentary has an empty units bracket: after the marker [/] and the
    white space that follows it, the text begins with [[]]. *)
Definition empty_units_bracket (s : str) : Prop :=
  startsWith "/" (trim s) = true /\
  startsWith "[]" (trimStart (substring_from 1 (trim s))) = true.

(** What a caller can do to a card it holds: render it, or assign to one of
    its properties.  [#set_keyword] is private and runs in the constructor
    only, so it is not among them. *)
Inductive card_op : Type :=
| Do_toString
| Set_value (arg : jsval)
| Set_units (arg : jsval)
| Set_comment (arg : jsval)
| Set_text (arg : jsval).

(** The assignment invokes a setter of the card's class.  On a card of another
    class it creates a plain property and touches no field. *)
Definition is_setter_call (o : card_op) (h : Header) : bool :=
  match o, h with
  | Set_value _, HValue _ | Set_units _, HValue _ | Set_comment _, HValue _ => true
  | Set_text _, HComment _ => true
  | _, _ => false
  end.

Definition step (o : card_op) : method Header unit :=
  fun h =>
    match o, h with
    | Do_toString, _ => let (h', r) := toString h in (h', _ <- r ;; Ok tt)
    | Set_value a, HValue v => let (v', r) := set_value a v in (HValue v', r)
    | Set_units a, HValue v => let (v', r) := set_units a v in (HValue v', r)
    | Set_comment a, HValue v => let (v', r) := set_comment a v in (HValue v', r)
    | Set_text a, HComment c => let (c', r) := set_text a c in (HComment c', r)
    | _, _ => (h, Ok tt)
    end.

Definition returned {A} (r : result A) : bool :=
  match r with Ok _ => true | Throw _ => false end.

(** The card after a sequence of calls, and whether one of them was a setter
    that returned. *)
Fixpoint run (ops : list card_op) (h : Header) : Header * bool :=
  match ops with
  | [] => (h, false)
  | o :: ops' =>
      let (h', r) := step o h in
      let (h'', later) := run ops' h' in
      (h'', (is_setter_call o h && returned r) || later)
  end.

(** A unit of 7-bit ASCII. *)
Definition seven_bit (c : ascii) : Prop := clear7 c = c.

(** An optional text as the argument of a call: the text, or undefined. *)
Definition opt_arg (o : option str) : jsval :=
  match o with Some s => JStr s | None => JUndefined end.

(** What [#update] appends to the value field for the units and the comment. *)
Definition commentary (units comment : option str) : str :=
  (match units, comment with None, None => [] | _, _ => " / " end)
  ++ (match units with Some u => "[" ++ u ++ "] " | None => [] end)
  ++ (match comment with Some c => c | None => [] end).

(** The values, units and comments that a card gives back when its record is
    decoded. *)
Definition encodable_value (v : jsval) : Prop :=
  match v with
  | JBool _ => True
  | JNum x =>
      let t := number_toString x in
      t <> [] /\ length t <= valueSize /\ Forall seven_bit t /\
      trimStart t = t /\ startsWith [QUOTE] t = false /\
      t <> "T" /\ t <> "F" /\ Number t = x
  | JStr a => Forall seven_bit a /\ trimEnd a = a
  | _ => False
  end.

Definition encodable_units (u : option str) : Prop :=
  match u with
  | None => True
  | Some u => u <> [] /\ Forall seven_bit u /\ ~ In "]"%char u
  end.

Definition encodable_comment (u c : option str) : Prop :=
  match c with
  | None => True
  | Some c =>
      Forall seven_bit c /\ trimStart c = c /\ trimEnd c = c /\
      (u = None -> startsWith "[" c = false)
  end.

(** The marker, the value field and the commentary fit the 72 bytes after
    the keyword. *)
Definition fits (v : jsval) (u c : option str) : Prop :=
  match format_value v with
  | Some sv => 2 + length sv + length (commentary u c) <= headerSize - keySize
  | None => False
  end.

(** The comment a decoder finds: units without a comment leave the empty
    text behind the bracket. *)
Definition decoded_comment (u c : option str) : option str :=
  match c, u with
  | Some c, _ => Some c
  | None, Some _ => Some []
  | None, None => None
  end.

(** The keyword field that [#set_keyword] writes: [keySize] bytes. *)
Definition keyword_field (k : str) : str :=
  firstn keySize
    (low_bytes (wpadEnd keySize 32%N (toUpperCase (substring 0 keySize k)))).

(** The two errors of the size validation in the File constructor. *)
Definition validation_error (e : exn) : bool :=
  match e with
  | EmptyFile | IncompleteBlocks => true
  | _ => false
  end.

(** The number of cards in a block. *)
Definition cards_per_block : nat := blockSize / headerSize.

(** The 80-byte slot number [k], counted from the first slot of the block
    [start]: [None] where the device has no such block. *)
Definition slot (w : World) (self : FileCore) (start : Z) (k : nat) : option bytes :=
  match block w self (num_of_Z (start + Z.of_nat (k / cards_per_block))) with
  | Ok (Some buf) =>
      let j := (k mod cards_per_block) * headerSize in
      Some (subarray j (j + headerSize) buf)
  | _ => None
  end.

(** The card [h] is what [from_buffer] makes of slot [k]. *)
Definition decodes_slot (w : World) (self : FileCore) (start : Z) (k : nat) (h : Header)
  : Prop :=
  exists b, slot w self start k = Some b /\ from_buffer b = Ok h.

(** The first card with keyword [kw] is a Value card holding the integer [z]. *)
Definition has_number (headers : list Header) (kw : str) (z : Z) : Prop :=
  exists h q, find_header headers (JStr kw) = Some h /\
              value h = JNum (Num q) /\ q == inject_Z z.

(** The keyword [NAXISi] as the constructor of HDU forms it. *)
Definition axis_keyword (i : Z) : str :=
  "NAXIS" ++ number_toString (num_of_Z i).

(** The block count in the words of the spec:
    ceil(|BITPIX|/8 * product of the NAXISi / 2880). *)
Definition spec_block_count (bitpix : Z) (dims : list Z) : Z :=
  Qceiling (Qabs (inject_Z bitpix) / 8 * inject_Z (fold_right Z.mul 1%Z dims) / 2880).

Definition all_white (s : str) : Prop := Forall (fun c => is_white c = true) s.

(** [from_buffer] by cases on the keyword and the value marker. *)
Definition raw_of_buffer (buf : bytes) : RawHeader :=
  {| buffer_ := buf; modified_ := false |}.

Definition fresh_value (r : RawHeader) : ValueHeader :=
  {| super := r; value_ := JUndefined; svalue_ := None;
     units_ := None; comment_ := None; dirty_ := false |}.

Definition commentary_keyword (k : str) : bool :=
  str_eqb k "COMMENT" || str_eqb k "HISTORY".

(** A card nothing has written to: 80 bytes, not modified, and rendered as
    [text]. *)
Definition pristine (text : str) (h : Header) : Prop :=
  length (buffer_ (raw_of h)) = headerSize /\
  modified h = false /\ toString h = (h, Ok text).

(** The card that [Header.value] builds, and the record it renders. *)
Definition built_card (k : str) (v : jsval) (sv : str) (u c : option str) : ValueHeader :=
  {| super := {| buffer_ := keyword_field k ++ repeat SPACE (headerSize - keySize);
                 modified_ := true |};
     value_ := v; svalue_ := Some sv; units_ := u; comment_ := c; dirty_ := true |}.

(** The text behind the marker or the bracket, cut at the right: nothing, or
    a space and the comment. *)
Definition after_trim (c0 : str) : str :=
  match c0 with [] => [] | _ :: _ => " " ++ c0 end.

(** The value that [#parse] reads in a field that does not hold a quoted
    text. *)
Definition plain_value (t : str) : jsval :=
  if str_eqb t "T" then JBool true
  else if str_eqb t "F" then JBool false
  else JNum (Number t).

(** The cards read so far fill whole blocks, each is the decoding of its
    slot, and none is END. *)
Definition headers_so_far (w : World) (self : FileCore) (start : Z) (j : nat)
    (hs0 : list Header) : Prop :=
  length hs0 = j * cards_per_block /\
  forall k h, nth_error hs0 k = Some h ->
    decodes_slot w self start k h /\ keyword h <> "END".

(** A card as a caller first gets it: decoded from an 80-byte slice, or
    built by one of the factory functions of Header from a keyword string. *)
Definition fresh_card (h : Header) : Prop :=
  (exists buf, length buf = headerSize /\ from_buffer buf = Ok h) \/
  (exists k v u c, Header_value (AString k) v u c = Ok h) \/
  (exists t, Header_comment t = Ok h) \/
  (exists t, Header_history t = Ok h).

(** The values, and the optional texts, that the setters of a Value card
    accept. *)
Definition supported_value (v : jsval) : bool :=
  match v with
  | JBool _ | JNum _ | JStr _ => true
  | _ => false
  end.

Definition optional_text (v : jsval) : bool :=
  match v with
  | JStr _ | JUndefined => true
  | _ => false
  end.

(** The HDUs [hdus] tile the blocks from [from] to [to]: each has at least
    one header block before its data extent, its extent ends at an integer
    block index, and the next HDU begins there. *)
Fixpoint layout_chain (from : Z) (hdus : list HDU) (to : Z) : Prop :=
  match hdus with
  | [] => from = to
  | hdu :: rest =>
      exists stop : Z,
        (from < hdu_start hdu <= stop)%Z /\
        as_integer (hdu_end hdu) = Some stop /\
        layout_chain stop rest to
  end.

(** *** Vocabulary of [write] *)

(** A Value card that waits for its rendering. *)
Definition card_dirty (h : Header) : bool :=
  match h with
  | HValue v => dirty_ v
  | _ => false
  end.

(** The bytes of a card as the ASCII decoding reads them. *)
Definition card_image (h : Header) : bytes := Buffer_toString (buffer_ (raw_of h)).

(** The cards of an HDU one after the other, and spaces up to the end of
    the block. *)
Definition header_image (cards : list Header) : bytes :=
  let text := flat_map card_image cards in
  text ++ repeat SPACE ((blockSize - length text mod blockSize) mod blockSize).

(** The data blocks of an HDU in the file [c]. *)
Definition data_extent (c : bytes) (hdu : HDU) : bytes :=
  match as_integer (hdu_end hdu) with
  | Some stop =>
      firstn (Z.to_nat (stop - hdu_start hdu) * blockSize)
        (skipn (Z.to_nat (hdu_start hdu) * blockSize) c)
  | None => []
  end.

Definition file_image (c : bytes) (hdus : list HDU) : bytes :=
  flat_map (fun hdu => header_image (headers_ hdu) ++ data_extent c hdu) hdus.

(** The data extent of the HDU is not empty. *)
Definition has_data (hdu : HDU) : bool := negb (range_done (hdu_blocks hdu)).

(** The device [w'] differs from [w] in the file behind [fd] at most. *)
Definition frame (fd : nat) (w w' : World) : Prop :=
  handles w' = handles w /\ next_fd w' = next_fd w /\
  forall q, lookup_fd fd (handles w) <> Some q ->
            lookup_path q (disk w') = lookup_path q (disk w).

(** What a card holds for its reader, apart from its rendering. *)
Definition same_fields (h h' : Header) : Prop :=
  value h' = value h /\ units h' = units h /\ comment h' = comment h /\
  modified h' = modified h.

Definition same_cards (hdu hdu' : HDU) : Prop :=
  hdu_start hdu' = hdu_start hdu /\ hdu_end hdu' = hdu_end hdu /\
  size_ hdu' = size_ hdu /\
  Forall2 same_fields (headers_ hdu) (headers_ hdu').

(** The descriptor [fd] is open on the file [p], which holds [c]. *)
Definition holds (fd : nat) (p : str) (c : bytes) (w : World) : Prop :=
  lookup_fd fd (handles w) = Some p /\ lookup_path p (disk w) = Some c.

(** A card of 80 bytes that renders as they read, unchanged by that. *)
Definition rendered (h : Header) : Prop :=
  length (buffer_ (raw_of h)) = headerSize /\ toString h = (h, Ok (card_image h)).

(** The HDUs as the constructor of File leaves them: the cards of each fill
    the header blocks from [from] on up to the one that holds END, its
    extent begins behind that block and ends at an integer block index,
    where the next HDU begins. *)
Fixpoint opened_chain (from : Z) (hdus : list HDU) (to : Z) : Prop :=
  match hdus with
  | [] => from = to
  | hdu :: rest =>
      exists stop : Z,
        headers_ hdu <> [] /\ Forall rendered (headers_ hdu) /\
        hdu_start hdu
        = (from + Z.of_nat ((length (headers_ hdu) - 1) / cards_per_block) + 1)%Z /\
        (hdu_start hdu <= stop)%Z /\
        as_integer (hdu_end hdu) = Some stop /\
        opened_chain stop rest to
  end.

(** The header blocks of the HDUs, one HDU after the other. *)
Definition headers_image (hdus : list HDU) : bytes :=
  flat_map (fun hdu => header_image (headers_ hdu)) hdus.

(** A card with its bytes as the ASCII decoding reads them, and an HDU with
    such cards: what a file that [write] wrote decodes to. *)
Definition ascii_raw (r : RawHeader) : RawHeader :=
  {| buffer_ := Buffer_toString (buffer_ r); modified_ := modified_ r |}.

Definition ascii_card (h : Header) : Header :=
  match h with
  | HRaw r => HRaw (ascii_raw r)
  | HComment r => HComment (ascii_raw r)
  | HValue v => HValue (with_super (ascii_raw (super v)) v)
  end.

Definition ascii_hdu (hdu : HDU) : HDU :=
  with_headers (map ascii_card (headers_ hdu)) hdu.

(** A call that is not an assignment to [value]. *)
Definition keeps_value (o : card_op) : bool :=
  match o with
  | Set_value _ => false
  | _ => true
  end.

(** The range in which the doubles of the HDU constructor are exact: no
    product of |BITPIX| with sizes of axes, taken in any number from the
    first on, is beyond 2^53. *)
Definition exact_extent (bitpix : Z) (dims : list Z) : Prop :=
  (Z.abs bitpix * fold_right Z.mul 1 (map (fun d => Z.max 1 (Z.abs d)) dims)
   <= 2 ^ 53)%Z.

End Vocabulary.

(** ** Examples: cards, a device and its files *)

Module Examples.

(** A card from its text, padded with spaces to 80 bytes. *)
Definition card (text : string) : bytes := padEnd headerSize SPACE text.

(** A card [keyword = value] with the value right-aligned in its field. *)
Definition kv (k v : string) : bytes :=
  card (string_of_list_ascii (padEnd keySize SPACE k ++ "= " ++ padStart valueSize SPACE v)).

Definition pad_block (b : bytes) : bytes := padEnd blockSize SPACE b.

Definition scenario_card : bytes := card "COMMENT = 'it''s ok' / [m] distance".

Definition scenario_card_DIST : bytes := card "DIST    = 'it''s ok' / [m] distance".

(** The minimal file of the spec: one header block, no data. *)
Definition minimal_file : bytes :=
  pad_block (kv "SIMPLE" "T" ++ kv "BITPIX" "8" ++ kv "NAXIS" "0" ++ card "END").

(** A 100 x 30 image of 16-bit samples: one header block with a card after
    END, and three data blocks. *)
Definition image_file : bytes :=
  pad_block (kv "SIMPLE" "T" ++ kv "BITPIX" "16" ++ kv "NAXIS" "2"
             ++ kv "NAXIS1" "100" ++ kv "NAXIS2" "30" ++ card "END"
             ++ kv "AFTER" "1")
  ++ repeat zero (3 * blockSize).

Definition world : World :=
  {| disk := [ (list_ascii_of_string "minimal.fits", minimal_file);
               (list_ascii_of_string "image.fits", image_file);
               (list_ascii_of_string "empty.fits", []);
               (list_ascii_of_string "short.fits", repeat zero 100) ];
     handles := [];
     next_fd := 3 |}.

Definition minimal_core : FileCore := {| fd_ := 3; blockCount_ := 1 |}.
Definition image_core : FileCore := {| fd_ := 3; blockCount_ := 4 |}.

Definition world_open (path : string) : World := fst (openSync path world).

(** The HDU read at the start of a file, an empty one when the constructor
    throws. *)
Definition first_hdu (path : string) (self : FileCore) : HDU * BlockIterator :=
  match new_HDU (host := DecimalHost.host) (world_open path) self (blocks self) with
  | Ok r => r
  | Throw _ => ({| headers_ := []; size_ := NaN; hdu_start := 0; hdu_end := NaN |},
                blocks self)
  end.

Definition minimal_hdu : HDU := fst (first_hdu "minimal.fits" minimal_core).
Definition image_hdu : HDU := fst (first_hdu "image.fits" image_core).

(** A second device: an image whose NAXIS2 card is missing, and the image
    file cut after its first data block. *)
Definition broken_world : World :=
  {| disk := [ (list_ascii_of_string "noaxis.fits",
                pad_block (kv "SIMPLE" "T" ++ kv "BITPIX" "16" ++ kv "NAXIS" "2"
                           ++ kv "NAXIS1" "100" ++ card "END"));
               (list_ascii_of_string "cut.fits", firstn (2 * blockSize) image_file) ];
     handles := [];
     next_fd := 3 |}.

Definition broken_open (path : string) : World := fst (openSync path broken_world).

Definition noaxis_core : FileCore := {| fd_ := 3; blockCount_ := 1 |}.
Definition cut_core : FileCore := {| fd_ := 3; blockCount_ := 2 |}.

(** The cards that [#read_headers] reads at the start of a file of the
    second device. *)
Definition broken_headers (path : string) (self : FileCore) : list Header :=
  match read_headers (host := DecimalHost.host) (broken_open path) self (blocks self) with
  | Ok (hs, _) => hs
  | Throw _ => []
  end.

(** The File that opening a path gives, an empty one when the constructor
    throws. *)
Definition opened (path : string) : File :=
  match snd (new_File (host := DecimalHost.host) path world) with
  | Ok f => f
  | Throw _ => {| core := {| fd_ := 0; blockCount_ := 0 |}; hdus_ := [] |}
  end.

Definition empty_units_card : bytes :=
  card "NAXIS   =                    2 / [] axes".

Definition naxis_card : bytes := kv "NAXIS" "0".


(** What [from_buffer] makes of a buffer, a Raw card on the buffer when it
    throws. *)
Definition decoded (buffer : bytes) : Header :=
  match from_buffer (host := DecimalHost.host) buffer with
  | Ok h => h
  | Throw _ => HRaw {| buffer_ := buffer; modified_ := false |}
  end.

(** What [Header.value] builds, likewise. *)
Definition built (k : string) (v : jsval) (u c : option str) : Header :=
  match Header_value (host := DecimalHost.host) (AString k) v (opt_arg u) (opt_arg c) with
  | Ok h => h
  | Throw _ => HRaw {| buffer_ := []; modified_ := false |}
  end.

(** The record a card renders, empty when rendering throws. *)
Definition record (h : Header) : bytes :=
  match snd (toString (host := DecimalHost.host) h) with
  | Ok s => s
  | Throw _ => []
  end.

Definition naxis1_card : Header :=
  built "naxis1" (JNum (num_of_Z 100)) (Some (list_ascii_of_string "pixel"))
    (Some (list_ascii_of_string "length of axis 1")).

Definition object_card : Header :=
  built "OBJECT" (JStr "Barnard's star") None (Some (list_ascii_of_string "target")).

(** Units without a comment, and a text that ends in a space. *)
Definition flag_card : Header :=
  built "FLAG" (JBool true) (Some (list_ascii_of_string "m")) None.

Definition padded_card : Header :=
  built "NAME" (JStr "a ") None None.

(** The Value card that [from_buffer] makes of [naxis_card]. *)
Definition naxis_value : ValueHeader :=
  match decoded naxis_card with
  | HValue v => v
  | HRaw r | HComment r =>
      {| super := r; value_ := JUndefined; svalue_ := None; units_ := None;
         comment_ := None; dirty_ := false |}
  end.

End Examples.

(** * Properties *)

#[local] Arguments Ascii.eqb : simpl never.
#[local] Arguments is_white : simpl never.

Lemma bind_Ok {A B} (m : result A) (k : A -> result B) (b : B) :
  bind m k = Ok b -> exists a, m = Ok a /\ k a = Ok b.
Proof. destruct m as [a|e]; simpl; intros H; [eauto | discriminate]. Qed.

Lemma bind_Throw {A B} (m : result A) (k : A -> result B) (e : exn) :
  bind m k = Throw e -> m = Throw e \/ exists a, m = Ok a /\ k a = Throw e.
Proof. destruct m as [a|e']; simpl; intros H; [eauto | left; congruence]. Qed.

Lemma str_eqb_eq (a b : str) : str_eqb a b = true <-> a = b.
Proof. unfold str_eqb; destruct (list_eq_dec ascii_dec a b); split; congruence. Qed.

Lemma str_eqb_neq (a b : str) : str_eqb a b = false <-> a <> b.
Proof. unfold str_eqb; destruct (list_eq_dec ascii_dec a b); split; congruence. Qed.

Lemma str_eqb_refl (a : str) : str_eqb a a = true.
Proof. now apply str_eqb_eq. Qed.

(** ** Strings: trimming, searching, slicing *)

Section StringLemmas.

Lemma all_white_spaces (n : nat) : all_white (repeat SPACE n).
Proof. induction n; simpl; constructor; [reflexivity | assumption]. Qed.

Lemma trimStart_length (s : str) : length (trimStart s) <= length s.
Proof.
  induction s as [|c r IH]; simpl; [lia|].
  destruct (is_white c); simpl; lia.
Qed.

Lemma trimStart_app_white (ws s : str) :
  all_white ws -> trimStart (ws ++ s) = trimStart s.
Proof. induction 1 as [|c r Hc _ IH]; simpl; [reflexivity | now rewrite Hc]. Qed.

Lemma trimStart_white (ws : str) : all_white ws -> trimStart ws = [].
Proof.
  intros H. rewrite <- (app_nil_r ws). now rewrite trimStart_app_white.
Qed.

Lemma trimStart_fixed_head (c : ascii) (r : str) :
  trimStart (c :: r) = c :: r -> is_white c = false.
Proof.
  simpl. destruct (is_white c); [|reflexivity].
  intros H. pose proof (trimStart_length r) as Hl. rewrite H in Hl. simpl in Hl. lia.
Qed.

Lemma trimStart_fixed_app (s t : str) :
  trimStart s = s -> s <> [] -> trimStart (s ++ t) = s ++ t.
Proof.
  destruct s as [|c r]; [congruence|]. intros H _.
  apply trimStart_fixed_head in H. simpl. now rewrite H.
Qed.

Lemma trimEnd_app_white (s ws : str) :
  all_white ws -> trimEnd (s ++ ws) = trimEnd s.
Proof.
  intros H. unfold trimEnd. rewrite rev_app_distr, trimStart_app_white; [reflexivity|].
  now apply Forall_rev.
Qed.

Lemma trimEnd_white (ws : str) : all_white ws -> trimEnd ws = [].
Proof.
  intros H. unfold trimEnd. rewrite trimStart_white; [reflexivity | now apply Forall_rev].
Qed.

Lemma trimEnd_fixed_rev (s : str) : trimEnd s = s -> trimStart (rev s) = rev s.
Proof.
  unfold trimEnd. intros H. apply (f_equal (@rev ascii)) in H.
  now rewrite rev_involutive in H.
Qed.

Lemma trimEnd_fixed_app (p s : str) :
  trimEnd s = s -> s <> [] -> trimEnd (p ++ s) = p ++ s.
Proof.
  intros H Hne. unfold trimEnd. rewrite rev_app_distr.
  rewrite trimStart_fixed_app.
  - now rewrite <- rev_app_distr, rev_involutive.
  - now apply trimEnd_fixed_rev.
  - intros E. apply Hne. apply (f_equal (@rev ascii)) in E.
    now rewrite rev_involutive in E.
Qed.

Lemma trimEnd_snoc (p : str) (c : ascii) :
  is_white c = false -> trimEnd (p ++ [c]) = p ++ [c].
Proof.
  intros H. apply trimEnd_fixed_app; [|discriminate].
  unfold trimEnd; simpl. now rewrite H.
Qed.

Lemma startsWith_app (p s t : str) :
  length p <= length s -> startsWith p (s ++ t) = startsWith p s.
Proof.
  revert s; induction p as [|a p IH]; intros s Hl; [reflexivity|].
  destruct s as [|b s]; simpl in *; [lia|].
  rewrite IH by lia. reflexivity.
Qed.

Lemma startsWith_head (a : ascii) (r : str) : startsWith [a] (a :: r) = true.
Proof. simpl. now rewrite Ascii.eqb_refl. Qed.

Lemma find_char_app_notin (c : ascii) (u rest : str) :
  ~ In c u -> find_char c (u ++ c :: rest) = Some (length u).
Proof.
  induction u as [|d u IH]; simpl; intros Hn.
  - now rewrite Ascii.eqb_refl.
  - destruct (Ascii.eqb d c) eqn:E.
    + apply Ascii.eqb_eq in E. tauto.
    + rewrite IH by tauto. reflexivity.
Qed.

Lemma substring_middle (a b : nat) (p s t : str) :
  a = length p -> b = length p + length s -> substring a b (p ++ s ++ t) = s.
Proof.
  intros -> ->. unfold substring; cbv zeta. rewrite !length_app.
  rewrite !Nat.min_l by lia. rewrite Nat.max_r by lia.
  rewrite skipn_app, skipn_all, Nat.sub_diag. simpl.
  replace (length p + length s - length p) with (length s) by lia.
  rewrite firstn_app, firstn_all, Nat.sub_diag. simpl. apply app_nil_r.
Qed.

Lemma substring_prefix (n : nat) (s t : str) :
  n = length s -> substring 0 n (s ++ t) = s.
Proof.
  intros ->. now apply (substring_middle 0 (length s) [] s t).
Qed.

Lemma substring_whole (n : nat) (s : str) :
  n = length s -> substring 0 n s = s.
Proof.
  intros H. rewrite <- (app_nil_r s) at 1. now apply substring_prefix.
Qed.

Lemma skipn_prefix (n : nat) (s t : str) :
  n = length s -> skipn n (s ++ t) = t.
Proof.
  intros ->. rewrite skipn_app, skipn_all, Nat.sub_diag. reflexivity.
Qed.

Lemma subarray_middle (a b : nat) (p s t : bytes) :
  a = length p -> b = length p + length s -> subarray a b (p ++ s ++ t) = s.
Proof.
  intros -> ->. unfold subarray. rewrite skipn_prefix by reflexivity.
  replace (length p + length s - length p) with (length s) by lia.
  rewrite firstn_app, firstn_all, Nat.sub_diag. simpl. apply app_nil_r.
Qed.

Lemma clear7_idem (c : ascii) : clear7 (clear7 c) = clear7 c.
Proof. now destruct c. Qed.

Lemma clear7_seven_bit (c : ascii) : seven_bit (clear7 c).
Proof. apply clear7_idem. Qed.

Lemma Buffer_toString_idem (b : bytes) :
  Buffer_toString (Buffer_toString b) = Buffer_toString b.
Proof.
  unfold Buffer_toString. rewrite map_map. apply map_ext. apply clear7_idem.
Qed.

Lemma seven_bit_map (s : str) : Forall seven_bit s -> map clear7 s = s.
Proof.
  induction 1 as [|c r Hc _ IH]; [reflexivity|]. cbn [map]. now rewrite Hc, IH.
Qed.

Lemma seven_bit_spaces (n : nat) : Forall seven_bit (repeat SPACE n).
Proof. induction n; simpl; constructor; [reflexivity | assumption]. Qed.

(** Doubling the apostrophes and collapsing the pairs again. *)
Lemma undouble_double_app (a r : str) :
  undouble_quotes (double_quotes a ++ r) = a ++ undouble_quotes r.
Proof.
  induction a as [|c a IH]; [reflexivity|].
  cbn [double_quotes]. destruct (Ascii.eqb c QUOTE) eqn:E.
  - apply Ascii.eqb_eq in E; subst c. cbn [app undouble_quotes].
    rewrite Ascii.eqb_refl. cbn [andb]. now rewrite IH.
  - cbn [app undouble_quotes]. rewrite E. cbn [andb].
    destruct (double_quotes a ++ r) as [|d t] eqn:Et.
    + destruct a as [|x a']; [|cbn [double_quotes] in Et;
        destruct (Ascii.eqb x QUOTE); discriminate].
      simpl in Et. subst r. reflexivity.
    + now rewrite IH.
Qed.

Lemma undouble_spaces (n : nat) :
  undouble_quotes (repeat SPACE n) = repeat SPACE n.
Proof.
  induction n as [|n IH]; [reflexivity|].
  cbn [repeat undouble_quotes]. destruct (repeat SPACE n) as [|d t] eqn:E; [reflexivity|].
  change (Ascii.eqb SPACE QUOTE) with false. cbn [andb]. now rewrite IH.
Qed.

Lemma undouble_double (a : str) : undouble_quotes (double_quotes a) = a.
Proof.
  rewrite <- (app_nil_r (double_quotes a)), undouble_double_app. apply app_nil_r.
Qed.

Lemma seven_bit_double_quotes (a : str) :
  Forall seven_bit a -> Forall seven_bit (double_quotes a).
Proof.
  induction 1 as [|c r Hc _ IH]; simpl; [constructor|].
  destruct (Ascii.eqb c QUOTE); repeat constructor; assumption.
Qed.

(** The value scan crosses a text with doubled apostrophes, and white space,
    without leaving the quotes. *)
Lemma scan_string_double_quotes (a rest : str) (offset : nat) :
  scan_string (double_quotes a ++ rest) true offset =
  scan_string rest true (offset + length (double_quotes a)).
Proof.
  revert offset; induction a as [|c a IH]; intros offset.
  - simpl. now rewrite Nat.add_0_r.
  - cbn [double_quotes]. destruct (Ascii.eqb c QUOTE) eqn:E.
    + cbn [app scan_string length]. rewrite Ascii.eqb_refl. cbn [negb].
      rewrite IH. f_equal. lia.
    + cbn [app scan_string length]. rewrite E.
      destruct (Ascii.eqb c SLASH); cbn [negb]; rewrite IH; f_equal; lia.
Qed.

Lemma scan_string_spaces (n : nat) (rest : str) (inside : bool) (offset : nat) :
  scan_string (repeat SPACE n ++ rest) inside offset =
  scan_string rest inside (offset + n).
Proof.
  revert offset; induction n as [|n IH]; intros offset.
  - simpl. now rewrite Nat.add_0_r.
  - cbn [repeat app scan_string].
    change (Ascii.eqb SPACE QUOTE) with false. change (Ascii.eqb SPACE SLASH) with false.
    rewrite IH. f_equal. lia.
Qed.

End StringLemmas.

(** ** The header-card codec *)

Section CodecProperties.

Context {host : NumberHost}.

Lemma find_char_lt (c : ascii) (s : str) (i : nat) :
  find_char c s = Some i -> i < length s.
Proof.
  revert i; induction s as [|d r IH]; simpl; intros i H; [discriminate|].
  destruct (Ascii.eqb d c).
  - inversion H; lia.
  - destruct (find_char c r) as [j|]; [|discriminate].
    inversion H; subst. specialize (IH j eq_refl). lia.
Qed.

Lemma indexOf_lt (c : ascii) (from : nat) (s : str) (i : nat) :
  indexOf c from s = Some i -> from <= i < length s.
Proof.
  unfold indexOf. destruct (find_char c (skipn from s)) as [j|] eqn:E; [|discriminate].
  intros H; inversion H; subst. apply find_char_lt in E.
  rewrite length_skipn in E. lia.
Qed.

Lemma substring_length (a b : nat) (s : str) :
  a <= b -> b <= length s -> length (substring a b s) = b - a.
Proof.
  intros Hab Hb. unfold substring; cbv zeta.
  rewrite !Nat.min_l by lia. rewrite Nat.max_r by lia.
  rewrite length_firstn, length_skipn. lia.
Qed.

Lemma parse_comment_units (s : str) (this v : ValueHeader) :
  parse_comment s this = Ok v -> units_ v <> Some [].
Proof.
  unfold parse_comment.
  destruct (startsWith "/" (trim s)); [|intros H; inversion H; simpl; discriminate].
  set (s1 := trimStart (substring_from 1 (trim s))).
  destruct (startsWith "[" s1); [|intros H; inversion H; simpl; discriminate].
  destruct (indexOf "]" 1 s1) as [i|] eqn:Ei; [|discriminate].
  destruct (1 <? i) eqn:Hi; [|discriminate].
  apply Nat.ltb_lt in Hi. apply indexOf_lt in Ei.
  intros H; inversion H; subst; simpl. intros Hu; inversion Hu as [Hu'].
  apply (f_equal (@length ascii)) in Hu'.
  rewrite substring_length in Hu' by lia. simpl in Hu'. lia.
Qed.

Lemma parse_string_units (this v : ValueHeader) :
  parse_string this = Ok v -> units_ v <> Some [].
Proof.
  unfold parse_string.
  destruct (scan_string _ false 0) as [inside offset].
  destruct (inside || _ || _); [discriminate|].
  apply parse_comment_units.
Qed.

Lemma parse_units (this v : ValueHeader) :
  parse this = Ok v -> units_ v <> Some [].
Proof.
  unfold parse.
  destruct (startsWith [QUOTE] _); [apply parse_string_units|].
  apply parse_comment_units.
Qed.

Lemma from_buffer_eq (buf : bytes) :
  from_buffer buf =
  if commentary_keyword (raw_keyword (raw_of_buffer buf)) then
    Ok (HComment (raw_of_buffer buf))
  else if has_value (raw_of_buffer buf) then
    v <- parse (fresh_value (raw_of_buffer buf)) ;; Ok (HValue v)
  else Ok (HRaw (raw_of_buffer buf)).
Proof. reflexivity. Qed.

Lemma from_buffer_units (buf : bytes) (h : Header) :
  from_buffer buf = Ok h -> units h <> Some [].
Proof.
  rewrite from_buffer_eq.
  destruct (commentary_keyword _).
  - intros H; inversion H; simpl; discriminate.
  - destruct (has_value _).
    + destruct (parse _) as [v|e] eqn:Ep; simpl; intros H; inversion H; subst.
      simpl. now apply parse_units in Ep.
    + intros H; inversion H; simpl; discriminate.
Qed.

Lemma parse_comment_empty_bracket (s : str) (this : ValueHeader) :
  empty_units_bracket s -> parse_comment s this = Throw MalformedUnits.
Proof.
  intros [Hslash Hbr]. unfold parse_comment. rewrite Hslash.
  destruct (trimStart (substring_from 1 (trim s))) as [|a [|b r]];
    simpl in Hbr; try discriminate.
  - rewrite andb_false_r in Hbr; discriminate.
  - apply andb_prop in Hbr as [Ha Hb]. apply andb_prop in Hb as [Hb _].
    apply Ascii.eqb_eq in Ha, Hb. subst a b. reflexivity.
Qed.

(** C10. Decoding a Value card whose commentary has an empty units bracket
    raises the malformed-units error, although the closing bracket is there;
    and no card that decodes has the empty text as its units. *)
Theorem empty_units_bracket_is_malformed (buf : bytes) (s : str) :
  value_card_commentary buf = Some s ->
  empty_units_bracket s ->
  from_buffer buf = Throw MalformedUnits /\
  (forall (buf' : bytes) (h : Header), from_buffer buf' = Ok h -> units h <> Some []).
Proof.
  intros Hc He. split; [|apply from_buffer_units].
  revert Hc. rewrite from_buffer_eq. unfold value_card_commentary.
  fold (raw_of_buffer buf). fold (commentary_keyword (raw_keyword (raw_of_buffer buf))).
  destruct (commentary_keyword _); [discriminate|].
  destruct (has_value _); [change (negb true) with false; cbv iota|discriminate].
  unfold parse, fresh_value at 1; simpl super.
  destruct (startsWith [QUOTE] _).
  - unfold parse_string; simpl super.
    destruct (scan_string _ false 0) as [inside offset].
    match goal with |- context [if ?c then None else _] => destruct c end;
      [discriminate|].
    intros H; inversion H; subst.
    now rewrite parse_comment_empty_bracket.
  - intros H; inversion H; subst.
    match goal with |- context [str_eqb ?a ?b] => destruct (str_eqb a b) end;
      [|match goal with |- context [str_eqb ?a ?b] => destruct (str_eqb a b) end];
      simpl super; now rewrite parse_comment_empty_bracket.
Qed.

(** *** The modified flag *)

Lemma _write_modified (data : str) (offset length : nat) (r : RawHeader) :
  modified_ (fst (_write data offset length r)) = true.
Proof.
  unfold _write; simpl. destruct (Buffer_write _ _ _ _); reflexivity.
Qed.

Lemma parse_comment_frame (s : str) (this v : ValueHeader) :
  parse_comment s this = Ok v -> super v = super this /\ dirty_ v = dirty_ this.
Proof.
  unfold parse_comment.
  destruct (startsWith "/" _); [|intros H; inversion H; auto].
  destruct (startsWith "[" _); [|intros H; inversion H; auto].
  destruct (indexOf _ _ _); [|discriminate].
  destruct (1 <? _); [|discriminate].
  intros H; inversion H; auto.
Qed.

Lemma parse_frame (this v : ValueHeader) :
  parse this = Ok v -> super v = super this /\ dirty_ v = dirty_ this.
Proof.
  unfold parse. destruct (startsWith [QUOTE] _).
  - unfold parse_string. destruct (scan_string _ _ _) as [inside offset].
    destruct (inside || _ || _); [discriminate|].
    intros H. now apply parse_comment_frame in H.
  - intros H. apply parse_comment_frame in H.
    destruct (str_eqb _ _); [|destruct (str_eqb _ _)]; exact H.
Qed.

Lemma from_buffer_pristine (buf : bytes) (h : Header) :
  length buf = headerSize ->
  from_buffer buf = Ok h -> pristine (Buffer_toString buf) h.
Proof.
  intros Hlen. rewrite from_buffer_eq.
  assert (Hs : raw_toString (raw_of_buffer buf) = Buffer_toString buf).
  { unfold raw_toString, raw_substring, subarray, raw_of_buffer.
    cbn [buffer_ skipn]. rewrite Nat.sub_0_r, <- Hlen, firstn_all. reflexivity. }
  destruct (commentary_keyword _).
  - intros H; inversion H; subst.
    repeat split; simpl; [exact Hlen | now rewrite Hs].
  - destruct (has_value _).
    + destruct (parse _) as [v|e] eqn:Ep; simpl; intros H; inversion H; subst.
      apply parse_frame in Ep as [Hsup Hd]. simpl in Hsup, Hd.
      repeat split; simpl.
      * now rewrite Hsup.
      * unfold value_modified. now rewrite Hd, Hsup.
      * unfold value_toString. now rewrite Hd, Hsup, Hs.
    + intros H; inversion H; subst.
      repeat split; simpl; [exact Hlen | now rewrite Hs].
Qed.








Lemma Buffer_toString_seven_bit (buf : bytes) :
  Forall seven_bit buf -> Buffer_toString buf = buf.
Proof.
  induction 1 as [|c r Hc _ IH]; [reflexivity|].
  unfold Buffer_toString in *. cbn [map]. now rewrite Hc, IH.
Qed.

(** *** Encoding: the record of a card built from its parts *)

Lemma substring_0_length (n : nat) (s : str) :
  length (substring 0 n s) = Nat.min n (length s).
Proof.
  unfold substring; cbv zeta. simpl Nat.min.
  rewrite Nat.max_r, Nat.sub_0_r by lia. simpl skipn. rewrite length_firstn. lia.
Qed.

Lemma padEnd_length (n : nat) (c : ascii) (s : str) :
  length (padEnd n c s) = Nat.max n (length s).
Proof. unfold padEnd. rewrite length_app, repeat_length. lia. Qed.

Lemma padStart_length (n : nat) (c : ascii) (s : str) :
  length (padStart n c s) = Nat.max n (length s).
Proof. unfold padStart. rewrite length_app, repeat_length. lia. Qed.

Lemma keyword_field_length (k : str) : length (keyword_field k) = keySize.
Proof.
  unfold keyword_field, low_bytes, wpadEnd.
  rewrite length_firstn, length_map, length_app, repeat_length. lia.
Qed.

(** The write of [#set_keyword] into the buffer that the constructor
    allocated. *)
Lemma set_keyword_write (k : str) :
  Buffer_write_bytes
    (low_bytes (wpadEnd keySize 32%N (toUpperCase (substring 0 keySize k)))) 0
    (Nat.min headerSize (0 + keySize)) (Buffer_alloc_fill headerSize SPACE)
  = keyword_field k ++ repeat SPACE (headerSize - keySize).
Proof.
  unfold Buffer_write_bytes. cbv zeta. fold (keyword_field k).
  set (d := low_bytes _).
  assert (Hd : keySize <= length d).
  { unfold d, low_bytes, wpadEnd. rewrite length_map, length_app, repeat_length. lia. }
  replace (Nat.min (Nat.min (Nat.min headerSize (0 + keySize)) (length d))
             (length (Buffer_alloc_fill headerSize SPACE) - 0)) with keySize.
  2:{ unfold Buffer_alloc_fill. rewrite repeat_length.
      change (Nat.min headerSize (0 + keySize)) with keySize.
      change (headerSize - 0) with headerSize. unfold keySize, headerSize in *. lia. }
  reflexivity.
Qed.

Lemma Buffer_write_bytes_span (d : str) (len : nat) (p old q : bytes) :
  length old = length d -> length d <= len ->
  Buffer_write_bytes d (length p) len (p ++ old ++ q) = p ++ d ++ q.
Proof.
  intros Ho Hl. unfold Buffer_write_bytes; cbv zeta.
  rewrite !length_app.
  replace (Nat.min (Nat.min len (length d))
             (length p + (length old + length q) - length p)) with (length d) by lia.
  rewrite firstn_app, firstn_all, Nat.sub_diag, firstn_all. simpl firstn.
  rewrite app_nil_r. do 2 f_equal. rewrite (app_assoc p old q).
  apply skipn_prefix. rewrite length_app; lia.
Qed.

Lemma card_text_length (sv : str) (u c : option str) :
  length (card_text sv u c) = headerSize - keySize.
Proof.
  unfold card_text; cbv zeta. rewrite substring_0_length, padEnd_length. lia.
Qed.

Lemma card_text_eq (sv : str) (u c : option str) :
  card_text sv u c =
  substring 0 (headerSize - keySize)
    (padEnd (headerSize - keySize) SPACE ("= " ++ sv ++ commentary u c)).
Proof.
  unfold card_text, commentary; cbv zeta.
  destruct u as [u|], c as [c|]; cbn [list_ascii_of_string];
    repeat rewrite <- app_assoc; cbn [app]; rewrite ?app_nil_r; reflexivity.
Qed.

Lemma card_text_fits (sv : str) (u c : option str) :
  2 + length sv + length (commentary u c) <= headerSize - keySize ->
  card_text sv u c =
  ("= " ++ sv ++ commentary u c)
  ++ repeat SPACE (headerSize - keySize - (2 + length sv + length (commentary u c))).
Proof.
  intros Hfit. rewrite card_text_eq. unfold padEnd.
  assert (Hl : length ("= " ++ sv ++ commentary u c)
               = 2 + length sv + length (commentary u c)).
  { rewrite !length_app. reflexivity. }
  rewrite Hl.
  apply substring_whole. rewrite length_app, repeat_length, Hl. lia.
Qed.

Lemma Header_value_built (k : str) (v : jsval) (sv : str) (u c : option str) :
  format_value v = Some sv ->
  Header_value (AString k) v (opt_arg u) (opt_arg c) = Ok (HValue (built_card k v sv u c)).
Proof.
  intros Hf. unfold Header_value, new_ValueHeader, new_RawHeader.
  unfold set_keyword, _write, Buffer_write.
  cbn [buffer_ modified_]. rewrite set_keyword_write.
  change ((length (Buffer_alloc_fill headerSize SPACE) <? 0)
          || (length (Buffer_alloc_fill headerSize SPACE)
              <? Nat.min headerSize (0 + keySize))) with false.
  cbv iota. cbn [bind app].
  unfold set_value, update_svalue. cbn [value_ with_value]. rewrite Hf.
  cbn [bind]. destruct u as [u|], c as [c|]; reflexivity.
Qed.

Lemma update_write (k : str) (sv : str) (u c : option str) :
  Buffer_write_bytes (card_text sv u c) keySize
    (Nat.min headerSize (keySize + (headerSize - keySize)))
    (keyword_field k ++ repeat SPACE (headerSize - keySize))
  = keyword_field k ++ card_text sv u c.
Proof.
  pose proof (Buffer_write_bytes_span (card_text sv u c)
                (Nat.min headerSize (keySize + (headerSize - keySize)))
                (keyword_field k) (repeat SPACE (headerSize - keySize)) []) as H.
  rewrite keyword_field_length, !app_nil_r in H. apply H.
  - now rewrite repeat_length, card_text_length.
  - rewrite card_text_length. vm_compute. lia.
Qed.

Lemma toString_built (k : str) (v : jsval) (sv : str) (u c : option str) :
  format_value v = Some sv ->
  snd (toString (HValue (built_card k v sv u c))) =
  Ok (Buffer_toString (keyword_field k ++ card_text sv u c)).
Proof.
  intros Hf. cbn [toString]. unfold value_toString. cbn [dirty_ built_card].
  unfold update, update_svalue. cbn [value_ built_card]. rewrite Hf.
  cbn [svalue_ with_svalue with_dirty units_ comment_ super built_card].
  unfold _write, Buffer_write. cbn [buffer_ modified_].
  rewrite update_write.
  rewrite length_app, keyword_field_length, repeat_length.
  match goal with |- context [if ?c then Throw RangeError else _] =>
    change c with false end.
  cbv iota. cbn [snd with_super with_dirty super].
  unfold raw_toString, raw_substring, subarray. cbn [buffer_ skipn].
  rewrite firstn_all2; [reflexivity|].
  rewrite length_app, keyword_field_length, card_text_length. vm_compute; lia.
Qed.

(** *** Decoding the commentary that [#update] wrote *)

Lemma trimStart_cons_white (c : ascii) (r : str) :
  is_white c = true -> trimStart (c :: r) = trimStart r.
Proof. intros H. simpl. now rewrite H. Qed.

Lemma trimStart_cons_nonwhite (c : ascii) (r : str) :
  is_white c = false -> trimStart (c :: r) = c :: r.
Proof. intros H. simpl. now rewrite H. Qed.

Lemma trimEnd_comment (p c0 : str) (x : ascii) (m : nat) :
  is_white x = false -> trimEnd c0 = c0 ->
  trimEnd ((p ++ [x]) ++ " " ++ c0 ++ repeat SPACE m) = (p ++ [x]) ++ after_trim c0.
Proof.
  intros Hx Hc. destruct c0 as [|y c'].
  - cbn [app after_trim list_ascii_of_string]. rewrite app_nil_r.
    change (" "%char :: repeat SPACE m) with (repeat SPACE (S m)).
    rewrite trimEnd_app_white by apply all_white_spaces.
    now apply trimEnd_snoc.
  - cbn [after_trim].
    replace ((p ++ [x]) ++ " " ++ (y :: c') ++ repeat SPACE m)
      with ((((p ++ [x]) ++ " ") ++ y :: c') ++ repeat SPACE m)
      by now rewrite <- !app_assoc.
    rewrite trimEnd_app_white by apply all_white_spaces.
    rewrite trimEnd_fixed_app; [now rewrite <- !app_assoc | exact Hc | discriminate].
Qed.

Lemma trimStart_after_trim (c0 : str) :
  trimStart c0 = c0 -> trimStart (after_trim c0) = c0.
Proof.
  destruct c0 as [|y c']; [reflexivity|]. intros H. cbn [after_trim app list_ascii_of_string].
  rewrite trimStart_cons_white by reflexivity. exact H.
Qed.

Lemma parse_comment_commentary (u c : option str) (m : nat) (this : ValueHeader) :
  encodable_units u -> encodable_comment u c ->
  exists v, parse_comment (commentary u c ++ repeat SPACE m) this = Ok v /\
            units_ v = u /\ comment_ v = decoded_comment u c /\
            value_ v = value_ this.
Proof.
  intros Hu Hc. unfold parse_comment, trim.
  destruct u as [u|].
  - (* units given *)
    destruct Hu as (Hne & _ & Hnotin).
    set (c0 := match c with Some c => c | None => [] end).
    assert (Hc0 : trimStart c0 = c0 /\ trimEnd c0 = c0).
    { destruct c as [c|]; [destruct Hc as (_ & H1 & H2 & _); now split | now split]. }
    assert (Hd : decoded_comment (Some u) c = Some c0) by now destruct c.
    assert (Hin : commentary (Some u) c ++ repeat SPACE m
                  = " "%char :: (["/"%char; " "%char; "["%char] ++ u ++ ["]"%char])
                    ++ " " ++ c0 ++ repeat SPACE m).
    { unfold commentary, c0. destruct c as [c|]; cbn [list_ascii_of_string app];
        repeat (rewrite <- app_assoc; cbn [app]); reflexivity. }
    rewrite Hin. rewrite trimStart_cons_white by reflexivity.
    rewrite trimStart_fixed_app by (cbn [app]; (reflexivity || discriminate)).
    rewrite (app_assoc _ u), (trimEnd_comment _ c0 "]"%char m) by (reflexivity || apply Hc0).
    rewrite <- (app_assoc _ u). cbn [app list_ascii_of_string].
    rewrite startsWith_head. cbn [substring_from skipn].
    rewrite trimStart_cons_white by reflexivity.
    rewrite trimStart_cons_nonwhite by reflexivity.
    rewrite startsWith_head.
    unfold indexOf. cbn [skipn]. rewrite <- app_assoc. cbn [app].
    rewrite find_char_app_notin by exact Hnotin.
    destruct u as [|x u']; [congruence|].
    change (1 <? 1 + length (x :: u')) with true. cbv iota.
    eexists; split; [reflexivity|]. cbn [units_ comment_ value_ with_units with_comment].
    repeat split.
    + f_equal. apply (substring_middle 1 (1 + length (x :: u')) ["["%char]); reflexivity.
    + rewrite Hd. f_equal. unfold substring_from.
      change ("["%char :: (x :: u') ++ "]"%char :: after_trim c0)
        with (("["%char :: x :: u') ++ "]"%char :: after_trim c0).
      replace (("["%char :: x :: u') ++ "]"%char :: after_trim c0)
        with ((("["%char :: x :: u') ++ ["]"%char]) ++ after_trim c0)
        by now rewrite <- app_assoc.
      rewrite skipn_prefix by (rewrite length_app; cbn [length]; lia).
      apply trimStart_after_trim, Hc0.
  - destruct c as [c|].
    + (* a comment without units *)
      destruct Hc as (_ & Hs & He & Hbr). specialize (Hbr eq_refl).
      assert (Hin : commentary None (Some c) ++ repeat SPACE m
                    = " "%char :: ([] ++ ["/"%char]) ++ " " ++ c ++ repeat SPACE m).
      { unfold commentary. cbn [list_ascii_of_string app].
        repeat (rewrite <- app_assoc; cbn [app]); reflexivity. }
      rewrite Hin. rewrite trimStart_cons_white by reflexivity.
      rewrite trimStart_fixed_app by (cbn [app]; (reflexivity || discriminate)).
      rewrite (trimEnd_comment [] c "/"%char m) by (reflexivity || exact He).
      cbn [app list_ascii_of_string].
      rewrite startsWith_head. cbn [substring_from skipn].
      rewrite (trimStart_after_trim c Hs).
      assert (Hb : startsWith ["["%char] c = false) by exact Hbr.
      rewrite Hb. rewrite Hs.
      eexists; split; [reflexivity|]. repeat split.
    + (* no commentary *)
      cbn [commentary app list_ascii_of_string].
      rewrite (trimStart_white _ (all_white_spaces m)).
      eexists; split; [reflexivity|]. repeat split.
Qed.

(** *** Decoding the value field that [#update_svalue] wrote *)

Lemma parse_comment_skip_space (s : str) (this : ValueHeader) :
  parse_comment (SPACE :: s) this = parse_comment s this.
Proof.
  unfold parse_comment, trim. now rewrite trimStart_cons_white by reflexivity.
Qed.

Lemma parse_comment_blank (m : nat) (this : ValueHeader) :
  parse_comment (repeat SPACE m) this = parse_comment [] this.
Proof.
  unfold parse_comment, trim. now rewrite (trimStart_white _ (all_white_spaces m)).
Qed.

Lemma parse_plain (r : RawHeader) (t tail : str) :
  raw_substring (keySize + 2) headerSize r = padStart valueSize SPACE t ++ tail ->
  raw_substring 30 headerSize r = tail ->
  t <> [] -> length t <= valueSize -> trimStart t = t ->
  startsWith [QUOTE] t = false ->
  parse (fresh_value r) = parse_comment tail (with_value (plain_value t) (fresh_value r)).
Proof.
  intros Hcontent Htail Hne Hlen Hts Hq.
  unfold parse. cbn [super fresh_value]. rewrite Hcontent.
  unfold padStart at 1. rewrite <- app_assoc.
  rewrite trimStart_app_white by apply all_white_spaces.
  rewrite trimStart_fixed_app by assumption.
  rewrite startsWith_app by (destruct t; [congruence | simpl; lia]).
  rewrite Hq.
  rewrite substring_prefix by (rewrite padStart_length; lia).
  unfold padStart. rewrite trimStart_app_white by apply all_white_spaces.
  rewrite Hts. unfold plain_value.
  destruct (str_eqb t "T"); [|destruct (str_eqb t "F")];
    cbn [super with_value fresh_value]; now rewrite Htail.
Qed.

Lemma scan_string_stop (rest : str) (offset : nat) :
  rest = [] \/ (exists rest', rest = SLASH :: rest') ->
  scan_string rest false offset = (false, offset).
Proof. intros [->|[rest' ->]]; reflexivity. Qed.

Lemma endsWith_snoc (p : str) (c : ascii) : endsWith [c] (p ++ [c]) = true.
Proof.
  unfold endsWith. rewrite rev_app_distr. simpl. now rewrite Ascii.eqb_refl.
Qed.

Lemma parse_quoted (r : RawHeader) (a : str) (w : nat) (rest : str) :
  let field := QUOTE :: padEnd 8 SPACE (double_quotes a) ++ [QUOTE] in
  raw_substring (keySize + 2) headerSize r = field ++ repeat SPACE w ++ rest ->
  rest = [] \/ (exists rest', rest = SLASH :: rest') ->
  trimEnd a = a ->
  parse (fresh_value r) = parse_comment rest (with_value (JStr a) (fresh_value r)).
Proof.
  intros field Hcontent Hrest Ha.
  unfold parse. cbn [super fresh_value]. rewrite Hcontent.
  unfold field at 1. cbn [app].
  rewrite trimStart_cons_nonwhite by reflexivity. rewrite startsWith_head.
  unfold parse_string. cbn [super fresh_value].
  change 10 with (keySize + 2). rewrite Hcontent.
  (* the scan *)
  assert (Hscan : scan_string (field ++ repeat SPACE w ++ rest) false 0
                  = (false, length field + w)).
  { unfold field, padEnd. cbn [app scan_string].
    change (Ascii.eqb QUOTE QUOTE) with true. cbv iota. cbn [negb].
    rewrite <- !app_assoc. rewrite scan_string_double_quotes, scan_string_spaces.
    cbn [app scan_string]. change (Ascii.eqb QUOTE QUOTE) with true. cbv iota.
    cbn [negb]. rewrite scan_string_spaces, scan_string_stop by exact Hrest.
    f_equal. cbn [length]. rewrite !length_app, repeat_length. cbn [length]. lia. }
  rewrite Hscan.
  (* the value between the quotes *)
  rewrite (app_assoc field).
  rewrite substring_prefix by (now rewrite length_app, repeat_length).
  rewrite trimEnd_app_white by apply all_white_spaces.
  assert (Hv : trimEnd field = field).
  { unfold field. change (QUOTE :: padEnd 8 SPACE (double_quotes a) ++ [QUOTE])
      with ((QUOTE :: padEnd 8 SPACE (double_quotes a)) ++ [QUOTE]).
    now apply trimEnd_snoc. }
  rewrite Hv.
  assert (Hs : startsWith [QUOTE] field = true) by apply startsWith_head.
  assert (He : endsWith [QUOTE] field = true).
  { unfold field. change (QUOTE :: padEnd 8 SPACE (double_quotes a) ++ [QUOTE])
      with ((QUOTE :: padEnd 8 SPACE (double_quotes a)) ++ [QUOTE]).
    apply endsWith_snoc. }
  rewrite Hs, He. cbn [negb orb].
  unfold substring_from. rewrite skipn_prefix by (now rewrite length_app, repeat_length).
  assert (Hin : substring 1 (length field - 1) field = padEnd 8 SPACE (double_quotes a)).
  { unfold field.
    apply (substring_middle 1 _ [QUOTE] (padEnd 8 SPACE (double_quotes a)) [QUOTE]);
      [reflexivity|]. cbn [length]. rewrite length_app. cbn [length]. lia. }
  rewrite Hin. unfold padEnd. rewrite undouble_double_app, undouble_spaces.
  rewrite trimEnd_app_white by apply all_white_spaces. now rewrite Ha.
Qed.

Lemma raw_substring_span (a b : nat) (p s t : bytes) :
  a = length p -> b = length p + length s -> Forall seven_bit s ->
  raw_substring a b (raw_of_buffer (p ++ s ++ t)) = s.
Proof.
  intros Ha Hb H7. unfold raw_substring, raw_of_buffer. cbn [buffer_].
  rewrite (subarray_middle a b p s t Ha Hb). now apply seven_bit_map.
Qed.

(** *** The record of a built card, decoded *)

Lemma from_buffer_record (kw body : str) :
  length kw = keySize -> Forall seven_bit kw ->
  length body = headerSize - (keySize + 2) -> Forall seven_bit body ->
  commentary_keyword (trimEnd kw) = false ->
  let r := raw_of_buffer (kw ++ "= " ++ body) in
  from_buffer (kw ++ "= " ++ body) = (v <- parse (fresh_value r) ;; Ok (HValue v)) /\
  raw_substring (keySize + 2) headerSize r = body.
Proof.
  intros Hk Hk7 Hb Hb7 Hc r.
  assert (Hkw : raw_keyword r = trimEnd kw).
  { unfold raw_keyword, r. f_equal.
    apply (raw_substring_span 0 keySize [] kw);
      [reflexivity | now rewrite Hk | exact Hk7]. }
  assert (Hv : has_value r = true).
  { unfold has_value, r.
    rewrite (raw_substring_span keySize (keySize + 2) kw "= " body);
      [reflexivity | now rewrite Hk | now rewrite Hk | repeat constructor]. }
  split.
  - rewrite from_buffer_eq. fold r. now rewrite Hkw, Hc, Hv.
  - unfold r.
    replace (kw ++ "= " ++ body) with ((kw ++ "= ") ++ body ++ [])
      by (now rewrite app_nil_r, <- app_assoc).
    apply raw_substring_span;
      [now rewrite length_app, Hk | now rewrite length_app, Hk, Hb | exact Hb7].
Qed.

Lemma raw_substring_commentary (kw sv tail : str) :
  length kw = keySize -> length sv = valueSize ->
  length tail = headerSize - 30 -> Forall seven_bit tail ->
  raw_substring 30 headerSize (raw_of_buffer (kw ++ "= " ++ sv ++ tail)) = tail.
Proof.
  intros Hk Hs Ht H7.
  replace (kw ++ "= " ++ sv ++ tail) with ((kw ++ "= " ++ sv) ++ tail ++ [])
    by (rewrite app_nil_r, <- !app_assoc; reflexivity).
  apply raw_substring_span;
    [now rewrite !length_app, Hk, Hs | now rewrite !length_app, Hk, Hs, Ht | exact H7].
Qed.

Lemma seven_bit_commentary (u c : option str) :
  encodable_units u -> encodable_comment u c -> Forall seven_bit (commentary u c).
Proof.
  intros Hu Hc. unfold commentary.
  apply Forall_app; split; [|apply Forall_app; split].
  - destruct u, c; repeat constructor.
  - destruct u as [u|]; [|constructor]. destruct Hu as (_ & H7 & _).
    cbn [list_ascii_of_string app]. constructor; [reflexivity|].
    apply Forall_app; split; [exact H7 | repeat constructor].
  - destruct c as [c|]; [apply Hc | constructor].
Qed.

Lemma seven_bit_format_value (v : jsval) (sv : str) :
  encodable_value v -> format_value v = Some sv -> Forall seven_bit sv.
Proof.
  destruct v as [|b|x|a|]; simpl; try contradiction.
  - intros _ H; inversion H. destruct b; vm_compute; repeat constructor.
  - intros (_ & _ & H7 & _) H; inversion H. unfold padStart.
    apply Forall_app; split; [apply seven_bit_spaces | exact H7].
  - intros (H7 & _) H; inversion H. unfold padEnd.
    apply Forall_app; split; [|apply seven_bit_spaces].
    constructor; [reflexivity|].
    apply Forall_app; split; [|repeat constructor].
    apply Forall_app; split; [|apply seven_bit_spaces].
    now apply seven_bit_double_quotes.
Qed.

Lemma commentary_shape (u c : option str) :
  commentary u c = [] \/ exists x, commentary u c = SPACE :: SLASH :: x.
Proof.
  unfold commentary. destruct u as [u|], c as [c|]; cbn [list_ascii_of_string app].
  - right; eexists; reflexivity.
  - right; eexists; reflexivity.
  - right; eexists; reflexivity.
  - left; reflexivity.
Qed.

Lemma parse_quoted_commentary (r : RawHeader) (a : str) (w n : nat) (u c : option str) :
  let field := QUOTE :: padEnd 8 SPACE (double_quotes a) ++ [QUOTE] in
  raw_substring (keySize + 2) headerSize r
    = field ++ repeat SPACE w ++ commentary u c ++ repeat SPACE n ->
  trimEnd a = a ->
  parse (fresh_value r)
    = parse_comment (commentary u c ++ repeat SPACE n) (with_value (JStr a) (fresh_value r)).
Proof.
  intros field Hcontent Ha.
  destruct (commentary_shape u c) as [E|[x E]]; rewrite E in *.
  - cbn [app] in *. rewrite parse_comment_blank.
    apply (parse_quoted r a (w + n) []); [|now left|exact Ha].
    rewrite Hcontent. fold field. now rewrite app_nil_r, repeat_app.
  - rewrite <- app_comm_cons, parse_comment_skip_space.
    apply (parse_quoted r a (w + 1) ((SLASH :: x) ++ repeat SPACE n));
      [|right; eexists; reflexivity|exact Ha].
    rewrite Hcontent. fold field. rewrite repeat_app, <- !app_assoc. reflexivity.
Qed.

(** The value field of a supported value is decoded to that value, and the
    commentary is handed to [#parse_comment]. *)
Lemma parse_built (r : RawHeader) (v : jsval) (sv : str) (u c : option str) (n : nat) :
  encodable_value v -> format_value v = Some sv ->
  raw_substring (keySize + 2) headerSize r = sv ++ commentary u c ++ repeat SPACE n ->
  (length sv = valueSize ->
   raw_substring 30 headerSize r = commentary u c ++ repeat SPACE n) ->
  parse (fresh_value r)
    = parse_comment (commentary u c ++ repeat SPACE n) (with_value v (fresh_value r)).
Proof.
  intros Hv Hf Hcontent Htail.
  destruct v as [|b|x|a|]; simpl in Hv; try contradiction; cbn [format_value] in Hf;
    inversion Hf as [Hsv]; clear Hf.
  - (* a boolean *)
    set (t := (if b then "T" else "F") : str) in *.
    assert (Ht : plain_value t = JBool b) by (now destruct b).
    rewrite <- Ht.
    apply parse_plain.
    + now rewrite Hcontent, <- Hsv.
    + apply Htail. rewrite <- Hsv. now destruct b.
    + now destruct b.
    + destruct b; vm_compute; lia.
    + now destruct b.
    + now destruct b.
  - (* a number *)
    destruct Hv as (Hne & Hlen & _ & Hts & Hq & HT & HF & Hnum).
    assert (Ht : plain_value (number_toString x) = JNum x).
    { unfold plain_value.
      destruct (str_eqb (number_toString x) "T") eqn:E1;
        [apply str_eqb_eq in E1; contradiction|].
      destruct (str_eqb (number_toString x) "F") eqn:E2;
        [apply str_eqb_eq in E2; contradiction|].
      now rewrite Hnum. }
    rewrite <- Ht.
    apply parse_plain; auto.
    + now rewrite Hcontent, <- Hsv.
    + apply Htail. rewrite <- Hsv, padStart_length. unfold valueSize in *. lia.
  - (* a text *)
    destruct Hv as (_ & Ha).
    apply (parse_quoted_commentary r a
             (valueSize - length (QUOTE :: padEnd 8 SPACE (double_quotes a) ++ [QUOTE]))).
    + rewrite Hcontent, <- Hsv. unfold padEnd at 1.
      now rewrite <- !app_assoc.
    + exact Ha.
Qed.

Lemma built_keyword (k : str) (v : jsval) (sv : str) (u c : option str) :
  keyword (HValue (built_card k v sv u c)) = trimEnd (Buffer_toString (keyword_field k)).
Proof.
  unfold keyword, raw_of, raw_keyword, raw_substring, subarray.
  cbn [super built_card buffer_ skipn].
  rewrite Nat.sub_0_r, <- (keyword_field_length k).
  rewrite firstn_app, firstn_all, Nat.sub_diag. cbn [firstn]. now rewrite app_nil_r.
Qed.

(** C1, as the code has it.  A Value card built from a keyword text such
    that the keyword the card reports is neither COMMENT nor HISTORY, an
    encodable value, encodable units and an encodable comment, whose text
    fits the record: decoding the record that the card renders gives a Value
    card with the same value and units, and with the same comment -- the
    empty text where units were given without a comment. *)
Theorem value_card_round_trip (k : str) (v : jsval) (u c : option str) (h : Header) :
  Header_value (AString k) v (opt_arg u) (opt_arg c) = Ok h ->
  commentary_keyword (keyword h) = false ->
  encodable_value v -> encodable_units u -> encodable_comment u c -> fits v u c ->
  exists (s : str) (d : ValueHeader),
    snd (toString h) = Ok s /\ length s = headerSize /\
    from_buffer s = Ok (HValue d) /\
    get_value d = v /\ get_units d = u /\ get_comment d = decoded_comment u c.
Proof.
  intros Hbuild Hkw Hv Hu Hc Hfit.
  unfold fits in Hfit. destruct (format_value v) as [sv|] eqn:Hf; [|contradiction].
  rewrite (Header_value_built k v sv u c Hf) in Hbuild.
  inversion Hbuild; subst h; clear Hbuild.
  rewrite built_keyword in Hkw.
  set (kw := Buffer_toString (keyword_field k)) in *.
  set (n := headerSize - keySize - (2 + length sv + length (commentary u c))).
  set (body := sv ++ commentary u c ++ repeat SPACE n).
  assert (Hb7 : Forall seven_bit body).
  { unfold body. apply Forall_app; split; [|apply Forall_app; split].
    - now apply (seven_bit_format_value v).
    - now apply seven_bit_commentary.
    - apply seven_bit_spaces. }
  assert (Hblen : length body = headerSize - (keySize + 2)).
  { unfold body, n. rewrite !length_app, repeat_length.
    unfold headerSize, keySize in *. lia. }
  assert (Hklen : length kw = keySize).
  { unfold kw, Buffer_toString. now rewrite length_map, keyword_field_length. }
  assert (Hs : snd (toString (HValue (built_card k v sv u c))) = Ok (kw ++ "= " ++ body)).
  { rewrite toString_built by exact Hf. f_equal.
    rewrite card_text_fits by exact Hfit. fold n.
    unfold Buffer_toString. rewrite map_app. fold (Buffer_toString (keyword_field k)).
    fold kw. f_equal. rewrite <- !app_assoc. fold body.
    apply seven_bit_map. constructor; [reflexivity|]. constructor; [reflexivity|].
    exact Hb7. }
  assert (Hk7 : Forall seven_bit kw).
  { unfold kw, Buffer_toString. apply Forall_forall. intros x Hin.
    apply in_map_iff in Hin as (y & <- & _). apply clear7_seven_bit. }
  destruct (from_buffer_record kw body Hklen Hk7 Hblen Hb7 Hkw) as [Hfrom Hcontent].
  set (r := raw_of_buffer (kw ++ "= " ++ body)) in *.
  assert (Hparse : parse (fresh_value r)
                   = parse_comment (commentary u c ++ repeat SPACE n)
                       (with_value v (fresh_value r))).
  { apply (parse_built r v sv u c n Hv Hf Hcontent).
    intros Hsv. unfold r, body.
    apply raw_substring_commentary; auto.
    - unfold body in Hblen. rewrite length_app, Hsv in Hblen.
      unfold headerSize, keySize, valueSize in *. lia.
    - unfold body in Hb7. now apply Forall_app in Hb7 as [_ Hb7]. }
  destruct (parse_comment_commentary u c n (with_value v (fresh_value r)) Hu Hc)
    as (d & Hd & Hdu & Hdc & Hdv).
  exists (kw ++ "= " ++ body), d. repeat split; auto.
  - rewrite !length_app, Hklen, Hblen. reflexivity.
  - rewrite Hfrom, Hparse, Hd. reflexivity.
Qed.


(** C5, as the code has it.  [from_buffer] decodes the card
    [COMMENT = 'it''s ok' / [m] distance] as a Comment card, the keyword
    COMMENT being looked at before the value marker: its text is the 72 bytes
    behind the keyword.  The value parser on the same record -- a ValueHeader
    constructed on the buffer -- and [from_buffer] on the same text under the
    keyword DIST give the value [it's ok], the units [m] and the comment
    [distance]: the doubled apostrophe is one apostrophe of the value. *)
Theorem scenario_card_decoding :
  (exists r, from_buffer Examples.scenario_card = Ok (HComment r) /\
             comment_text r = padEnd 72 SPACE "= 'it''s ok' / [m] distance") /\
  (exists d, new_ValueHeader (ABuffer Examples.scenario_card)
               JUndefined JUndefined JUndefined = Ok d /\
             get_value d = JStr "it's ok" /\ get_units d = Some (list_ascii_of_string "m") /\
             get_comment d = Some (list_ascii_of_string "distance")) /\
  (exists d, from_buffer Examples.scenario_card_DIST = Ok (HValue d) /\
             get_value d = JStr "it's ok" /\ get_units d = Some (list_ascii_of_string "m") /\
             get_comment d = Some (list_ascii_of_string "distance")).
Proof.
  repeat split; eexists; (split; [vm_compute; reflexivity|]); repeat split.
Qed.

End CodecProperties.

(** ** The file: validation of the size, and the storage handle *)

#[local] Arguments blockSize : simpl never.
#[local] Arguments headerSize : simpl never.

Section FileProperties.

Context {host : NumberHost}.

Lemma parse_comment_throws (s : str) (this : ValueHeader) (e : exn) :
  parse_comment s this = Throw e -> e = MalformedUnits.
Proof.
  unfold parse_comment.
  destruct (startsWith "/" _); [|discriminate].
  destruct (startsWith "[" _); [|discriminate].
  destruct (indexOf _ _ _); [destruct (1 <? _); [discriminate|]|]; congruence.
Qed.

Lemma parse_throws (this : ValueHeader) (e : exn) :
  parse this = Throw e -> e = MalformedUnits \/ e = StringValueParserError.
Proof.
  unfold parse. destruct (startsWith [QUOTE] _).
  - unfold parse_string. destruct (scan_string _ _ _) as [inside offset].
    destruct (inside || _ || _).
    + intros H; inversion H; auto.
    + intros H; apply parse_comment_throws in H; auto.
  - intros H; apply parse_comment_throws in H; auto.
Qed.

Lemma from_buffer_throws (buf : bytes) (e : exn) :
  from_buffer buf = Throw e -> e = MalformedUnits \/ e = StringValueParserError.
Proof.
  rewrite from_buffer_eq.
  destruct (commentary_keyword _); [discriminate|].
  destruct (has_value _); [|discriminate].
  destruct (parse _) as [v|e'] eqn:Ep; simpl; [discriminate|].
  intros H; inversion H; subst. now apply parse_throws in Ep.
Qed.

Lemma read_cards_throws (offsets : list nat) (buf : bytes) (hs : list Header) (e : exn) :
  read_cards offsets buf hs = Throw e -> validation_error e = false.
Proof.
  revert hs; induction offsets as [|j offs IH]; intros hs; simpl; [discriminate|].
  destruct (from_buffer _) as [h|e'] eqn:Ef; simpl.
  - destruct (str_eqb _ _); [discriminate | apply IH].
  - intros H; inversion H; subst.
    apply from_buffer_throws in Ef as [-> | ->]; reflexivity.
Qed.

Lemma contents_throws (fd : nat) (w : World) (e : exn) :
  contents fd w = Throw e -> e = BadDescriptor.
Proof.
  unfold contents. destruct (lookup_fd _ _); [destruct (lookup_path _ _)|]; congruence.
Qed.

Lemma block_throws (w : World) (self : FileCore) (n : number) (e : exn) :
  block w self n = Throw e -> validation_error e = false.
Proof.
  unfold block. destruct (as_integer n) as [i|]; [|intros H; inversion H; reflexivity].
  destruct ((i <? 0)%Z || _); [intros H; inversion H; reflexivity|].
  destruct (readSync _ _ _ _) as [[buf count]|e'] eqn:Er; cbn [bind].
  - destruct (count =? blockSize); [discriminate|].
    destruct (count =? 0); [discriminate|]. intros H; inversion H; reflexivity.
  - intros H; inversion H; subst. unfold readSync in Er.
    destruct (contents _ _) as [c|e'] eqn:Ec; cbn [bind] in Er; [discriminate|].
    inversion Er; subst. now apply contents_throws in Ec as ->.
Qed.

Lemma read_headers_loop_throws (fuel : nat) (w : World) (self : FileCore)
    (iter : BlockIterator) (hs : list Header) (e : exn) :
  read_headers_loop fuel w self iter hs = Throw e -> validation_error e = false.
Proof.
  revert iter hs; induction fuel as [|fuel IH]; intros iter hs; cbn [read_headers_loop].
  - intros H; inversion H; reflexivity.
  - unfold next. destruct (done iter).
    + cbn [bind]. intros H; inversion H; reflexivity.
    + destruct (block _ _ _) as [[buf|]|e'] eqn:Eb; cbn [bind].
      * destruct (read_cards _ _ _) as [[hs' ended]|e'] eqn:Ec; cbn [bind].
        -- destruct ended; [discriminate | apply IH].
        -- intros H; inversion H; subst. now apply read_cards_throws in Ec.
      * intros H; inversion H; reflexivity.
      * intros H; inversion H; subst. now apply block_throws in Eb.
Qed.

Lemma value_of_throws (h : option Header) (e : exn) :
  value_of h = Throw e -> e = TypeError.
Proof. destruct h; simpl; congruence. Qed.

Lemma naxis_loop_throws (fuel : nat) (i : Z) (bound : number) (hs : list Header)
    (size : number) (e : exn) :
  naxis_loop fuel i bound hs size = Throw e -> validation_error e = false.
Proof.
  revert i size; induction fuel as [|fuel IH]; intros i size; cbn [naxis_loop].
  - destruct (num_le _ _); [|discriminate]. intros H; inversion H; reflexivity.
  - destruct (num_le _ _); [|discriminate].
    destruct (value_of _) as [v|e'] eqn:Ev; cbn [bind]; [apply IH|].
    intros H; inversion H; subst. now apply value_of_throws in Ev as ->.
Qed.

Lemma skip_throws (c : number) (iter : BlockIterator) (e : exn) :
  snd (skip c iter) = Throw e -> validation_error e = false.
Proof.
  unfold skip. destruct (as_integer c) as [z|]; simpl.
  - destruct ((z <? 0)%Z || _); simpl; [|discriminate].
    intros H; inversion H; reflexivity.
  - intros H; inversion H; reflexivity.
Qed.

Lemma new_HDU_throws (w : World) (self : FileCore) (iter : BlockIterator) (e : exn) :
  new_HDU w self iter = Throw e -> validation_error e = false.
Proof.
  unfold new_HDU, read_headers.
  destruct (read_headers_loop _ _ _ _ _) as [[hs it1]|e'] eqn:Er; cbn [bind].
  2:{ intros H; inversion H; subst. now apply read_headers_loop_throws in Er. }
  destruct (value_of (find_header hs (JStr "NAXIS"))) as [nv|e'] eqn:En; cbn [bind].
  2:{ intros H; inversion H; subst. now apply value_of_throws in En as ->. }
  destruct (num_gt _ _); [|discriminate].
  destruct (value_of (find_header hs (JStr "BITPIX"))) as [bv|e'] eqn:Eb; cbn [bind].
  2:{ intros H; inversion H; subst. now apply value_of_throws in Eb as ->. }
  destruct (naxis_loop _ _ _ _ _) as [size|e'] eqn:El; cbn [bind].
  2:{ intros H; inversion H; subst. now apply naxis_loop_throws in El. }
  match goal with |- context [skip ?c ?it] =>
    pose proof (skip_throws c it) as Hs; destruct (skip c it) as [it2 [u|e']] end;
    cbn [bind snd] in *; [discriminate|].
  intros H; inversion H; subst. now apply Hs.
Qed.

Lemma read_hdus_throws (fuel : nat) (w : World) (self : FileCore)
    (iter : BlockIterator) (hdus : list HDU) (e : exn) :
  read_hdus fuel w self iter hdus = Throw e -> validation_error e = false.
Proof.
  revert iter hdus; induction fuel as [|fuel IH]; intros iter hdus; cbn [read_hdus].
  - destruct (done iter); [discriminate|]. intros H; inversion H; reflexivity.
  - destruct (done iter); [discriminate|].
    destruct (new_HDU w self iter) as [[hdu it1]|e'] eqn:Eh; cbn [bind]; [apply IH|].
    intros H; inversion H; subst. now apply new_HDU_throws in Eh.
Qed.

Lemma openSync_found (path : str) (w : World) (c : bytes) :
  lookup_path path (disk w) = Some c ->
  openSync path w =
    ({| disk := disk w; handles := (next_fd w, path) :: handles w;
        next_fd := S (next_fd w) |}, Ok (next_fd w)).
Proof. intros H. unfold openSync. now rewrite H. Qed.

Lemma fstatSync_opened (path : str) (w : World) (c : bytes) :
  lookup_path path (disk w) = Some c ->
  fstatSync_size (next_fd w)
    {| disk := disk w; handles := (next_fd w, path) :: handles w;
       next_fd := S (next_fd w) |} = Ok (length c).
Proof.
  intros H. unfold fstatSync_size, contents. simpl.
  now rewrite Nat.eqb_refl, H.
Qed.

(** C4. Opening a device of size zero, or of a size that is not a multiple
    of 2880, fails with the validation error of that case and gives no File;
    on a device whose size is a positive multiple of 2880 the constructor
    does not end in either of the two validation errors. *)
Theorem File_size_validation (path : str) (w : World) (c : bytes) :
  lookup_path path (disk w) = Some c ->
  (length c = 0 -> snd (new_File path w) = Throw EmptyFile) /\
  (length c mod blockSize <> 0 -> snd (new_File path w) = Throw IncompleteBlocks) /\
  (0 < length c -> length c mod blockSize = 0 ->
   forall e, snd (new_File path w) = Throw e -> validation_error e = false).
Proof.
  intros Hc. unfold new_File.
  rewrite (openSync_found path w c Hc). cbn [snd].
  rewrite (fstatSync_opened path w c Hc). cbn [bind].
  repeat split.
  - intros H0. now rewrite H0.
  - intros Hm. destruct (length c =? 0) eqn:E0.
    + apply Nat.eqb_eq in E0. rewrite E0 in Hm. now destruct Hm.
    + apply Nat.eqb_neq in Hm. now rewrite Hm.
  - intros Hpos Hm e.
    destruct (length c =? 0) eqn:E0; [apply Nat.eqb_eq in E0; lia|].
    apply Nat.eqb_eq in Hm. rewrite Hm. cbn [negb].
    destruct (read_hdus _ _ _ _ _) as [hdus|e'] eqn:Eh; simpl; [discriminate|].
    intros H; inversion H; subst. now apply read_hdus_throws in Eh.
Qed.

(** C7, as the code has it.  The constructor of File never releases the
    storage handle: when the open succeeds, the handle is still open on every
    exit of the constructor, normal or by an error of validation or parsing,
    and the device is otherwise as the open left it; when the open fails no
    handle was acquired. *)
Theorem File_keeps_handle_open (path : str) (w : World) :
  match openSync path w with
  | (w1, Ok fd) => fst (new_File path w) = w1 /\ is_open fd (fst (new_File path w)) = true
  | (_, Throw e) => new_File path w = (w, Throw e)
  end.
Proof.
  unfold new_File, openSync.
  destruct (lookup_path path (disk w)) as [c|]; [|reflexivity].
  split; [reflexivity|]. unfold is_open. simpl. now rewrite Nat.eqb_refl.
Qed.

End FileProperties.

(** ** The HDU: reading the cards, sizing the data *)

Section HDUProperties.

Context {host : NumberHost}.

Lemma cards_per_block_eq : cards_per_block = 36.
Proof. vm_compute. reflexivity. Qed.

Lemma nth_error_seq_Some (start len i x : nat) :
  nth_error (seq start len) i = Some x -> x = start + i /\ i < len.
Proof.
  revert start i; induction len as [|len IH]; intros start i; cbn [seq].
  - destruct i; discriminate.
  - destruct i as [|i]; cbn [nth_error].
    + intros H; inversion H; lia.
    + intros H. apply IH in H. lia.
Qed.

Lemma nth_error_card_offsets (i j : nat) :
  nth_error card_offsets i = Some j -> i < cards_per_block /\ j = i * headerSize.
Proof.
  unfold card_offsets. fold cards_per_block. rewrite nth_error_map.
  destruct (nth_error (seq 0 cards_per_block) i) as [x|] eqn:E; [|discriminate].
  apply nth_error_seq_Some in E as [-> Hi]. cbn [option_map].
  intros H; inversion H. auto.
Qed.

Lemma card_offsets_length : length card_offsets = cards_per_block.
Proof. unfold card_offsets. now rewrite length_map, length_seq. Qed.

(** One block of cards: what [read_cards] pushes are the decoded slices at
    the first offsets, and END is met on the last one only. *)
Lemma read_cards_spec (offsets : list nat) (buf : bytes) (hs0 hs : list Header)
    (ended : bool) :
  read_cards offsets buf hs0 = Ok (hs, ended) ->
  exists new,
    hs = hs0 ++ new /\
    (forall i h, nth_error new i = Some h ->
       exists j, nth_error offsets i = Some j /\
                 from_buffer (subarray j (j + headerSize) buf) = Ok h /\
                 (keyword h = "END" <-> ended = true /\ S i = length new)) /\
    (ended = false -> length new = length offsets) /\
    (ended = true -> 1 <= length new <= length offsets).
Proof.
  revert hs0; induction offsets as [|j offs IH]; intros hs0; cbn [read_cards].
  - intros H; inversion H; subst. exists []. rewrite app_nil_r.
    split; [reflexivity|]. split; [intros [|i] h Hn; discriminate|].
    split; [reflexivity | discriminate].
  - destruct (from_buffer _) as [h0|e] eqn:Ef; cbn [bind]; [|discriminate].
    destruct (str_eqb (keyword h0) "END") eqn:Ek.
    + intros H; inversion H; subst. exists [h0]. apply str_eqb_eq in Ek.
      split; [reflexivity|]. cbn [length].
      split; [|split; [discriminate | lia]].
      intros [|i] h Hn; cbn [nth_error] in Hn; [|destruct i; discriminate].
      inversion Hn; subst h. exists j.
      split; [reflexivity|]. split; [exact Ef|].
      split; [intros _; split; reflexivity | intros _; exact Ek].
    + intros H. apply IH in H as (new & -> & Hnew & Hf & Ht).
      apply str_eqb_neq in Ek.
      exists (h0 :: new). rewrite <- app_assoc. split; [reflexivity|].
      split; [|cbn [length]; split; intros E; [rewrite (Hf E) | specialize (Ht E)]; lia].
      intros [|i] h Hn; cbn [nth_error] in Hn.
      * inversion Hn; subst h. exists j.
        split; [reflexivity|]. split; [exact Ef|].
        split; [intros E; contradiction|].
        intros [E1 E2]. specialize (Ht E1). cbn [length] in E2. lia.
      * destruct (Hnew i h Hn) as (j' & Hj & Hd & Hiff).
        exists j'. split; [exact Hj|]. split; [exact Hd|]. cbn [length].
        split.
        -- intros E. apply Hiff in E as [E1 E2]. split; [exact E1 | lia].
        -- intros [E1 E2]. apply Hiff. split; [exact E1 | lia].
Qed.

Lemma slot_index (j c i : nat) :
  i < c -> (j * c + i) / c = j /\ (j * c + i) mod c = i.
Proof.
  intros Hi. split.
  - symmetry. apply (Nat.div_unique _ c j i); lia.
  - symmetry. apply (Nat.mod_unique _ c j i); lia.
Qed.

Lemma read_headers_loop_spec (fuel : nat) (w : World) (self : FileCore) (start : Z) :
  forall (iter : BlockIterator) (hs0 : list Header) (j : nat)
         (hs : list Header) (iter' : BlockIterator),
  read_headers_loop fuel w self iter hs0 = Ok (hs, iter') ->
  n_ iter = (start + Z.of_nat j)%Z ->
  headers_so_far w self start j hs0 ->
  hs <> [] /\
  (forall k h, nth_error hs k = Some h ->
     decodes_slot w self start k h /\ (keyword h = "END" <-> S k = length hs)) /\
  n_ iter' = (start + Z.of_nat ((length hs - 1) / cards_per_block) + 1)%Z /\
  end_ iter' = end_ iter.
Proof.
  induction fuel as [|fuel IH]; intros iter hs0 j hs iter'; cbn [read_headers_loop];
    [discriminate|].
  unfold next. destruct (done iter); cbn [bind]; [discriminate|].
  destruct (block w self (num_of_Z (n_ iter))) as [[buf|]|e] eqn:Eb; cbn [bind];
    try discriminate.
  destruct (read_cards card_offsets buf hs0) as [[hs1 ended]|e] eqn:Ec; cbn [bind];
    [|discriminate].
  intros Hloop Hn [Hlen Hinv].
  destruct (read_cards_spec _ _ _ _ _ Ec) as (new & -> & Hnew & Hf & Ht).
  rewrite card_offsets_length in Hf, Ht.
  assert (Hcpb : 0 < cards_per_block) by (rewrite cards_per_block_eq; lia).
  (* every card of this block is the decoding of its slot *)
  assert (Hslots : forall i h, nth_error new i = Some h ->
            decodes_slot w self start (length hs0 + i) h /\
            (keyword h = "END" <-> ended = true /\ S i = length new)).
  { intros i h Hi. destruct (Hnew i h Hi) as (o & Ho & Hd & Hiff).
    apply nth_error_card_offsets in Ho as [Hlt ->]. split; [|exact Hiff].
    exists (subarray (i * headerSize) (i * headerSize + headerSize) buf).
    split; [|exact Hd]. unfold slot. rewrite Hlen.
    destruct (slot_index j cards_per_block i Hlt) as [-> ->].
    now rewrite <- Hn, Eb. }
  assert (Hall : forall k h, nth_error (hs0 ++ new) k = Some h ->
            decodes_slot w self start k h /\
            (keyword h = "END" <-> ended = true /\ S k = length (hs0 ++ new))).
  { intros k h Hk. rewrite length_app.
    destruct (Nat.lt_ge_cases k (length hs0)) as [Hlt|Hge].
    - rewrite nth_error_app1 in Hk by exact Hlt.
      destruct (Hinv k h Hk) as [Hd Hne]. split; [exact Hd|].
      split; [contradiction|]. intros [E1 E2]. specialize (Ht E1). lia.
    - rewrite nth_error_app2 in Hk by exact Hge.
      destruct (Hslots _ h Hk) as [Hd Hiff].
      replace (length hs0 + (k - length hs0)) with k in Hd by lia.
      split; [exact Hd|]. rewrite Hiff. split; intros [E1 E2]; (split; [exact E1 | lia]). }
  destruct ended.
  - inversion Hloop; subst. specialize (Ht eq_refl).
    split; [destruct new; [cbn [length] in Ht; lia
                          | intros E; apply app_eq_nil in E as [_ E]; discriminate]|].
    split; [|split; [|reflexivity]].
    + intros k h Hk. destruct (Hall k h Hk) as [Hd Hiff]. split; [exact Hd|].
      rewrite Hiff. tauto.
    + cbn [n_]. rewrite Hn, length_app, Hlen.
      replace (j * cards_per_block + length new - 1)
        with (j * cards_per_block + (length new - 1)) by lia.
      destruct (slot_index j cards_per_block (length new - 1)) as [-> _]; lia.
  - specialize (Hf eq_refl).
    apply (IH _ _ (S j)) in Hloop.
    + cbn [end_] in Hloop. exact Hloop.
    + cbn [n_]. rewrite Hn. lia.
    + split.
      * rewrite length_app, Hlen, Hf. lia.
      * intros k h Hk. destruct (Hall k h Hk) as [Hd Hiff]. split; [exact Hd|].
        intros E. apply Hiff in E as [E _]. discriminate.
Qed.

Lemma read_headers_spec (w : World) (self : FileCore) (iter iter' : BlockIterator)
    (hs : list Header) :
  read_headers w self iter = Ok (hs, iter') ->
  hs <> [] /\
  (forall k h, nth_error hs k = Some h ->
     decodes_slot w self (position iter) k h /\ (keyword h = "END" <-> S k = length hs)) /\
  position iter' = (position iter + Z.of_nat ((length hs - 1) / cards_per_block) + 1)%Z /\
  end_ iter' = end_ iter.
Proof.
  unfold read_headers, position. intros H.
  apply (read_headers_loop_spec _ w self (n_ iter) iter [] 0) in H.
  - exact H.
  - cbn. lia.
  - split; [reflexivity|]. intros [|k] h Hk; discriminate.
Qed.

(** The constructor by cases: the cards and the cursor come from
    [read_headers]; then either the value of NAXIS is not above zero and
    nothing more happens, or the size is computed and the data blocks are
    skipped. *)
Lemma new_HDU_inv (w : World) (self : FileCore) (iter iter' : BlockIterator) (hdu : HDU) :
  new_HDU w self iter = Ok (hdu, iter') ->
  exists it1 nv,
    read_headers w self iter = Ok (headers_ hdu, it1) /\
    hdu_start hdu = position it1 /\
    value_of (find_header (headers_ hdu) (JStr "NAXIS")) = Ok nv /\
    ((num_gt (ToNumber nv) (num_of_Z 0) = false /\ iter' = it1 /\
      size_ hdu = num_of_Z 0 /\ hdu_end hdu = num_of_Z (position it1))
     \/
     (num_gt (ToNumber nv) (num_of_Z 0) = true /\
      exists bv size,
        value_of (find_header (headers_ hdu) (JStr "BITPIX")) = Ok bv /\
        naxis_loop (loop_fuel (ToNumber nv)) 1 (ToNumber nv) (headers_ hdu)
          (num_abs (num_div_const (ToNumber bv) 8)) = Ok size /\
        size_ hdu = size /\
        hdu_end hdu = num_add (num_of_Z (position it1))
                        (num_ceil (num_div_const size (Z.of_nat blockSize))) /\
        skip (num_ceil (num_div_const size (Z.of_nat blockSize))) it1 = (iter', Ok tt))).
Proof.
  unfold new_HDU.
  destruct (read_headers w self iter) as [[hs it1]|e] eqn:Er; cbn [bind]; [|discriminate].
  destruct (value_of (find_header hs (JStr "NAXIS"))) as [nv|e] eqn:En; cbn [bind];
    [|discriminate].
  destruct (num_gt (ToNumber nv) (num_of_Z 0)) eqn:Eg.
  - destruct (value_of (find_header hs (JStr "BITPIX"))) as [bv|e] eqn:Ebp; cbn [bind];
      [|discriminate].
    destruct (naxis_loop _ _ _ _ _) as [size|e] eqn:El; cbn [bind]; [|discriminate].
    destruct (skip _ it1) as [it2 [u|e]] eqn:Es; cbn [bind]; [|discriminate].
    intros H; inversion H; subst. cbn [headers_ hdu_start size_ hdu_end].
    exists it1, nv. split; [reflexivity|]. split; [reflexivity|]. split; [exact En|].
    right. split; [exact Eg|].
    exists bv, size. destruct u. repeat split; auto.
  - intros H; inversion H; subst. cbn [headers_ hdu_start size_ hdu_end].
    exists iter', nv. split; [reflexivity|]. split; [reflexivity|]. split; [exact En|].
    left. split; [exact Eg|]. repeat split; reflexivity.
Qed.

(** C3. Header parsing stops at the first card whose keyword is END: the
    cards of an HDU are the decodings of the consecutive 80-byte slots from
    the cursor on, END is the keyword of the last card and of no other, and
    the data starts at the block after the one that holds that card -- so no
    later slot of that block and no card of a later block is among them. *)
Theorem header_parsing_stops_at_END (w : World) (self : FileCore)
    (iter iter' : BlockIterator) (hdu : HDU) :
  new_HDU w self iter = Ok (hdu, iter') ->
  headers_ hdu <> [] /\
  (forall k h, nth_error (headers_ hdu) k = Some h ->
     decodes_slot w self (position iter) k h /\
     (keyword h = "END" <-> S k = length (headers_ hdu))) /\
  hdu_start hdu =
    (position iter + Z.of_nat ((length (headers_ hdu) - 1) / cards_per_block) + 1)%Z.
Proof.
  intros H. apply new_HDU_inv in H as (it1 & nv & Hr & Hs & _).
  apply read_headers_spec in Hr as (Hne & Hall & Hpos & _).
  rewrite Hs. auto.
Qed.

Lemma header_find (hdu : HDU) (kw : jsval) :
  header hdu kw = find_header (headers_ hdu) kw.
Proof. reflexivity. Qed.

(** C6. An HDU whose NAXIS card has the value 0 has an empty data extent at
    the cursor position reached behind the header blocks, and the cursor
    that the constructor leaves is the one the header reading left: nothing
    is skipped. *)
Theorem NAXIS_zero_empty_extent (w : World) (self : FileCore)
    (iter iter' : BlockIterator) (hdu : HDU) (h : Header) (q : Q) :
  new_HDU w self iter = Ok (hdu, iter') ->
  header hdu (JStr "NAXIS") = Some h ->
  value h = JNum (Num q) -> (q == 0)%Q ->
  read_headers w self iter = Ok (headers_ hdu, iter') /\
  hdu_start hdu = position iter' /\
  hdu_end hdu = num_of_Z (position iter') /\
  size_ hdu = num_of_Z 0.
Proof.
  intros Hnew Hh Hv Hq.
  apply new_HDU_inv in Hnew as (it1 & nv & Hr & Hs & Hn & Hcase).
  rewrite header_find in Hh. rewrite Hh in Hn. cbn [value_of] in Hn.
  inversion Hn; subst nv. rewrite Hv in Hcase. cbn [ToNumber num_gt num_of_Z] in Hcase.
  assert (Hle : Qle_bool q (inject_Z 0) = true).
  { apply Qle_bool_iff. rewrite Hq. apply Qle_refl. }
  rewrite Hle in Hcase. cbn [negb] in Hcase.
  destruct Hcase as [(_ & -> & Hsz & He) | (Hf & _)]; [|discriminate].
  auto.
Qed.

(** *** The block count *)

Lemma as_integer_inject (q : Q) (z : Z) :
  (q == inject_Z z)%Q -> as_integer (Num q) = Some z.
Proof.
  intros Hq. unfold as_integer.
  assert (Hf : Qfloor q = z) by (rewrite Hq; apply Qfloor_Z).
  rewrite Hf. assert (E : Qeq_bool q (inject_Z z) = true) by now apply Qeq_bool_iff.
  now rewrite E.
Qed.

Lemma num_le_inject (i m : Z) (q : Q) :
  (q == inject_Z m)%Q -> num_le (num_of_Z i) (Num q) = (i <=? m)%Z.
Proof.
  intros Hq. cbn [num_le num_of_Z].
  destruct (i <=? m)%Z eqn:E.
  - apply Qle_bool_iff. rewrite Hq. rewrite <- Zle_Qle. now apply Z.leb_le.
  - destruct (Qle_bool (inject_Z i) q) eqn:E'; [|reflexivity].
    apply Qle_bool_iff in E'. rewrite Hq, <- Zle_Qle in E'.
    apply Z.leb_gt in E. lia.
Qed.

(** The loop over the axes multiplies the size by the values of
    NAXISi, NAXIS(i+1), ... in turn. *)
Lemma naxis_loop_product (hs : list Header) (dims : list Z) :
  forall (fuel : nat) (i : Z) (q s0 : Q),
  (q == inject_Z (i - 1 + Z.of_nat (length dims)))%Q ->
  length dims <= fuel ->
  (forall j, j < length dims ->
     has_number hs (axis_keyword (i + Z.of_nat j)) (nth j dims 0%Z)) ->
  exists s, naxis_loop fuel i (Num q) hs (Num s0) = Ok (Num s) /\
            (s == s0 * inject_Z (fold_right Z.mul 1%Z dims))%Q.
Proof.
  induction dims as [|d ds IH]; intros fuel i q s0 Hq Hfuel Hdims.
  - exists s0. split.
    + assert (E : num_le (num_of_Z i) (Num q) = false).
      { rewrite (num_le_inject i _ q Hq). apply Z.leb_gt. cbn [length]. lia. }
      destruct fuel; cbn [naxis_loop]; now rewrite E.
    + cbn [fold_right]. change (inject_Z 1) with 1%Q. now rewrite Qmult_1_r.
  - destruct fuel as [|fuel]; [cbn [length] in Hfuel; lia|].
    cbn [naxis_loop].
    assert (E : num_le (num_of_Z i) (Num q) = true).
    { rewrite (num_le_inject i _ q Hq). apply Z.leb_le. cbn [length]. lia. }
    rewrite E.
    destruct (Hdims 0) as (h & qd & Hfind & Hval & Hqd); [cbn [length]; lia|].
    rewrite Z.add_0_r in Hfind. unfold axis_keyword in Hfind.
    rewrite Hfind. cbn [value_of bind]. rewrite Hval. cbn [ToNumber num_mul].
    destruct (IH fuel (i + 1)%Z q (s0 * qd)%Q) as (s & Hloop & Hs).
    + rewrite Hq. cbn [length].
      replace (i + 1 - 1 + Z.of_nat (length ds))%Z
        with (i - 1 + Z.of_nat (S (length ds)))%Z by lia. reflexivity.
    + cbn [length] in Hfuel. lia.
    + intros j Hj.
      replace (i + 1 + Z.of_nat j)%Z with (i + Z.of_nat (S j))%Z by lia.
      apply (Hdims (S j)). cbn [length]. lia.
    + exists s. split; [exact Hloop|].
      rewrite Hs. cbn [nth fold_right] in *. rewrite Hqd, inject_Z_mult. ring.
Qed.

Lemma Qabs_div8 (x : Q) : (Qabs (x / inject_Z 8) == Qabs x / 8)%Q.
Proof.
  unfold Qdiv. rewrite Qabs_Qmult. reflexivity.
Qed.



End HDUProperties.

(** *** The HDU on the examples *)

Section HDUExamples.

Import DecimalHost.

Lemma header_parsing_stops_at_END_witness :
  let w := Examples.world_open "image.fits" in
  let self := Examples.image_core in
  let hdu := Examples.image_hdu in
  headers_ hdu <> [] /\
  (forall k h, nth_error (headers_ hdu) k = Some h ->
     decodes_slot w self (position (blocks self)) k h /\
     (keyword h = "END" <-> S k = length (headers_ hdu))) /\
  hdu_start hdu =
    (position (blocks self)
     + Z.of_nat ((length (headers_ hdu) - 1) / cards_per_block) + 1)%Z.
Proof.
  apply (header_parsing_stops_at_END (Examples.world_open "image.fits")
           Examples.image_core (blocks Examples.image_core)
           (snd (Examples.first_hdu "image.fits" Examples.image_core))
           Examples.image_hdu).
  vm_compute. reflexivity.
Defined.

Lemma NAXIS_zero_empty_extent_witness :
  let w := Examples.world_open "minimal.fits" in
  let self := Examples.minimal_core in
  let iter' := snd (Examples.first_hdu "minimal.fits" self) in
  read_headers w self (blocks self) = Ok (headers_ Examples.minimal_hdu, iter') /\
  hdu_start Examples.minimal_hdu = position iter' /\
  hdu_end Examples.minimal_hdu = num_of_Z (position iter') /\
  size_ Examples.minimal_hdu = num_of_Z 0.
Proof.
  apply (NAXIS_zero_empty_extent (Examples.world_open "minimal.fits")
           Examples.minimal_core (blocks Examples.minimal_core)
           (snd (Examples.first_hdu "minimal.fits" Examples.minimal_core))
           Examples.minimal_hdu (Examples.decoded Examples.naxis_card) 0%Q).
  - vm_compute. reflexivity.
  - vm_compute. reflexivity.
  - vm_compute. reflexivity.
  - reflexivity.
Defined.


(** C8 does not hold of [header]: the lookup compares the keyword as it is
    given, without the upper-casing that [headers] applies.  On the minimal
    file [header('naxis')] finds nothing, while [headers('naxis')] gives the
    NAXIS card, the card that [header('NAXIS')] finds. *)
Theorem header_lookup_is_case_sensitive :
  header Examples.minimal_hdu (JStr "naxis") = None /\
  headers Examples.minimal_hdu (JStr "naxis")
    = Ok [Examples.decoded Examples.naxis_card] /\
  header Examples.minimal_hdu (JStr "NAXIS")
    = Some (Examples.decoded Examples.naxis_card).
Proof. vm_compute. repeat split. Qed.

End HDUExamples.

(** *** The file layer on the examples *)

Section FileExamples.

Import DecimalHost.

Lemma File_size_validation_witness :
  snd (new_File "empty.fits" Examples.world) = Throw EmptyFile /\
  snd (new_File "short.fits" Examples.world) = Throw IncompleteBlocks /\
  (forall e, snd (new_File "minimal.fits" Examples.world) = Throw e ->
             validation_error e = false).
Proof.
  split; [|split].
  - refine (proj1 (File_size_validation "empty.fits" Examples.world [] _) _);
      reflexivity.
  - refine (proj1 (proj2 (File_size_validation "short.fits" Examples.world
                            (repeat zero 100) _)) _);
      [reflexivity | vm_compute; discriminate].
  - refine (proj2 (proj2 (File_size_validation "minimal.fits" Examples.world
                            Examples.minimal_file _)) _ _);
      [reflexivity | vm_compute; lia | vm_compute; reflexivity].
Defined.

(** C7 fails as it is stated: opening the empty file fails with the
    validation error, and the handle 3 that the open acquired is still open
    afterwards. *)
Lemma handle_release_counterexample :
  snd (openSync "empty.fits" Examples.world) = Ok 3 /\
  snd (new_File "empty.fits" Examples.world) = Throw EmptyFile /\
  is_open 3 (fst (new_File "empty.fits" Examples.world)) = true.
Proof. vm_compute. repeat split. Qed.

End FileExamples.

(** *** The codec on the examples *)

Section CodecExamples.

Import DecimalHost.

Lemma empty_units_bracket_is_malformed_witness :
  from_buffer Examples.empty_units_card = Throw MalformedUnits /\
  (forall (buf' : bytes) (h : Header), from_buffer buf' = Ok h -> units h <> Some []).
Proof.
  apply (empty_units_bracket_is_malformed Examples.empty_units_card
           (list_ascii_of_string " / [] axes                                        ")).
  - vm_compute. reflexivity.
  - split; vm_compute; reflexivity.
Defined.



Lemma value_card_round_trip_witness :
  exists (s : str) (d : ValueHeader),
    snd (toString Examples.naxis1_card) = Ok s /\ length s = headerSize /\
    from_buffer s = Ok (HValue d) /\
    get_value d = JNum (num_of_Z 100) /\
    get_units d = Some (list_ascii_of_string "pixel") /\
    get_comment d = Some (list_ascii_of_string "length of axis 1").
Proof.
  apply (value_card_round_trip "naxis1" (JNum (num_of_Z 100))
           (Some (list_ascii_of_string "pixel"))
           (Some (list_ascii_of_string "length of axis 1")) Examples.naxis1_card).
  - vm_compute. reflexivity.
  - vm_compute. reflexivity.
  - vm_compute. repeat split; try discriminate; try lia; repeat constructor.
  - vm_compute. repeat split; try discriminate; repeat constructor.
    intros [H|[H|[H|[H|[H|H]]]]]; try discriminate; exact H.
  - vm_compute. repeat split; try discriminate; repeat constructor.
  - vm_compute. lia.
Defined.

(** C1 fails as it is stated: a card built with units and no comment comes
    back with the empty text as its comment, and a text value that ends in
    white space comes back without it. *)
Lemma round_trip_counterexample :
  (Header_value (AString "FLAG") (JBool true) (JStr "m") JUndefined = Ok Examples.flag_card /\
   snd (toString Examples.flag_card) = Ok (Examples.record Examples.flag_card) /\
   comment Examples.flag_card = None /\
   comment (Examples.decoded (Examples.record Examples.flag_card)) = Some []) /\
  (Header_value (AString "NAME") (JStr "a ") JUndefined JUndefined = Ok Examples.padded_card /\
   snd (toString Examples.padded_card) = Ok (Examples.record Examples.padded_card) /\
   value Examples.padded_card = JStr "a " /\
   value (Examples.decoded (Examples.record Examples.padded_card)) = JStr "a").
Proof. vm_compute. repeat split. Qed.

(** C5 fails as it is stated: the card of the scenario does not decode to a
    Value card; it has no value, no units and no comment. *)
Lemma scenario_card_counterexample :
  (exists r, from_buffer Examples.scenario_card = Ok (HComment r)) /\
  value (Examples.decoded Examples.scenario_card) = JUndefined /\
  units (Examples.decoded Examples.scenario_card) = None /\
  comment (Examples.decoded Examples.scenario_card) = None.
Proof. split; [eexists|]; vm_compute; repeat split. Qed.

End CodecExamples.

(** * Further properties of the header cards *)

Section CardInvariants.

Context {host : NumberHost}.

(** *** The backing buffer keeps its 80 bytes *)

Lemma Buffer_write_bytes_length (d : str) (offset len : nat) (buf : bytes) :
  offset <= length buf ->
  length (Buffer_write_bytes d offset len buf) = length buf.
Proof.
  intros Ho. unfold Buffer_write_bytes; cbv zeta.
  rewrite !length_app, !length_firstn, length_skipn. lia.
Qed.

Lemma _write_length (d : str) (offset len : nat) (r : RawHeader) :
  length (buffer_ (fst (_write d offset len r))) = length (buffer_ r).
Proof.
  unfold _write, Buffer_write. cbn [buffer_ modified_].
  destruct (length (buffer_ r) <? offset) eqn:E; cbn [orb fst buffer_]; [reflexivity|].
  destruct (length (buffer_ r) <? Nat.min headerSize (offset + len));
    cbn [fst buffer_]; [reflexivity|].
  apply Nat.ltb_ge in E. now apply Buffer_write_bytes_length.
Qed.

Lemma update_length (v : ValueHeader) :
  length (buffer_ (super (fst (update v)))) = length (buffer_ (super v)).
Proof.
  unfold update, update_svalue.
  destruct (format_value (value_ v)); [|reflexivity].
  match goal with |- context [_write ?d ?o ?l ?r] =>
    pose proof (_write_length d o l r) as Hw; destruct (_write d o l r) as [r' [u|e]] end;
    cbn [fst] in *; exact Hw.
Qed.

Lemma step_length (o : card_op) (h : Header) :
  length (buffer_ (raw_of (fst (step o h)))) = length (buffer_ (raw_of h)).
Proof.
  destruct o, h as [r|r|v]; cbn [step toString fst raw_of]; try reflexivity.
  - unfold value_toString. destruct (dirty_ v); [|reflexivity].
    pose proof (update_length v) as Hu.
    destruct (update v) as [v' [u|e]]; cbn [fst raw_of] in *; exact Hu.
  - unfold set_value, update_svalue. cbn [value_ with_value].
    destruct (format_value arg); reflexivity.
  - destruct arg; reflexivity.
  - destruct arg; reflexivity.
  - destruct arg as [| | |a|]; cbn [set_text fst raw_of]; try reflexivity.
    match goal with |- context [_write ?d ?o ?l ?r] =>
      pose proof (_write_length d o l r) as Hw; destruct (_write d o l r) as [r' x] end.
    exact Hw.
Qed.

Lemma run_length (ops : list card_op) (h : Header) :
  length (buffer_ (raw_of (fst (run ops h)))) = length (buffer_ (raw_of h)).
Proof.
  revert h; induction ops as [|o ops IH]; intros h; cbn [run]; [reflexivity|].
  pose proof (step_length o h) as Hs. destruct (step o h) as [h' r].
  specialize (IH h'). destruct (run ops h') as [h'' later]. cbn [fst] in *. congruence.
Qed.

Lemma new_RawHeader_length (k : str) (r : RawHeader) :
  new_RawHeader (AString k) = Ok r -> length (buffer_ r) = headerSize.
Proof.
  unfold new_RawHeader, set_keyword.
  match goal with |- context [_write ?d ?o ?l ?r0] =>
    pose proof (_write_length d o l r0) as Hw; destruct (_write d o l r0) as [r' [u|e]] end;
    cbn [bind fst] in *; [|discriminate].
  intros H; inversion H; subst. rewrite Hw. apply repeat_length.
Qed.

Lemma fresh_card_length (h : Header) :
  fresh_card h -> length (buffer_ (raw_of h)) = headerSize.
Proof.
  intros [(buf & Hl & Hd) | [(k & v & u & c & Hb) | [(t & Hb) | (t & Hb)]]].
  - now apply from_buffer_pristine in Hd as (H & _).
  - unfold Header_value, new_ValueHeader in Hb.
    destruct (new_RawHeader (AString k)) as [r|e] eqn:Er; cbn [bind] in Hb; [|discriminate].
    apply new_RawHeader_length in Er.
    unfold set_value, update_svalue in Hb. cbn [value_ with_value] in Hb.
    destruct (format_value v); cbn [bind] in Hb; [|discriminate].
    destruct u; cbn [set_units bind] in Hb; try discriminate;
      destruct c; cbn [set_comment bind] in Hb; try discriminate;
      inversion Hb; subst; exact Er.
  - unfold Header_comment, new_CommentHeader in Hb.
    destruct (new_RawHeader _) as [r|e] eqn:Er; cbn [bind] in Hb; [|discriminate].
    apply new_RawHeader_length in Er.
    destruct t as [| | |a|]; cbn [set_text bind] in Hb; try discriminate.
    match type of Hb with context [_write ?d ?o ?l ?r0] =>
      pose proof (_write_length d o l r0) as Hw; destruct (_write d o l r0) as [r' [u|e]] end;
      cbn [bind fst] in *; [|discriminate].
    inversion Hb; subst. cbn [raw_of]. congruence.
  - unfold Header_history, new_CommentHeader in Hb.
    destruct (new_RawHeader _) as [r|e] eqn:Er; cbn [bind] in Hb; [|discriminate].
    apply new_RawHeader_length in Er.
    destruct t as [| | |a|]; cbn [set_text bind] in Hb; try discriminate.
    match type of Hb with context [_write ?d ?o ?l ?r0] =>
      pose proof (_write_length d o l r0) as Hw; destruct (_write d o l r0) as [r' [u|e]] end;
      cbn [bind fst] in *; [|discriminate].
    inversion Hb; subst. cbn [raw_of]. congruence.
Qed.

Lemma raw_toString_length (r : RawHeader) :
  length (buffer_ r) = headerSize -> length (raw_toString r) = headerSize.
Proof.
  intros H. unfold raw_toString, raw_substring, subarray, Buffer_toString.
  rewrite length_map, length_firstn, length_skipn, H. reflexivity.
Qed.

Lemma toString_length (h h' : Header) (s : str) :
  length (buffer_ (raw_of h)) = headerSize ->
  toString h = (h', Ok s) -> length s = headerSize.
Proof.
  intros Hl. destruct h as [r|r|v]; cbn [toString raw_of] in *.
  - intros H; inversion H; subst. now apply raw_toString_length.
  - intros H; inversion H; subst. now apply raw_toString_length.
  - unfold value_toString. destruct (dirty_ v).
    + pose proof (update_length v) as Hu.
      destruct (update v) as [v' [u|e]]; cbn [fst] in Hu; intros H; inversion H; subst.
      apply raw_toString_length. congruence.
    + intros H; inversion H; subst. now apply raw_toString_length.
Qed.

(** X1. The serialized length is always 80: whatever is called on a card
    decoded from an 80-byte slice or built by Header.value, Header.comment or
    Header.history, its backing buffer keeps 80 bytes, and every rendering
    that toString returns has exactly 80 characters. *)
Theorem card_rendering_is_80_characters (h : Header) (ops : list card_op) :
  fresh_card h ->
  let h1 := fst (run ops h) in
  length (buffer_ (raw_of h1)) = headerSize /\
  forall h2 s, toString h1 = (h2, Ok s) -> length s = headerSize.
Proof.
  intros Hf h1. assert (Hl : length (buffer_ (raw_of h1)) = headerSize).
  { unfold h1. rewrite run_length. now apply fresh_card_length. }
  split; [exact Hl|]. intros h2 s. now apply toString_length.
Qed.

(** *** Rendering is memoized *)

(** X2. toString is idempotent: when it returns a rendering, the card it
    leaves is clean, and calling it again changes nothing and returns the
    same 80 characters. *)
Theorem toString_is_memoized (h h1 : Header) (s : str) :
  toString h = (h1, Ok s) ->
  toString h1 = (h1, Ok s) /\
  match h1 with HValue v => dirty_ v = false | _ => True end.
Proof.
  destruct h as [r|r|v]; cbn [toString].
  - intros H; inversion H; subst. cbn [toString]. auto.
  - intros H; inversion H; subst. cbn [toString]. auto.
  - unfold value_toString. destruct (dirty_ v) eqn:Hd.
    + unfold update, update_svalue.
      destruct (format_value (value_ v)); [|intros H; inversion H].
      match goal with |- context [_write ?d ?o ?l ?r0] =>
        destruct (_write d o l r0) as [r' [u|e]] end; intros H; inversion H; subst.
      cbn [toString]. unfold value_toString. cbn [dirty_ with_dirty]. auto.
    + intros H; inversion H; subst. cbn [toString]. unfold value_toString.
      rewrite Hd. auto.
Qed.

(** *** Cards built from a keyword *)


Lemma new_RawHeader_string (k : str) :
  new_RawHeader (AString k) =
  Ok {| buffer_ := keyword_field k ++ repeat SPACE (headerSize - keySize);
        modified_ := true |}.
Proof.
  unfold new_RawHeader, set_keyword, _write, Buffer_write.
  cbn [buffer_ modified_]. rewrite set_keyword_write. reflexivity.
Qed.

Lemma keyword_of_field (k : str) (rest : bytes) :
  raw_keyword {| buffer_ := keyword_field k ++ rest; modified_ := true |}
  = trimEnd (Buffer_toString
               (firstn keySize (low_bytes (toUpperCase (substring 0 keySize k))))).
Proof.
  transitivity (trimEnd (Buffer_toString (keyword_field k))).
  - unfold raw_keyword, raw_substring, subarray. cbn [buffer_ skipn].
    rewrite Nat.sub_0_r, <- (keyword_field_length k).
    rewrite firstn_app, firstn_all, Nat.sub_diag. cbn [firstn]. now rewrite app_nil_r.
  - unfold keyword_field, wpadEnd, low_bytes. set (u := toUpperCase _).
    rewrite map_app, map_repeat. change (low_byte 32) with SPACE.
    destruct (Nat.le_gt_cases keySize (length u)) as [Hl|Hl].
    + replace (keySize - length u) with 0 by lia. cbn [repeat]. now rewrite app_nil_r.
    + rewrite !firstn_all2
        by (rewrite ?length_app, ?repeat_length, length_map; lia).
      unfold Buffer_toString. rewrite map_app, map_repeat.
      change (clear7 SPACE) with SPACE.
      apply trimEnd_app_white, all_white_spaces.
Qed.

Lemma trimStart_idem (s : str) : trimStart (trimStart s) = trimStart s.
Proof.
  induction s as [|c r IH]; [reflexivity|]. cbn [trimStart].
  destruct (is_white c) eqn:E; [exact IH|]. cbn [trimStart]. now rewrite E.
Qed.

Lemma trimEnd_idem (s : str) : trimEnd (trimEnd s) = trimEnd s.
Proof. unfold trimEnd. now rewrite rev_involutive, trimStart_idem. Qed.

Lemma trimEnd_length (s : str) : length (trimEnd s) <= length s.
Proof.
  unfold trimEnd. rewrite length_rev, <- (length_rev s). apply trimStart_length.
Qed.

(** X3. The keyword of a card built by Header.value is the first 8
    characters of the keyword argument, upper-cased, decoded as ASCII and
    without trailing white space; it has at most 8 characters. *)
Theorem built_card_keyword (k : str) (v u c : jsval) (h : Header) :
  Header_value (AString k) v u c = Ok h ->
  keyword h
  = trimEnd (Buffer_toString
               (firstn keySize (low_bytes (toUpperCase (substring 0 keySize k))))) /\
  length (keyword h) <= keySize.
Proof.
  intros Hb. unfold Header_value, new_ValueHeader in Hb.
  rewrite new_RawHeader_string in Hb. cbn [bind] in Hb.
  unfold set_value, update_svalue in Hb. cbn [value_ with_value] in Hb.
  destruct (format_value v); cbn [bind] in Hb; [|discriminate].
  assert (Hk : keyword h
               = trimEnd (Buffer_toString
                   (firstn keySize (low_bytes (toUpperCase (substring 0 keySize k)))))).
  { destruct u; cbn [set_units bind] in Hb; try discriminate;
      destruct c; cbn [set_comment bind] in Hb; try discriminate;
      inversion Hb; subst; apply keyword_of_field. }
  split; [exact Hk|]. rewrite Hk.
  etransitivity; [apply trimEnd_length|].
  unfold Buffer_toString. rewrite length_map, length_firstn. lia.
Qed.

(** X4. Header.value succeeds exactly when the value is a boolean, a number
    or a string and the units and the comment are each a string or
    undefined; in every other case it throws a TypeError. *)
Theorem Header_value_type_errors (k : str) (v u c : jsval) :
  if supported_value v && optional_text u && optional_text c
  then exists h, Header_value (AString k) v u c = Ok h /\ modified h = true
  else Header_value (AString k) v u c = Throw TypeError.
Proof.
  unfold Header_value, new_ValueHeader. rewrite new_RawHeader_string. cbn [bind].
  unfold set_value, update_svalue. cbn [value_ with_value].
  destruct v; cbn [format_value supported_value andb bind]; try reflexivity;
    destruct u; cbn [set_units optional_text andb bind]; try reflexivity;
    destruct c; cbn [set_comment optional_text andb bind]; try reflexivity;
    eexists; split; reflexivity.
Qed.

Lemma rejected_value_step (a : jsval) (r : RawHeader) (o : card_op) (v : ValueHeader) :
  supported_value a = false -> keeps_value o = true ->
  value_ v = a -> super v = r ->
  exists v', fst (step o (HValue v)) = HValue v' /\ value_ v' = a /\ super v' = r.
Proof.
  intros Ha Ho Hv Hs. destruct o as [|x|x|x|x]; cbn [keeps_value] in Ho;
    try discriminate; cbn [step toString].
  - unfold value_toString. destruct (dirty_ v); [|exists v; auto].
    unfold update, update_svalue. rewrite Hv.
    replace (format_value a) with (@None str) by (destruct a; easy).
    exists v. auto.
  - destruct x; cbn [set_units fst]; eexists; (split; [reflexivity|]); auto.
  - destruct x; cbn [set_comment fst]; eexists; (split; [reflexivity|]); auto.
  - exists v. auto.
Qed.

Lemma rejected_value_run (a : jsval) (r : RawHeader) (ops : list card_op) :
  supported_value a = false -> forallb keeps_value ops = true ->
  forall v, value_ v = a -> super v = r ->
  exists v', fst (run ops (HValue v)) = HValue v' /\ value_ v' = a /\ super v' = r.
Proof.
  intros Ha. induction ops as [|o ops IH]; intros Ho v Hv Hs; cbn [run forallb] in *.
  - exists v. auto.
  - apply andb_prop in Ho as [Ho1 Ho2].
    destruct (rejected_value_step a r o v Ha Ho1 Hv Hs) as (v1 & E1 & Hv1 & Hs1).
    destruct (step o (HValue v)) as [h1 r1]. cbn [fst] in E1. subst h1.
    destruct (IH Ho2 v1 Hv1 Hs1) as (v2 & E2 & Hv2 & Hs2).
    destruct (run ops (HValue v1)) as [h2 later]. cbn [fst] in *. now exists v2.
Qed.

(** X5. A value that the setter of value rejects stays in the card and
    blocks its rendering.  The setter stores the value before it throws the
    TypeError; from then on, whatever is called that does not assign the
    value again, the card reports that value, its bytes and its modified flag
    of the buffer stay as they were, and toString throws a TypeError as soon
    as the card is dirty -- it was, or an assignment to units or comment has
    returned -- and otherwise returns the record as it was, which does not show
    the value. *)
Theorem rejected_value_blocks_rendering (v : ValueHeader) (a : jsval)
    (ops : list card_op) :
  supported_value a = false ->
  forallb keeps_value ops = true ->
  let h1 := fst (step (Set_value a) (HValue v)) in
  let h' := fst (run ops h1) in
  snd (step (Set_value a) (HValue v)) = Throw TypeError /\
  value h' = a /\ raw_of h' = super v /\
  toString h'
  = (h', if card_dirty h' then Throw TypeError else Ok (raw_toString (super v))).
Proof.
  intros Ha Ho h1 h'.
  assert (Hf : format_value a = None) by (destruct a; easy).
  assert (E1 : step (Set_value a) (HValue v) = (HValue (with_value a v), Throw TypeError)).
  { cbn [step]. unfold set_value, update_svalue. cbn [value_ with_value].
    now rewrite Hf. }
  subst h' h1. rewrite E1. cbn [fst snd]. split; [reflexivity|].
  destruct (rejected_value_run a (super v) ops Ha Ho (with_value a v) eq_refl eq_refl)
    as (v' & E & Hv & Hs).
  rewrite E. cbn [value raw_of card_dirty toString]. unfold get_value.
  split; [exact Hv|]. split; [exact Hs|].
  unfold value_toString. destruct (dirty_ v') eqn:Hd; [|now rewrite Hs].
  unfold update, update_svalue. now rewrite Hv, Hf.
Qed.

(** *** Comment and history cards *)



(** *** What a decoded card holds *)

Lemma trimStart_suffix (s : str) : exists p, s = p ++ trimStart s.
Proof.
  induction s as [|c r [p IH]]; [now exists []|]. cbn [trimStart].
  destruct (is_white c); [exists (c :: p); cbn [app]; now rewrite <- IH | now exists []].
Qed.

Lemma trimStart_fixed_prefix (a b : str) :
  trimStart (a ++ b) = a ++ b -> trimStart a = a.
Proof.
  destruct a as [|x a']; [reflexivity|]. cbn [app]. intros H.
  apply trimStart_fixed_head in H. now apply trimStart_cons_nonwhite.
Qed.

Lemma trimEnd_fixed_suffix (p t : str) :
  trimEnd (p ++ t) = p ++ t -> trimEnd t = t.
Proof.
  intros H. apply trimEnd_fixed_rev in H. rewrite rev_app_distr in H.
  apply trimStart_fixed_prefix in H. unfold trimEnd. now rewrite H, rev_involutive.
Qed.

Lemma trimEnd_fixed_skipn (k : nat) (s : str) :
  trimEnd s = s -> trimEnd (skipn k s) = skipn k s.
Proof.
  intros H. apply (trimEnd_fixed_suffix (firstn k s)). now rewrite firstn_skipn.
Qed.

Lemma trimEnd_fixed_trimStart (s : str) :
  trimEnd s = s -> trimEnd (trimStart s) = trimStart s.
Proof.
  intros H. destruct (trimStart_suffix s) as [p Hp].
  apply (trimEnd_fixed_suffix p). now rewrite <- Hp.
Qed.

Lemma find_char_first (c : ascii) (s : str) (i : nat) :
  find_char c s = Some i -> ~ In c (firstn i s).
Proof.
  revert i; induction s as [|d r IH]; cbn [find_char]; intros i H; [discriminate|].
  destruct (Ascii.eqb d c) eqn:E.
  - inversion H; subst. cbn [firstn]. tauto.
  - destruct (find_char c r) as [j|]; [|discriminate]. inversion H; subst.
    cbn [firstn]. intros [Hd|Hin].
    + subst d. now rewrite Ascii.eqb_refl in E.
    + now apply (IH j eq_refl).
Qed.

(** The comment and the units that [#parse_comment] stores. *)
Lemma parse_comment_fields (s : str) (this v : ValueHeader) :
  parse_comment s this = Ok v ->
  (forall c, comment_ v = Some c -> trimStart c = c /\ trimEnd c = c) /\
  (forall u, units_ v = Some u -> u <> [] /\ ~ In "]"%char u) /\
  (units_ v <> None -> comment_ v <> None) /\
  value_ v = value_ this.
Proof.
  unfold parse_comment.
  assert (H0 : trimEnd (trim s) = trim s) by apply trimEnd_idem.
  destruct (startsWith "/" (trim s)).
  2:{ intros H; inversion H; subst v.
      cbn [comment_ units_ value_ with_comment with_units].
      split; [discriminate|]. split; [discriminate|]. split; [congruence | reflexivity]. }
  set (s1 := trimStart (substring_from 1 (trim s))).
  assert (H1 : trimEnd s1 = s1).
  { apply trimEnd_fixed_trimStart, trimEnd_fixed_skipn, H0. }
  destruct (startsWith "[" s1).
  2:{ intros H; inversion H; subst v.
      cbn [comment_ units_ value_ with_comment with_units].
      split; [|split; [discriminate | split; [congruence | reflexivity]]].
      intros c Hc; inversion Hc; subst c.
      split; [apply trimStart_idem | now apply trimEnd_fixed_trimStart]. }
  destruct (indexOf "]" 1 s1) as [i|] eqn:Ei; [|discriminate].
  destruct (1 <? i) eqn:Hi; [|discriminate].
  apply Nat.ltb_lt in Hi. pose proof (indexOf_lt _ _ _ _ Ei) as Hlt.
  intros H; inversion H; subst v.
  cbn [comment_ units_ value_ with_comment with_units].
  split; [|split; [|split; [discriminate | reflexivity]]].
  - intros c Hc; inversion Hc; subst c.
    split; [apply trimStart_idem|].
    now apply trimEnd_fixed_trimStart, trimEnd_fixed_skipn.
  - intros u Hu; inversion Hu; subst u. split.
    + intros E. apply (f_equal (@length ascii)) in E.
      rewrite substring_length in E by lia. cbn [length] in E. lia.
    + unfold indexOf in Ei.
      destruct (find_char "]" (skipn 1 s1)) as [j|] eqn:Ej; [|discriminate].
      inversion Ei; subst i. apply find_char_first in Ej.
      unfold substring; cbv zeta. rewrite !Nat.min_l by lia. rewrite Nat.max_r by lia.
      replace (S j - 1) with j by lia. exact Ej.
Qed.

(** X7. What a decoded Value card holds is normalized: the keyword has no
    trailing white space and at most 8 characters, a comment has no white
    space at either end, a text value has none at its end, units are never
    empty and never contain a closing bracket, and units never come without
    a comment. *)
Theorem decoded_fields_are_trimmed (buf : bytes) (h : Header) :
  from_buffer buf = Ok h ->
  (trimEnd (keyword h) = keyword h /\ length (keyword h) <= keySize) /\
  (forall c, comment h = Some c -> trimStart c = c /\ trimEnd c = c) /\
  (forall a, value h = JStr a -> trimEnd a = a) /\
  (forall u, units h = Some u -> u <> [] /\ ~ In "]"%char u) /\
  (units h <> None -> comment h <> None).
Proof.
  intros Hd. split.
  { unfold keyword, raw_keyword. split; [apply trimEnd_idem|].
    etransitivity; [apply trimEnd_length|].
    unfold raw_substring, subarray, Buffer_toString.
    rewrite length_map, length_firstn. unfold keySize. lia. }
  revert Hd. rewrite from_buffer_eq.
  assert (Hplain : forall r : RawHeader,
            (forall c, @None str = Some c -> trimStart c = c /\ trimEnd c = c) /\
            (forall a, JUndefined = JStr a -> trimEnd a = a) /\
            (forall u, @None str = Some u -> u <> [] /\ ~ In "]"%char u) /\
            (@None str <> None -> @None str <> None)).
  { intros _. split; [discriminate|]. split; [discriminate|]. split; [discriminate|auto]. }
  destruct (commentary_keyword _).
  { intros H; inversion H; subst h. apply (Hplain (raw_of_buffer buf)). }
  destruct (has_value _).
  2:{ intros H; inversion H; subst h. apply (Hplain (raw_of_buffer buf)). }
  destruct (parse _) as [v|e] eqn:Ep; cbn [bind]; [|discriminate].
  intros H; inversion H; subst h. cbn [comment value units].
  unfold get_comment, get_value, get_units.
  revert Ep. unfold parse. destruct (startsWith [QUOTE] _).
  - unfold parse_string. destruct (scan_string _ _ _) as [inside offset].
    destruct (inside || _ || _); [discriminate|].
    intros Ep. apply parse_comment_fields in Ep as (Hc & Hu & Huc & Hv).
    cbn [value_ with_value] in Hv.
    split; [exact Hc|]. split; [|split; [exact Hu | exact Huc]].
    intros a Ha. rewrite Hv in Ha. inversion Ha. apply trimEnd_idem.
  - intros Ep. apply parse_comment_fields in Ep as (Hc & Hu & Huc & Hv).
    split; [exact Hc|]. split; [|split; [exact Hu | exact Huc]].
    intros a Ha. rewrite Hv in Ha.
    destruct (str_eqb _ _); [|destruct (str_eqb _ _)]; discriminate.
Qed.

(** X8. Decoding fails on Value cards only, and only with one of the two
    parse errors: a card whose keyword is COMMENT or HISTORY, or that lacks
    the value marker, always decodes; the string error needs a value field
    that begins with an apostrophe. *)
Theorem from_buffer_failures (buf : bytes) (e : exn) :
  from_buffer buf = Throw e ->
  commentary_keyword (raw_keyword (raw_of_buffer buf)) = false /\
  has_value (raw_of_buffer buf) = true /\
  (e = MalformedUnits \/
   (e = StringValueParserError /\
    startsWith [QUOTE]
      (trimStart (raw_substring (keySize + 2) headerSize (raw_of_buffer buf))) = true)).
Proof.
  rewrite from_buffer_eq.
  destruct (commentary_keyword _); [discriminate|].
  destruct (has_value _); [|discriminate].
  destruct (parse _) as [v|e'] eqn:Ep; cbn [bind]; [discriminate|].
  intros H; inversion H; subst. split; [reflexivity|]. split; [reflexivity|].
  revert Ep. unfold parse, fresh_value at 1. cbn [super].
  destruct (startsWith [QUOTE] _).
  - intros Ep. unfold parse_string in Ep.
    destruct (scan_string _ _ _) as [inside offset].
    destruct (inside || _ || _).
    + inversion Ep. auto.
    + apply parse_comment_throws in Ep. auto.
  - intros Ep. apply parse_comment_throws in Ep. auto.
Qed.

(** X9. Quote escaping: collapsing the doubled apostrophes of a text whose
    apostrophes were doubled gives the text back, whatever follows it; the
    doubled text holds an even number of apostrophes. *)
Theorem quote_escaping_round_trip (a : str) :
  undouble_quotes (double_quotes a) = a /\
  (forall n, undouble_quotes (double_quotes a ++ repeat SPACE n) = a ++ repeat SPACE n) /\
  Nat.even (count_occ ascii_dec (double_quotes a) QUOTE) = true.
Proof.
  split; [apply undouble_double|]. split.
  - intros n. now rewrite undouble_double_app, undouble_spaces.
  - induction a as [|c a IH]; [reflexivity|]. cbn [double_quotes].
    destruct (Ascii.eqb c QUOTE) eqn:E.
    + cbn [count_occ]. destruct (ascii_dec QUOTE QUOTE); [|congruence]. exact IH.
    + cbn [count_occ]. destruct (ascii_dec c QUOTE) as [->|_]; [|exact IH].
      now rewrite Ascii.eqb_refl in E.
Qed.

End CardInvariants.

(** * Further properties of the HDU and the file *)

Section LayoutInvariants.

Context {host : NumberHost}.

(** *** Lookup of cards *)









(** *** The cursor *)

(** X11. The cursor only moves forward and never passes its end bound.
    Whatever next() or skip(c) returns, the end bound is kept and the
    position does not decrease; when the position was within the bound it
    still is.  next() advances by one block unless the cursor is done, where
    it changes nothing and gives no block; skip(c) advances by c exactly when
    c is an integer with 0 <= c <= end - position, throws a RangeError for
    another integer and a TypeError otherwise, leaving the cursor where it
    was. *)
Theorem cursor_moves_forward (w : World) (self : FileCore) (it : BlockIterator)
    (c : number) :
  let it1 := fst (next w self it) in
  let it2 := fst (skip c it) in
  (end_ it1 = end_ it /\ (n_ it <= n_ it1)%Z /\
   ((n_ it <= end_ it)%Z -> (n_ it1 <= end_ it)%Z) /\
   (if done it then next w self it = (it, Ok None)
    else n_ it1 = (n_ it + 1)%Z)) /\
  (end_ it2 = end_ it /\ (n_ it <= n_ it2)%Z /\
   ((n_ it <= end_ it)%Z -> (n_ it2 <= end_ it)%Z) /\
   match as_integer c with
   | Some z =>
       if ((0 <=? z) && (z <=? end_ it - n_ it))%Z
       then skip c it = ({| n_ := n_ it + z; end_ := end_ it |}, Ok tt)
       else skip c it = (it, Throw RangeError)
   | None => skip c it = (it, Throw TypeError)
   end).
Proof.
  intros it1 it2. split.
  - unfold it1, next, done. destruct (n_ it >=? end_ it)%Z eqn:E; cbn [fst n_ end_].
    + repeat split; lia.
    + rewrite Z.geb_leb in E. apply Z.leb_gt in E. repeat split; lia.
  - unfold it2, skip. destruct (as_integer c) as [z|]; cbn [fst].
    2:{ repeat split; lia. }
    destruct (z <? 0)%Z eqn:E1; cbn [orb].
    + apply Z.ltb_lt in E1. cbn [fst].
      replace (0 <=? z)%Z with false by (symmetry; apply Z.leb_gt; lia).
      repeat split; lia.
    + apply Z.ltb_ge in E1.
      replace (0 <=? z)%Z with true by (symmetry; apply Z.leb_le; lia). cbn [andb].
      destruct (n_ it + z >? end_ it)%Z eqn:E2; cbn [fst n_ end_].
      * apply Z.gtb_lt in E2.
        replace (z <=? end_ it - n_ it)%Z with false by (symmetry; apply Z.leb_gt; lia).
        repeat split; lia.
      * rewrite Z.gtb_ltb in E2. apply Z.ltb_ge in E2.
        replace (z <=? end_ it - n_ it)%Z with true by (symmetry; apply Z.leb_le; lia).
        repeat split; lia.
Qed.

(** *** Random access to the blocks *)

(** X12. Random access.  On a device that holds blockCount whole blocks,
    block(n) gives the 2880 bytes at offset n * 2880 for an integer n with
    0 <= n < blockCount, throws a RangeError for any other integer -- so
    block(blockCount) fails -- and a TypeError for a number that is not an
    integer. *)
Theorem block_random_access (w : World) (self : FileCore) (c : bytes) (n : number) :
  contents (fd_ self) w = Ok c ->
  length c = Z.to_nat (blockCount_ self) * blockSize ->
  match as_integer n with
  | None => block w self n = Throw TypeError
  | Some i =>
      if ((0 <=? i) && (i <? blockCount_ self))%Z
      then block w self n
             = Ok (Some (firstn blockSize (skipn (Z.to_nat i * blockSize) c))) /\
           length (firstn blockSize (skipn (Z.to_nat i * blockSize) c)) = blockSize
      else block w self n = Throw RangeError
  end.
Proof.
  intros Hc Hlen. unfold block. destruct (as_integer n) as [i|]; [|reflexivity].
  destruct (i <? 0)%Z eqn:E1; cbn [orb].
  { apply Z.ltb_lt in E1.
    replace (0 <=? i)%Z with false by (symmetry; apply Z.leb_gt; lia). reflexivity. }
  apply Z.ltb_ge in E1.
  replace (0 <=? i)%Z with true by (symmetry; apply Z.leb_le; lia). cbn [andb].
  rewrite Z.geb_leb.
  destruct (i <? blockCount_ self)%Z eqn:E2.
  - apply Z.ltb_lt in E2.
    replace (blockCount_ self <=? i)%Z with false by (symmetry; apply Z.leb_gt; lia).
    assert (Hd : length (firstn blockSize (skipn (Z.to_nat i * blockSize) c)) = blockSize).
    { rewrite length_firstn, length_skipn, Hlen.
      assert (Z.to_nat i + 1 <= Z.to_nat (blockCount_ self)) by lia. nia. }
    split; [|exact Hd].
    unfold readSync. rewrite Hc. cbn [bind]. rewrite Hd, Nat.eqb_refl, Nat.sub_diag.
    cbn [repeat]. now rewrite app_nil_r.
  - apply Z.ltb_ge in E2.
    replace (blockCount_ self <=? i)%Z with true by (symmetry; apply Z.leb_le; lia).
    reflexivity.
Qed.

(** *** The file after it is opened *)

Lemma new_File_inv (path : str) (w : World) (f : File) :
  snd (new_File path w) = Ok f ->
  exists c,
    lookup_path path (disk w) = Some c /\
    0 < length c /\ length c mod blockSize = 0 /\
    core f = {| fd_ := next_fd w; blockCount_ := Z.of_nat (length c / blockSize) |} /\
    read_hdus (length c / blockSize) (fst (openSync path w)) (core f)
      (blocks (core f)) [] = Ok (hdus_ f).
Proof.
  unfold new_File. destruct (lookup_path path (disk w)) as [c|] eqn:Hc.
  2:{ unfold openSync. rewrite Hc. discriminate. }
  rewrite (openSync_found path w c Hc). cbn [snd fst].
  rewrite (fstatSync_opened path w c Hc). cbn [bind].
  destruct (length c =? 0) eqn:E0; [discriminate|].
  destruct (length c mod blockSize =? 0) eqn:Em; cbn [negb]; [|discriminate].
  destruct (read_hdus _ _ _ _ _) as [hdus|e] eqn:Eh; cbn [bind]; [|discriminate].
  intros H; inversion H; subst f. cbn [core hdus_].
  exists c. apply Nat.eqb_neq in E0. apply Nat.eqb_eq in Em.
  repeat split; auto; lia.
Qed.

Lemma from_buffer_unmodified (buf : bytes) (h : Header) :
  from_buffer buf = Ok h -> modified h = false.
Proof.
  rewrite from_buffer_eq.
  destruct (commentary_keyword _); [intros H; inversion H; reflexivity|].
  destruct (has_value _); [|intros H; inversion H; reflexivity].
  destruct (parse _) as [v|e] eqn:Ep; cbn [bind]; intros H; inversion H; subst.
  apply parse_frame in Ep as [Hsup Hd]. cbn [modified]. unfold value_modified.
  now rewrite Hd, Hsup.
Qed.

Lemma new_HDU_unmodified (w : World) (self : FileCore) (iter iter' : BlockIterator)
    (hdu : HDU) :
  new_HDU w self iter = Ok (hdu, iter') -> hdu_modified hdu = false.
Proof.
  intros H. apply new_HDU_inv in H as (it1 & nv & Hr & _).
  apply read_headers_spec in Hr as (_ & Hall & _).
  unfold hdu_modified. destruct (existsb modified (headers_ hdu)) eqn:E; [|reflexivity].
  apply existsb_exists in E as (h & Hin & Hm).
  apply In_nth_error in Hin as [k Hk].
  destruct (Hall k h Hk) as [(b & _ & Hd) _].
  apply from_buffer_unmodified in Hd. congruence.
Qed.

Lemma read_hdus_unmodified (fuel : nat) (w : World) (self : FileCore) :
  forall (iter : BlockIterator) (hdus0 hdus : list HDU),
  read_hdus fuel w self iter hdus0 = Ok hdus ->
  existsb hdu_modified hdus0 = false -> existsb hdu_modified hdus = false.
Proof.
  induction fuel as [|fuel IH]; intros iter hdus0 hdus; cbn [read_hdus].
  - destruct (done iter); [|discriminate]. intros H; inversion H; auto.
  - destruct (done iter); [intros H; inversion H; auto|].
    destruct (new_HDU w self iter) as [[hdu it1]|e] eqn:Eh; cbn [bind]; [|discriminate].
    intros H H0. apply (IH _ _ _ H).
    rewrite existsb_app, H0. cbn [existsb orb].
    now rewrite (new_HDU_unmodified _ _ _ _ _ Eh).
Qed.

(** X13. A file that has just been opened is not modified: none of its
    HDUs, and none of their cards, reports modified. *)
Theorem opened_file_is_unmodified (path : str) (w : World) (f : File) :
  snd (new_File path w) = Ok f ->
  file_modified f = false /\
  forall hdu h, In hdu (hdus_ f) -> In h (headers_ hdu) -> modified h = false.
Proof.
  intros H. apply new_File_inv in H as (c & _ & _ & _ & _ & Hr).
  apply read_hdus_unmodified in Hr; [|reflexivity].
  split; [exact Hr|]. intros hdu h Hin Hh.
  destruct (modified h) eqn:E; [|reflexivity].
  assert (Hex : existsb hdu_modified (hdus_ f) = true).
  { apply existsb_exists. exists hdu. split; [exact Hin|].
    apply existsb_exists. now exists h. }
  unfold file_modified in Hr. congruence.
Qed.

(** *** The layout of the HDUs in the file *)

Lemma read_headers_loop_bound (fuel : nat) (w : World) (self : FileCore) :
  forall (iter : BlockIterator) (hs0 hs : list Header) (iter' : BlockIterator),
  read_headers_loop fuel w self iter hs0 = Ok (hs, iter') ->
  (n_ iter' <= end_ iter)%Z.
Proof.
  induction fuel as [|fuel IH]; intros iter hs0 hs iter'; cbn [read_headers_loop];
    [discriminate|].
  unfold next, done. destruct (n_ iter >=? end_ iter)%Z eqn:E; cbn [bind]; [discriminate|].
  rewrite Z.geb_leb in E. apply Z.leb_gt in E.
  destruct (block _ _ _) as [[buf|]|e]; cbn [bind]; try discriminate.
  destruct (read_cards _ _ _) as [[hs1 ended]|e]; cbn [bind]; [|discriminate].
  destruct ended.
  - intros H; inversion H; subst. cbn [n_]. lia.
  - intros H. apply IH in H. cbn [end_] in H. exact H.
Qed.

Lemma as_integer_of_Z (z : Z) : as_integer (num_of_Z z) = Some z.
Proof. apply as_integer_inject. reflexivity. Qed.

(** What the constructor of HDU does to the cursor: at least one header
    block is consumed, the extent ends where the cursor is left, and the
    cursor stays within its bound. *)
Lemma new_HDU_cursor (w : World) (self : FileCore) (iter iter' : BlockIterator)
    (hdu : HDU) :
  new_HDU w self iter = Ok (hdu, iter') ->
  (n_ iter < hdu_start hdu <= n_ iter')%Z /\
  as_integer (hdu_end hdu) = Some (n_ iter') /\
  end_ iter' = end_ iter /\ (n_ iter' <= end_ iter)%Z.
Proof.
  intros H. apply new_HDU_inv in H as (it1 & nv & Hr & Hs & _ & Hcase).
  pose proof Hr as Hb. unfold read_headers in Hb. apply read_headers_loop_bound in Hb.
  apply read_headers_spec in Hr as (_ & _ & Hpos & Hend).
  unfold position in *.
  destruct Hcase as [(_ & -> & _ & He) | (_ & bv & size & _ & _ & _ & He & Hskip)].
  - rewrite He, as_integer_of_Z, Hs. repeat split; lia.
  - unfold skip in Hskip.
    destruct (num_div_const size (Z.of_nat blockSize)) as [q|]; cbn [num_ceil] in *;
      [|cbn [as_integer] in Hskip; inversion Hskip].
    rewrite (as_integer_inject _ (Qceiling q) (Qeq_refl _)) in Hskip.
    destruct ((Qceiling q <? 0)%Z || _) eqn:E; inversion Hskip; subst iter'.
    apply orb_false_elim in E as [E1 E2]. apply Z.ltb_ge in E1.
    rewrite Z.gtb_ltb in E2. apply Z.ltb_ge in E2.
    cbn [n_ end_]. rewrite He, Hs. cbn [num_add num_of_Z].
    rewrite (as_integer_inject _ (n_ it1 + Qceiling q)%Z)
      by (now rewrite inject_Z_plus).
    repeat split; lia.
Qed.

Lemma read_hdus_layout (fuel : nat) (w : World) (self : FileCore) :
  forall (iter : BlockIterator) (hdus0 hdus : list HDU),
  read_hdus fuel w self iter hdus0 = Ok hdus ->
  (n_ iter <= end_ iter)%Z ->
  exists new, hdus = hdus0 ++ new /\ layout_chain (n_ iter) new (end_ iter).
Proof.
  induction fuel as [|fuel IH]; intros iter hdus0 hdus; cbn [read_hdus]; unfold done.
  - destruct (n_ iter >=? end_ iter)%Z eqn:E; [|discriminate].
    intros H Hle; inversion H; subst. exists []. rewrite app_nil_r.
    split; [reflexivity|]. cbn [layout_chain]. rewrite Z.geb_leb in E.
    apply Z.leb_le in E. lia.
  - destruct (n_ iter >=? end_ iter)%Z eqn:E.
    + intros H Hle; inversion H; subst. exists []. rewrite app_nil_r.
      split; [reflexivity|]. cbn [layout_chain]. rewrite Z.geb_leb in E.
      apply Z.leb_le in E. lia.
    + destruct (new_HDU w self iter) as [[hdu it1]|e] eqn:Eh; cbn [bind]; [|discriminate].
      intros H Hle. apply new_HDU_cursor in Eh as (Hs & He & Hend & Hb).
      apply IH in H as (new & -> & Hchain); [|lia].
      exists (hdu :: new). rewrite <- app_assoc. split; [reflexivity|].
      cbn [layout_chain]. exists (n_ it1). rewrite Hend in Hchain. auto.
Qed.

(** X14. The layout of an opened file.  The HDUs tile the file: from block
    0 on, each HDU has at least one header block, then its data extent
    [start, end) with an integer end, and the next HDU begins at that end;
    the last extent ends at the block count, so every block of the file
    belongs to exactly one HDU.  A file has at least one HDU. *)
Theorem opened_file_layout (path : str) (w : World) (f : File) :
  snd (new_File path w) = Ok f ->
  layout_chain 0 (hdus_ f) (blockCount_ (core f)) /\
  (0 < blockCount_ (core f))%Z /\ hdus_ f <> [].
Proof.
  intros H. apply new_File_inv in H as (c & _ & Hpos & Hm & Hcore & Hr).
  assert (Hbc : (0 < blockCount_ (core f))%Z).
  { rewrite Hcore. cbn [blockCount_].
    assert (0 < length c / blockSize); [|lia].
    apply Nat.div_str_pos. split; [unfold blockSize; lia|].
    apply Nat.Div0.mod_divides in Hm as [k Hk].
    destruct k; [lia|]. rewrite Hk. nia. }
  apply read_hdus_layout in Hr as (new & Hnew & Hchain).
  - cbn [app] in Hnew. subst new. cbn [blocks block_iterator n_ end_] in Hchain.
    split; [exact Hchain|]. split; [exact Hbc|].
    destruct (hdus_ f); [cbn [layout_chain] in Hchain; lia | discriminate].
  - cbn [blocks block_iterator n_ end_]. lia.
Qed.

(** *** The outcome of the constructor of HDU *)

(** The loop over the axes, as far as the cards are there: it multiplies the
    size by their values and goes on from the next axis. *)
Lemma naxis_loop_prefix (hs : list Header) (dims : list Z) :
  forall (fuel : nat) (i m : Z) (q s0 : Q),
  (q == inject_Z m)%Q -> (i - 1 + Z.of_nat (length dims) <= m)%Z ->
  length dims <= fuel ->
  (forall j, j < length dims ->
     has_number hs (axis_keyword (i + Z.of_nat j)) (nth j dims 0%Z)) ->
  exists s, (s == s0 * inject_Z (fold_right Z.mul 1%Z dims))%Q /\
            naxis_loop fuel i (Num q) hs (Num s0)
            = naxis_loop (fuel - length dims) (i + Z.of_nat (length dims)) (Num q) hs (Num s).
Proof.
  induction dims as [|d ds IH]; intros fuel i m q s0 Hq Hm Hfuel Hdims.
  - exists s0. split.
    + cbn [fold_right]. change (inject_Z 1) with 1%Q. now rewrite Qmult_1_r.
    + cbn [length]. now rewrite Nat.sub_0_r, Z.add_0_r.
  - destruct fuel as [|fuel]; [cbn [length] in Hfuel; lia|].
    cbn [naxis_loop].
    assert (E : num_le (num_of_Z i) (Num q) = true).
    { rewrite (num_le_inject i m q Hq). apply Z.leb_le. cbn [length] in Hm. lia. }
    rewrite E.
    destruct (Hdims 0) as (h & qd & Hfind & Hval & Hqd); [cbn [length]; lia|].
    rewrite Z.add_0_r in Hfind. unfold axis_keyword in Hfind.
    rewrite Hfind. cbn [value_of bind]. rewrite Hval. cbn [ToNumber num_mul].
    destruct (IH fuel (i + 1)%Z m q (s0 * qd)%Q) as (s & Hs & Hloop).
    + exact Hq.
    + cbn [length] in Hm. lia.
    + cbn [length] in Hfuel. lia.
    + intros j Hj.
      replace (i + 1 + Z.of_nat j)%Z with (i + Z.of_nat (S j))%Z by lia.
      apply (Hdims (S j)). cbn [length]. lia.
    + exists s. split.
      * rewrite Hs. cbn [nth fold_right] in *. rewrite Hqd, inject_Z_mult. ring.
      * rewrite Hloop. cbn [length]. f_equal. lia.
Qed.

Lemma new_HDU_eq (w : World) (self : FileCore) (iter it1 : BlockIterator)
    (hs : list Header) :
  read_headers w self iter = Ok (hs, it1) ->
  new_HDU w self iter =
  (naxis_value <- value_of (find_header hs (JStr "NAXIS")) ;;
   if num_gt (ToNumber naxis_value) (num_of_Z 0) then
     bpp_value <- value_of (find_header hs (JStr "BITPIX")) ;;
     size <- naxis_loop (loop_fuel (ToNumber naxis_value)) 1 (ToNumber naxis_value) hs
               (num_abs (num_div_const (ToNumber bpp_value) 8)) ;;
     let count := num_ceil (num_div_const size (Z.of_nat blockSize)) in
     let (it2, r) := skip count it1 in
     _ <- r ;;
     Ok ({| headers_ := hs; size_ := size; hdu_start := position it1;
            hdu_end := num_add (num_of_Z (position it1)) count |}, it2)
   else
     Ok ({| headers_ := hs; size_ := num_of_Z 0; hdu_start := position it1;
            hdu_end := num_of_Z (position it1) |}, it1)).
Proof. intros H. unfold new_HDU. rewrite H. reflexivity. Qed.

Lemma num_gt_inject (q : Q) (n : nat) :
  (q == inject_Z (Z.of_nat n))%Q -> 1 <= n -> num_gt (Num q) (num_of_Z 0) = true.
Proof.
  intros Hq Hn. cbn [num_gt num_of_Z]. apply negb_true_iff.
  destruct (Qle_bool q (inject_Z 0)) eqn:E; [|reflexivity].
  apply Qle_bool_iff in E. rewrite Hq, <- Zle_Qle in E. lia.
Qed.

(** X16. Whether the declared data fit.  When the header cards were read
    and NAXIS = n >= 1, BITPIX and NAXIS1..NAXISn hold integers whose
    products stay within 2^53, where the doubles of the code are exact, the
    constructor of HDU returns exactly when the block count
    ceil(|BITPIX|/8 * product / 2880) is not negative and does not reach
    past the end bound of the cursor, leaving the cursor that many blocks
    behind the header; otherwise -- a file cut short of its data -- it throws
    a RangeError. *)
Theorem HDU_data_must_fit (w : World) (self : FileCore) (iter it1 : BlockIterator)
    (hs : list Header) (n : nat) (bitpix : Z) (dims : list Z) :
  read_headers w self iter = Ok (hs, it1) ->
  has_number hs "NAXIS" (Z.of_nat n) -> 1 <= n ->
  has_number hs "BITPIX" bitpix ->
  length dims = n ->
  (forall i, i < n -> has_number hs (axis_keyword (Z.of_nat (S i))) (nth i dims 0%Z)) ->
  exact_extent bitpix dims ->
  let count := spec_block_count bitpix dims in
  if ((0 <=? count) && (position it1 + count <=? end_ it1))%Z
  then exists hdu,
         new_HDU w self iter
           = Ok (hdu, {| n_ := position it1 + count; end_ := end_ it1 |}) /\
         headers_ hdu = hs /\ hdu_start hdu = position it1 /\
         as_integer (hdu_end hdu) = Some (position it1 + count)%Z
  else new_HDU w self iter = Throw RangeError.
Proof.
  intros Hr (hn & qn & Hfn & Hvn & Hqn) Hn1 (hb & qb & Hfb & Hvb & Hqb) Hlen Hdims _
    count.
  rewrite (new_HDU_eq _ _ _ _ _ Hr).
  rewrite Hfn. cbn [value_of bind]. rewrite Hvn. cbn [ToNumber].
  rewrite (num_gt_inject qn n Hqn Hn1).
  rewrite Hfb. cbn [value_of bind]. rewrite Hvb. cbn [ToNumber num_div_const num_abs].
  assert (Hfuel : loop_fuel (Num qn) = n).
  { cbn [loop_fuel]. rewrite Hqn, Qfloor_Z. apply Nat2Z.id. }
  rewrite Hfuel.
  destruct (naxis_loop_product hs dims n 1 qn (Qabs (qb / inject_Z 8)))
    as (s & Hloop & Hprod).
  { rewrite Hqn, Hlen. replace (1 - 1 + Z.of_nat n)%Z with (Z.of_nat n) by lia. reflexivity. }
  { lia. }
  { intros j Hj. rewrite Hlen in Hj.
    replace (1 + Z.of_nat j)%Z with (Z.of_nat (S j)) by lia. apply (Hdims j Hj). }
  rewrite Hloop. cbn [bind num_div_const num_ceil].
  assert (Hcount : Qceiling (s / inject_Z (Z.of_nat blockSize)) = count).
  { unfold count, spec_block_count. apply Qceiling_comp.
    change (inject_Z (Z.of_nat blockSize)) with 2880%Q.
    rewrite Hprod, Qabs_div8, Hqb. reflexivity. }
  rewrite Hcount. unfold skip, position.
  rewrite (as_integer_inject _ count (Qeq_refl _)).
  destruct (count <? 0)%Z eqn:E1; cbn [orb].
  { apply Z.ltb_lt in E1.
    replace (0 <=? count)%Z with false by (symmetry; apply Z.leb_gt; lia). reflexivity. }
  apply Z.ltb_ge in E1.
  replace (0 <=? count)%Z with true by (symmetry; apply Z.leb_le; lia). cbn [andb].
  rewrite Z.gtb_ltb.
  destruct (n_ it1 + count <=? end_ it1)%Z eqn:E2.
  - apply Z.leb_le in E2.
    replace (end_ it1 <? n_ it1 + count)%Z with false by (symmetry; apply Z.ltb_ge; lia).
    cbn [bind]. eexists. split; [reflexivity|]. cbn [headers_ hdu_start hdu_end].
    split; [reflexivity|]. split; [reflexivity|].
    cbn [num_add num_of_Z]. apply as_integer_inject. now rewrite inject_Z_plus.
  - apply Z.leb_gt in E2.
    replace (end_ it1 <? n_ it1 + count)%Z with true by (symmetry; apply Z.ltb_lt; lia).
    reflexivity.
Qed.

(** X17. A mandatory card that is missing is a TypeError: the constructor
    of HDU throws it when there is no NAXIS card, when NAXIS is at least 1
    and there is no BITPIX card, and when one of the cards NAXIS1..NAXISn is
    not there while those before it are. *)
Theorem HDU_missing_card_is_TypeError (w : World) (self : FileCore)
    (iter it1 : BlockIterator) (hs : list Header) :
  read_headers w self iter = Ok (hs, it1) ->
  (find_header hs (JStr "NAXIS") = None -> new_HDU w self iter = Throw TypeError) /\
  (forall n, has_number hs "NAXIS" (Z.of_nat n) -> 1 <= n ->
     (find_header hs (JStr "BITPIX") = None -> new_HDU w self iter = Throw TypeError) /\
     (forall bitpix dims,
        has_number hs "BITPIX" bitpix -> length dims < n ->
        (forall i, i < length dims ->
           has_number hs (axis_keyword (Z.of_nat (S i))) (nth i dims 0%Z)) ->
        find_header hs (JStr (axis_keyword (Z.of_nat (S (length dims))))) = None ->
        new_HDU w self iter = Throw TypeError)).
Proof.
  intros Hr. rewrite (new_HDU_eq _ _ _ _ _ Hr). split.
  { intros Hn. rewrite Hn. reflexivity. }
  intros n (hn & qn & Hfn & Hvn & Hqn) Hn1.
  rewrite Hfn. cbn [value_of bind]. rewrite Hvn. cbn [ToNumber].
  rewrite (num_gt_inject qn n Hqn Hn1). split.
  { intros Hb. rewrite Hb. reflexivity. }
  intros bitpix dims (hb & qb & Hfb & Hvb & Hqb) Hlen Hdims Hmiss.
  rewrite Hfb. cbn [value_of bind]. rewrite Hvb. cbn [ToNumber num_div_const num_abs].
  assert (Hfuel : loop_fuel (Num qn) = n).
  { cbn [loop_fuel]. rewrite Hqn, Qfloor_Z. apply Nat2Z.id. }
  rewrite Hfuel.
  destruct (naxis_loop_prefix hs dims n 1 (Z.of_nat n) qn (Qabs (qb / inject_Z 8)))
    as (s & _ & Hloop); [exact Hqn | lia | lia | |].
  { intros j Hj. replace (1 + Z.of_nat j)%Z with (Z.of_nat (S j)) by lia.
    apply (Hdims j Hj). }
  rewrite Hloop.
  destruct (n - length dims) as [|fuel] eqn:Ef; [lia|]. cbn [naxis_loop].
  assert (E : num_le (num_of_Z (1 + Z.of_nat (length dims))) (Num qn) = true).
  { rewrite (num_le_inject _ (Z.of_nat n) qn Hqn). apply Z.leb_le. lia. }
  rewrite E. unfold axis_keyword in Hmiss.
  replace (1 + Z.of_nat (length dims))%Z with (Z.of_nat (S (length dims))) by lia.
  rewrite Hmiss. reflexivity.
Qed.

(** *** The loops end *)

Lemma read_cards_no_diverge (offsets : list nat) (buf : bytes) (hs : list Header) :
  read_cards offsets buf hs <> Throw Diverges.
Proof.
  revert hs; induction offsets as [|j offs IH]; intros hs; cbn [read_cards]; [discriminate|].
  destruct (from_buffer _) as [h|e] eqn:Ef; cbn [bind].
  - destruct (str_eqb _ _); [discriminate | apply IH].
  - intros H; inversion H; subst.
    apply from_buffer_throws in Ef as [E|E]; discriminate.
Qed.

Lemma block_no_diverge (w : World) (self : FileCore) (n : number) :
  block w self n <> Throw Diverges.
Proof.
  unfold block. destruct (as_integer n) as [i|]; [|discriminate].
  destruct ((i <? 0)%Z || _); [discriminate|].
  destruct (readSync _ _ _ _) as [[buf count]|e] eqn:Er; cbn [bind].
  - destruct (count =? blockSize); [discriminate|].
    destruct (count =? 0); discriminate.
  - unfold readSync in Er.
    destruct (contents _ _) as [c|e'] eqn:Ec; cbn [bind] in Er; [discriminate|].
    inversion Er; subst. apply contents_throws in Ec as ->. discriminate.
Qed.

Lemma read_headers_fuel (fuel : nat) (w : World) (self : FileCore) :
  forall (iter : BlockIterator) (hs : list Header),
  Z.to_nat (end_ iter - n_ iter) < fuel ->
  read_headers_loop fuel w self iter hs <> Throw Diverges.
Proof.
  induction fuel as [|fuel IH]; intros iter hs Hf; [lia|]. cbn [read_headers_loop].
  unfold next, done. destruct (n_ iter >=? end_ iter)%Z eqn:E; cbn [bind]; [discriminate|].
  rewrite Z.geb_leb in E. apply Z.leb_gt in E.
  pose proof (block_no_diverge w self (num_of_Z (n_ iter))) as Hb.
  destruct (block _ _ _) as [[buf|]|e]; cbn [bind]; [|discriminate|congruence].
  pose proof (read_cards_no_diverge card_offsets buf hs) as Hc.
  destruct (read_cards _ _ _) as [[hs1 ended]|e]; cbn [bind]; [|congruence].
  destruct ended; [discriminate|]. apply IH. cbn [n_ end_]. lia.
Qed.

Lemma naxis_loop_fuel (fuel : nat) (hs : list Header) (bound : number) :
  forall (i : Z) (size : number),
  match bound with
  | Num q => Z.to_nat (Qfloor q - i + 1) <= fuel
  | NaN => True
  end ->
  naxis_loop fuel i bound hs size <> Throw Diverges.
Proof.
  induction fuel as [|fuel IH]; intros i size Hf; cbn [naxis_loop].
  - destruct bound as [q|]; cbn [num_le num_of_Z]; [|discriminate].
    destruct (Qle_bool (inject_Z i) q) eqn:E; [|discriminate].
    apply Qle_bool_iff, Qfloor_resp_le in E. rewrite Qfloor_Z in E. lia.
  - destruct bound as [q|]; cbn [num_le num_of_Z]; [|discriminate].
    destruct (Qle_bool (inject_Z i) q) eqn:E; [|discriminate].
    apply Qle_bool_iff, Qfloor_resp_le in E. rewrite Qfloor_Z in E.
    destruct (value_of _) as [v|e] eqn:Ev; cbn [bind].
    + apply IH. lia.
    + apply value_of_throws in Ev as ->. discriminate.
Qed.

Lemma new_HDU_no_diverge (w : World) (self : FileCore) (iter : BlockIterator) :
  new_HDU w self iter <> Throw Diverges.
Proof.
  unfold new_HDU, read_headers.
  pose proof (read_headers_fuel (S (Z.to_nat (end_ iter - n_ iter))) w self iter []
                ltac:(lia)) as Hr.
  destruct (read_headers_loop _ _ _ _ _) as [[hs it1]|e]; cbn [bind]; [|congruence].
  destruct (value_of (find_header hs (JStr "NAXIS"))) as [nv|e] eqn:En; cbn [bind].
  2:{ apply value_of_throws in En as ->. discriminate. }
  destruct (num_gt _ _); [|discriminate].
  destruct (value_of (find_header hs (JStr "BITPIX"))) as [bv|e] eqn:Eb; cbn [bind].
  2:{ apply value_of_throws in Eb as ->. discriminate. }
  match goal with |- context [naxis_loop ?f ?i ?b ?h ?s] =>
    pose proof (naxis_loop_fuel f h b i s) as Hl;
    destruct (naxis_loop f i b h s) as [size|e] end; cbn [bind].
  - match goal with |- context [skip ?c ?it] =>
      destruct (skip c it) as [it2 [u|e]] eqn:Es end; cbn [bind]; [discriminate|].
    unfold skip in Es. destruct (as_integer _); [destruct (_ || _)|];
      inversion Es; discriminate.
  - intros H; inversion H; subst e. apply Hl; [|reflexivity].
    destruct (ToNumber nv) as [q|]; [|exact I]. cbn [loop_fuel]. lia.
Qed.

Lemma read_hdus_fuel (fuel : nat) (w : World) (self : FileCore) :
  forall (iter : BlockIterator) (hdus : list HDU),
  Z.to_nat (end_ iter - n_ iter) <= fuel ->
  read_hdus fuel w self iter hdus <> Throw Diverges.
Proof.
  induction fuel as [|fuel IH]; intros iter hdus Hf; cbn [read_hdus]; unfold done.
  - destruct (n_ iter >=? end_ iter)%Z eqn:E; [discriminate|].
    rewrite Z.geb_leb in E. apply Z.leb_gt in E. lia.
  - destruct (n_ iter >=? end_ iter)%Z eqn:E; [discriminate|].
    rewrite Z.geb_leb in E. apply Z.leb_gt in E.
    pose proof (new_HDU_no_diverge w self iter) as Hn.
    destruct (new_HDU w self iter) as [[hdu it1]|e] eqn:Eh; cbn [bind]; [|congruence].
    apply new_HDU_cursor in Eh as (Hs & _ & Hend & _).
    apply IH. rewrite Hend. lia.
Qed.

(** X15. Opening a file and constructing an HDU always end.  Each round of
    the header loop takes a block from the cursor, the loop over the axes
    runs at most floor(NAXIS) times, and every HDU moves the cursor forward,
    so none of the three loops runs out of rounds: the constructors return
    or throw one of their errors. *)
Theorem constructors_terminate (path : str) (w : World) (self : FileCore)
    (iter : BlockIterator) :
  snd (new_File path w) <> Throw Diverges /\
  new_HDU w self iter <> Throw Diverges.
Proof.
  split; [|apply new_HDU_no_diverge].
  unfold new_File. destruct (openSync path w) as [w1 [fd|e]] eqn:Eo; cbn [snd].
  2:{ unfold openSync in Eo. destruct (lookup_path _ _); inversion Eo. discriminate. }
  destruct (fstatSync_size fd w1) as [size|e] eqn:Es; cbn [bind].
  2:{ unfold fstatSync_size in Es.
      destruct (contents fd w1) as [c|e'] eqn:Ec; cbn [bind] in Es; [discriminate|].
      inversion Es; subst. apply contents_throws in Ec as ->. discriminate. }
  destruct (size =? 0); [discriminate|].
  destruct (negb _); [discriminate|].
  match goal with |- context [read_hdus ?f ?w ?s ?it ?h] =>
    pose proof (read_hdus_fuel f w s it h) as Hh;
    destruct (read_hdus f w s it h) as [hdus|e] end; cbn [bind]; [discriminate|].
  intros H; inversion H; subst e. apply Hh; [|reflexivity].
  cbn [blocks block_iterator n_ end_ blockCount_]. lia.
Qed.

End LayoutInvariants.

(** *** The further properties on the examples *)

Section FurtherExamples.

Import DecimalHost.

Lemma card_rendering_is_80_characters_witness :
  let h1 := fst (run [Set_units (JStr "m"); Do_toString] Examples.naxis1_card) in
  length (buffer_ (raw_of h1)) = headerSize /\
  forall h2 s, toString h1 = (h2, Ok s) -> length s = headerSize.
Proof.
  apply (card_rendering_is_80_characters Examples.naxis1_card
           [Set_units (JStr "m"); Do_toString]).
  right; left.
  exists (list_ascii_of_string "naxis1"), (JNum (num_of_Z 100)),
         (JStr "pixel"), (JStr "length of axis 1").
  vm_compute. reflexivity.
Defined.

Lemma toString_is_memoized_witness :
  let h1 := fst (toString Examples.naxis1_card) in
  toString h1 = (h1, Ok (Examples.record Examples.naxis1_card)) /\
  match h1 with HValue v => dirty_ v = false | _ => True end.
Proof.
  apply (toString_is_memoized Examples.naxis1_card
           (fst (toString Examples.naxis1_card))
           (Examples.record Examples.naxis1_card)).
  vm_compute. reflexivity.
Defined.

Lemma built_card_keyword_witness :
  keyword Examples.naxis1_card
    = trimEnd (Buffer_toString
                 (firstn keySize (low_bytes (toUpperCase (substring 0 keySize "naxis1")))))
    /\
  length (keyword Examples.naxis1_card) <= keySize.
Proof.
  apply (built_card_keyword "naxis1" (JNum (num_of_Z 100))
           (JStr "pixel") (JStr "length of axis 1") Examples.naxis1_card).
  vm_compute. reflexivity.
Defined.

Lemma rejected_value_blocks_rendering_witness :
  let h1 := fst (step (Set_value JNull) (HValue Examples.naxis_value)) in
  let h' := fst (run [Set_units (JStr "m"); Do_toString] h1) in
  snd (step (Set_value JNull) (HValue Examples.naxis_value)) = Throw TypeError /\
  value h' = JNull /\ raw_of h' = super Examples.naxis_value /\
  toString h'
  = (h', if card_dirty h' then Throw TypeError
         else Ok (raw_toString (super Examples.naxis_value))).
Proof.
  apply (rejected_value_blocks_rendering Examples.naxis_value JNull
           [Set_units (JStr "m"); Do_toString]); reflexivity.
Defined.

Lemma decoded_fields_are_trimmed_witness :
  let h := Examples.decoded Examples.scenario_card_DIST in
  (trimEnd (keyword h) = keyword h /\ length (keyword h) <= keySize) /\
  (forall c, comment h = Some c -> trimStart c = c /\ trimEnd c = c) /\
  (forall a, value h = JStr a -> trimEnd a = a) /\
  (forall u, units h = Some u -> u <> [] /\ ~ In "]"%char u) /\
  (units h <> None -> comment h <> None).
Proof.
  apply (decoded_fields_are_trimmed Examples.scenario_card_DIST
           (Examples.decoded Examples.scenario_card_DIST)).
  vm_compute. reflexivity.
Defined.

Lemma from_buffer_failures_witness :
  commentary_keyword (raw_keyword (raw_of_buffer Examples.empty_units_card)) = false /\
  has_value (raw_of_buffer Examples.empty_units_card) = true /\
  (MalformedUnits = MalformedUnits \/
   (MalformedUnits = StringValueParserError /\
    startsWith [QUOTE]
      (trimStart (raw_substring (keySize + 2) headerSize
                    (raw_of_buffer Examples.empty_units_card))) = true)).
Proof.
  apply (from_buffer_failures Examples.empty_units_card MalformedUnits).
  vm_compute. reflexivity.
Defined.

Lemma block_random_access_witness :
  let w := Examples.world_open "image.fits" in
  (block w Examples.image_core (num_of_Z 2)
     = Ok (Some (firstn blockSize (skipn (2 * blockSize) Examples.image_file))) /\
   length (firstn blockSize (skipn (2 * blockSize) Examples.image_file)) = blockSize) /\
  block w Examples.image_core (num_of_Z 4) = Throw RangeError.
Proof.
  split.
  - apply (block_random_access (Examples.world_open "image.fits") Examples.image_core
             Examples.image_file (num_of_Z 2)); vm_compute; reflexivity.
  - apply (block_random_access (Examples.world_open "image.fits") Examples.image_core
             Examples.image_file (num_of_Z 4)); vm_compute; reflexivity.
Defined.

Lemma opened_file_is_unmodified_witness :
  file_modified (Examples.opened "image.fits") = false /\
  forall hdu h, In hdu (hdus_ (Examples.opened "image.fits")) ->
                In h (headers_ hdu) -> modified h = false.
Proof.
  apply (opened_file_is_unmodified "image.fits" Examples.world
           (Examples.opened "image.fits")).
  vm_compute. reflexivity.
Defined.

Lemma opened_file_layout_witness :
  layout_chain 0 (hdus_ (Examples.opened "image.fits"))
    (blockCount_ (core (Examples.opened "image.fits"))) /\
  (0 < blockCount_ (core (Examples.opened "image.fits")))%Z /\
  hdus_ (Examples.opened "image.fits") <> [].
Proof.
  apply (opened_file_layout "image.fits" Examples.world (Examples.opened "image.fits")).
  vm_compute. reflexivity.
Defined.

Lemma HDU_data_must_fit_witness :
  (exists hdu,
     new_HDU (Examples.world_open "image.fits") Examples.image_core
       (blocks Examples.image_core)
       = Ok (hdu, {| n_ := 1 + spec_block_count 16 [100; 30]%Z; end_ := 4 |}) /\
     headers_ hdu = headers_ Examples.image_hdu /\ hdu_start hdu = 1%Z /\
     as_integer (hdu_end hdu) = Some (1 + spec_block_count 16 [100; 30]%Z)%Z) /\
  new_HDU (Examples.broken_open "cut.fits") Examples.cut_core
    (blocks Examples.cut_core) = Throw RangeError.
Proof.
  split.
  - apply (HDU_data_must_fit (Examples.world_open "image.fits") Examples.image_core
             (blocks Examples.image_core) {| n_ := 1; end_ := 4 |}
             (headers_ Examples.image_hdu) 2 16 [100; 30]%Z).
    + vm_compute. reflexivity.
    + eexists; eexists. split; [vm_compute; reflexivity|].
      split; [vm_compute; reflexivity | reflexivity].
    + lia.
    + eexists; eexists. split; [vm_compute; reflexivity|].
      split; [vm_compute; reflexivity | reflexivity].
    + reflexivity.
    + intros [|[|i]] Hi; [| |lia];
        (eexists; eexists; split; [vm_compute; reflexivity|];
         split; [vm_compute; reflexivity | reflexivity]).
    + unfold exact_extent. vm_compute. discriminate.
  - apply (HDU_data_must_fit (Examples.broken_open "cut.fits") Examples.cut_core
             (blocks Examples.cut_core) {| n_ := 1; end_ := 2 |}
             (Examples.broken_headers "cut.fits" Examples.cut_core) 2 16 [100; 30]%Z).
    + vm_compute. reflexivity.
    + eexists; eexists. split; [vm_compute; reflexivity|].
      split; [vm_compute; reflexivity | reflexivity].
    + lia.
    + eexists; eexists. split; [vm_compute; reflexivity|].
      split; [vm_compute; reflexivity | reflexivity].
    + reflexivity.
    + intros [|[|i]] Hi; [| |lia];
        (eexists; eexists; split; [vm_compute; reflexivity|];
         split; [vm_compute; reflexivity | reflexivity]).
    + unfold exact_extent. vm_compute. discriminate.
Defined.

Lemma HDU_missing_card_is_TypeError_witness :
  new_HDU (Examples.broken_open "noaxis.fits") Examples.noaxis_core
    (blocks Examples.noaxis_core) = Throw TypeError.
Proof.
  refine (proj2 (proj2 (HDU_missing_card_is_TypeError
            (Examples.broken_open "noaxis.fits") Examples.noaxis_core
            (blocks Examples.noaxis_core) {| n_ := 1; end_ := 1 |}
            (Examples.broken_headers "noaxis.fits" Examples.noaxis_core) _) 2 _ _)
          16%Z [100%Z] _ _ _ _).
  - vm_compute. reflexivity.
  - eexists; eexists. split; [vm_compute; reflexivity|].
    split; [vm_compute; reflexivity | reflexivity].
  - lia.
  - eexists; eexists. split; [vm_compute; reflexivity|].
    split; [vm_compute; reflexivity | reflexivity].
  - cbn [length]. lia.
  - intros [|i] Hi; [|cbn [length] in Hi; lia].
    eexists; eexists. split; [vm_compute; reflexivity|].
    split; [vm_compute; reflexivity | reflexivity].
  - vm_compute. reflexivity.
Defined.

End FurtherExamples.

(** * Further properties: writing a file *)

Section WriteProperties.

Context {host : NumberHost}.

(** *** The device under a write *)

Lemma lookup_store_same (p : str) (c : bytes) (d : list (str * bytes)) :
  lookup_path p (store_path p c d) = Some c.
Proof.
  induction d as [|[q c0] d IH]; cbn [store_path lookup_path].
  - now rewrite str_eqb_refl.
  - destruct (str_eqb q p) eqn:E; cbn [lookup_path]; rewrite E; [reflexivity | exact IH].
Qed.

Lemma lookup_store_other (p q : str) (c : bytes) (d : list (str * bytes)) :
  q <> p -> lookup_path q (store_path p c d) = lookup_path q d.
Proof.
  intros Hn. induction d as [|[r c0] d IH]; cbn [store_path lookup_path].
  - destruct (str_eqb p q) eqn:E; [apply str_eqb_eq in E; congruence | reflexivity].
  - destruct (str_eqb r p) eqn:E; cbn [lookup_path].
    + apply str_eqb_eq in E; subst r.
      destruct (str_eqb p q) eqn:E2; [apply str_eqb_eq in E2; congruence | reflexivity].
    + destruct (str_eqb r q); [reflexivity | exact IH].
Qed.

Lemma frame_refl (fd : nat) (w : World) : frame fd w w.
Proof. repeat split. Qed.

Lemma frame_trans (fd : nat) (w1 w2 w3 : World) :
  frame fd w1 w2 -> frame fd w2 w3 -> frame fd w1 w3.
Proof.
  intros (H1 & N1 & D1) (H2 & N2 & D2). repeat split; try congruence.
  intros q Hq. rewrite D2, D1; [reflexivity | exact Hq | now rewrite H1].
Qed.

Lemma writeSync_frame (fd : nat) (data : bytes) (pos : nat) (w : World) :
  frame fd w (fst (writeSync fd data pos w)).
Proof.
  unfold writeSync. destruct (lookup_fd fd (handles w)) as [p|] eqn:Ef; [|apply frame_refl].
  destruct (lookup_path p (disk w)) as [c|]; [|apply frame_refl].
  cbn [fst]. repeat split. cbn [disk handles]. intros q Hq.
  apply lookup_store_other. congruence.
Qed.

Lemma writeSync_buffer_frame (fd : nat) (b : option bytes) (o l pos : nat) (w : World) :
  frame fd w (fst (writeSync_buffer fd b o l pos w)).
Proof.
  unfold writeSync_buffer. destruct b as [b|]; [|apply frame_refl].
  destruct (length b <? o + l); [apply frame_refl | apply writeSync_frame].
Qed.

Lemma write_headers_frame (fd : nat) (cards : list Header) :
  forall (pos hwn : nat) (w : World),
  frame fd w (snd (fst (write_headers fd cards pos hwn w))).
Proof.
  induction cards as [|h rest IH]; intros pos hwn w; cbn [write_headers].
  - apply frame_refl.
  - destruct (toString h) as [h' [s|e]]; [|apply frame_refl].
    pose proof (writeSync_frame fd (utf8_encode s) pos w) as Hw.
    unfold writeSync_string.
    destruct (writeSync fd (utf8_encode s) pos w) as [w1 [n|e]]; cbn [fst] in Hw;
      [|exact Hw].
    specialize (IH (pos + n) (hwn + headerSize) w1).
    destruct (write_headers fd rest (pos + n) (hwn + headerSize) w1)
      as [[[[rest' pos'] hwn'] w2] r]. cbn [fst snd] in *.
    eapply frame_trans; eassumption.
Qed.

Lemma pad_header_block_frame (fuel : nat) (fd : nat) :
  forall (pos hwn : nat) (w : World),
  frame fd w (snd (fst (pad_header_block fuel fd pos hwn w))).
Proof.
  induction fuel as [|fuel IH]; intros pos hwn w; cbn [pad_header_block];
    destruct (hwn mod blockSize =? 0); try apply frame_refl.
  pose proof (writeSync_frame fd (utf8_encode (repeat SPACE headerSize)) pos w) as Hw.
  unfold writeSync_string.
  destruct (writeSync fd _ pos w) as [w1 [n|e]]; cbn [fst] in Hw; [|exact Hw].
  eapply frame_trans; [exact Hw | apply IH].
Qed.

Lemma copy_blocks_frame (fuel : nat) (fd : nat) (self : FileCore) :
  forall (it : RangeIterator) (pos : nat) (w : World),
  frame fd w (snd (fst (copy_blocks fuel fd self it pos w))).
Proof.
  induction fuel as [|fuel IH]; intros it pos w; cbn [copy_blocks];
    destruct (range_done it) eqn:Ed; try apply frame_refl.
  unfold range_next. rewrite Ed.
  destruct (block w self _) as [blk|e]; [|apply frame_refl].
  pose proof (writeSync_buffer_frame fd blk 0 blockSize pos w) as Hw.
  destruct (writeSync_buffer fd blk 0 blockSize pos w) as [w1 [n|e]]; cbn [fst] in Hw;
    [|exact Hw].
  eapply frame_trans; [exact Hw | apply IH].
Qed.

Lemma write_hdu_frame (fd : nat) (self : FileCore) (hdu : HDU) (pos : nat) (w : World) :
  frame fd w (snd (fst (write_hdu fd self hdu pos w))).
Proof.
  unfold write_hdu. cbn [headers].
  pose proof (write_headers_frame fd (headers_ hdu) pos 0 w) as H1.
  destruct (write_headers fd (headers_ hdu) pos 0 w) as [[[[cards pos1] hwn] w1] [u|e]];
    cbn [fst snd] in *; [|exact H1].
  pose proof (pad_header_block_frame (blockSize / headerSize) fd pos1 hwn w1) as H2.
  destruct (pad_header_block _ fd pos1 hwn w1) as [[pos2 w2] [u2|e]];
    cbn [fst snd] in *; [|eapply frame_trans; eassumption].
  match goal with |- context [copy_blocks ?f fd self ?it pos2 w2] =>
    pose proof (copy_blocks_frame f fd self it pos2 w2) as H3;
    destruct (copy_blocks f fd self it pos2 w2) as [[pos3 w3] r] end.
  cbn [fst snd] in *. eapply frame_trans; [|exact H3]. eapply frame_trans; eassumption.
Qed.

Lemma write_hdus_frame (fd : nat) (self : FileCore) (hdus : list HDU) :
  forall (pos : nat) (w : World),
  frame fd w (snd (fst (write_hdus fd self hdus pos w))).
Proof.
  induction hdus as [|hdu rest IH]; intros pos w; cbn [write_hdus].
  - apply frame_refl.
  - pose proof (write_hdu_frame fd self hdu pos w) as H1.
    destruct (write_hdu fd self hdu pos w) as [[[hdu' pos1] w1] [u|e]];
      cbn [fst snd] in *; [|exact H1].
    specialize (IH pos1 w1).
    destruct (write_hdus fd self rest pos1 w1) as [[[rest' pos2] w2] r].
    cbn [fst snd] in *. eapply frame_trans; eassumption.
Qed.

(** *** The descriptor of the output *)

Lemma lookup_fd_filter (fd x : nat) (h : list (nat * str)) :
  lookup_fd fd (filter (fun e => negb (fst e =? x)) h)
  = if fd =? x then None else lookup_fd fd h.
Proof.
  induction h as [|[g p] h IH]; cbn [filter lookup_fd fst].
  - now destruct (fd =? x).
  - destruct (g =? x) eqn:E; cbn [negb lookup_fd].
    + apply Nat.eqb_eq in E; subst g. rewrite IH.
      destruct (fd =? x) eqn:E2; [reflexivity|].
      rewrite Nat.eqb_sym, E2. reflexivity.
    + rewrite IH. destruct (g =? fd) eqn:E2; [|reflexivity].
      apply Nat.eqb_eq in E2; subst g. now rewrite E.
Qed.

(** X18: [write] opens one descriptor and touches no file but its output;
    when it returns, that descriptor is closed and the other descriptors are
    as they were; when it throws, the descriptor is left open. *)
Theorem write_descriptor (path : str) (f : File) (w : World) :
  let w' := snd (fst (write path f w)) in
  next_fd w' = S (next_fd w) /\
  core (fst (fst (write path f w))) = core f /\
  (forall q, q <> path -> lookup_path q (disk w') = lookup_path q (disk w)) /\
  match snd (write path f w) with
  | Ok _ =>
      is_open (next_fd w) w' = false /\
      forall fd, fd <> next_fd w -> lookup_fd fd (handles w') = lookup_fd fd (handles w)
  | Throw _ =>
      handles w' = (next_fd w, path) :: handles w /\ is_open (next_fd w) w' = true
  end.
Proof.
  unfold write, openSync_w.
  set (w0 := {| disk := store_path path [] (disk w);
                handles := (next_fd w, path) :: handles w;
                next_fd := S (next_fd w) |}).
  pose proof (write_hdus_frame (next_fd w) (core f) (hdus_ f) 0 w0) as Hf.
  destruct (write_hdus (next_fd w) (core f) (hdus_ f) 0 w0) as [[[hdus pos] w1] r].
  cbn [fst snd] in Hf. destruct Hf as (Hh & Hn & Hd).
  assert (Hopen : is_open (next_fd w) w1 = true).
  { unfold is_open. rewrite Hh. cbn [w0 handles lookup_fd]. now rewrite Nat.eqb_refl. }
  assert (Hdisk : forall q, q <> path -> lookup_path q (disk w1) = lookup_path q (disk w)).
  { intros q Hq. rewrite Hd.
    - cbn [w0 disk]. now apply lookup_store_other.
    - cbn [w0 handles lookup_fd]. rewrite Nat.eqb_refl. congruence. }
  destruct r as [u|e]; cbn [fst snd core].
  - unfold closeSync. rewrite Hopen. cbn [fst snd next_fd disk handles].
    repeat split; try assumption.
    + unfold is_open. cbn [handles]. now rewrite lookup_fd_filter, Nat.eqb_refl.
    + intros fd Hfd. rewrite lookup_fd_filter.
      apply Nat.eqb_neq in Hfd. rewrite Hfd, Hh. cbn [w0 handles lookup_fd].
      rewrite Nat.eqb_sym, Hfd. reflexivity.
  - repeat split; assumption.
Qed.

(** *** The cards under a write *)

Lemma same_fields_refl (h : Header) : same_fields h h.
Proof. repeat split. Qed.

Lemma Forall2_same_fields_refl (l : list Header) : Forall2 same_fields l l.
Proof. induction l; constructor; auto using same_fields_refl. Qed.

Lemma toString_fields (h : Header) :
  same_fields h (fst (toString h)) /\
  (forall s, snd (toString h) = Ok s -> card_dirty (fst (toString h)) = false).
Proof.
  destruct h as [r|r|v]; cbn [toString fst snd card_dirty];
    try (split; [apply same_fields_refl | reflexivity]).
  unfold value_toString. destruct (dirty_ v) eqn:Hd; cbn [fst snd card_dirty].
  2:{ split; [apply same_fields_refl | intros _ _; exact Hd]. }
  unfold update, update_svalue.
  destruct (format_value (value_ v)) as [sv|]; cbn [fst snd card_dirty].
  2:{ split; [apply same_fields_refl | discriminate]. }
  match goal with |- context [_write ?d ?o ?l ?r] =>
    pose proof (_write_modified d o l r) as Hw;
    destruct (_write d o l r) as [r' [u|e]] end;
    cbn [fst snd card_dirty] in *.
  - split; [|reflexivity].
    unfold same_fields, value, units, comment, modified, value_modified, raw_modified,
      get_value, get_units, get_comment.
    cbn. rewrite Hd, Hw. repeat split.
  - split; [|discriminate].
    unfold same_fields, value, units, comment, modified, value_modified, raw_modified,
      get_value, get_units, get_comment.
    cbn. rewrite Hd. repeat split.
Qed.

Lemma write_headers_fields (fd : nat) (cards : list Header) :
  forall (pos hwn : nat) (w : World),
  let out := write_headers fd cards pos hwn w in
  Forall2 same_fields cards (fst (fst (fst (fst out)))) /\
  (snd out = Ok tt -> Forall (fun h => card_dirty h = false) (fst (fst (fst (fst out))))).
Proof.
  induction cards as [|h rest IH]; intros pos hwn w; cbn [write_headers].
  - cbn. split; constructor.
  - destruct (toString_fields h) as (Hs & Hc).
    destruct (toString h) as [h' [s|e]]; cbn [fst snd] in *.
    2:{ split; [|discriminate]. constructor; [exact Hs | apply Forall2_same_fields_refl]. }
    destruct (writeSync_string fd s pos w) as [w1 [n|e]]; cbn [fst snd].
    2:{ split; [|discriminate]. constructor; [exact Hs | apply Forall2_same_fields_refl]. }
    specialize (IH (pos + n) (hwn + headerSize) w1). cbn zeta in IH.
    destruct (write_headers fd rest (pos + n) (hwn + headerSize) w1)
      as [[[[rest' pos'] hwn'] w2] r]. cbn [fst snd] in *.
    destruct IH as (IH1 & IH2). split.
    + now constructor.
    + intros Hr. constructor; [now apply (Hc s) | now apply IH2].
Qed.

Lemma write_hdu_fields (fd : nat) (self : FileCore) (hdu : HDU) (pos : nat) (w : World) :
  let out := write_hdu fd self hdu pos w in
  same_cards hdu (fst (fst (fst out))) /\
  (snd out = Ok tt ->
   Forall (fun h => card_dirty h = false) (headers_ (fst (fst (fst out))))).
Proof.
  unfold write_hdu. cbn [headers].
  destruct (write_headers_fields fd (headers_ hdu) pos 0 w) as (H1 & H2).
  destruct (write_headers fd (headers_ hdu) pos 0 w) as [[[[cards pos1] hwn] w1] r].
  cbn [fst snd] in *.
  assert (Hs : same_cards hdu (with_headers cards hdu)) by (repeat split; exact H1).
  destruct r as [[]|e]; cbn [fst snd]; [|split; [exact Hs | discriminate]].
  destruct (pad_header_block _ fd pos1 hwn w1) as [[pos2 w2] [u2|e]];
    cbn [fst snd]; [|split; [exact Hs | discriminate]].
  destruct (copy_blocks _ fd self _ pos2 w2) as [[pos3 w3] r]. cbn [fst snd].
  split; [exact Hs|]. intros _. now apply H2.
Qed.

Lemma same_cards_refl (hdu : HDU) : same_cards hdu hdu.
Proof. repeat split. apply Forall2_same_fields_refl. Qed.

Lemma write_hdus_fields (fd : nat) (self : FileCore) (hdus : list HDU) :
  forall (pos : nat) (w : World),
  let out := write_hdus fd self hdus pos w in
  Forall2 same_cards hdus (fst (fst (fst out))) /\
  (snd out = Ok tt ->
   Forall (fun hdu => Forall (fun h => card_dirty h = false) (headers_ hdu))
     (fst (fst (fst out)))).
Proof.
  induction hdus as [|hdu rest IH]; intros pos w; cbn [write_hdus].
  - cbn. split; constructor.
  - destruct (write_hdu_fields fd self hdu pos w) as (H1 & H2).
    destruct (write_hdu fd self hdu pos w) as [[[hdu' pos1] w1] r]. cbn [fst snd] in *.
    destruct r as [[]|e]; cbn [fst snd].
    2:{ split; [|discriminate]. constructor; [exact H1|].
        clear. induction rest; constructor; auto using same_cards_refl. }
    specialize (IH pos1 w1). cbn zeta in IH.
    destruct (write_hdus fd self rest pos1 w1) as [[[rest' pos2] w2] r].
    cbn [fst snd] in *. destruct IH as (IH1 & IH2). split.
    + now constructor.
    + intros Hr. constructor; [now apply H2 | now apply IH2].
Qed.

Lemma same_fields_modified (l l' : list Header) :
  Forall2 same_fields l l' -> existsb modified l' = existsb modified l.
Proof.
  induction 1 as [|h h' l l' (_ & _ & _ & Hm) _ IH]; [reflexivity|].
  cbn [existsb]. now rewrite Hm, IH.
Qed.

Lemma same_cards_modified (l l' : list HDU) :
  Forall2 same_cards l l' -> existsb hdu_modified l' = existsb hdu_modified l.
Proof.
  induction 1 as [|h h' l l' (_ & _ & _ & Hm) _ IH]; [reflexivity|].
  cbn [existsb]. unfold hdu_modified at 1 3. now rewrite (same_fields_modified _ _ Hm), IH.
Qed.

(** X19: [write] renders the cards where they are and changes nothing else
    of them: the HDUs keep their extents, every card keeps its value, its
    units, its comment and its modified flag, so a modified file is still
    modified after it is written; when [write] returns, no card waits for
    its rendering any more. *)
Theorem write_keeps_cards (path : str) (f : File) (w : World) :
  let f' := fst (fst (write path f w)) in
  Forall2 same_cards (hdus_ f) (hdus_ f') /\
  file_modified f' = file_modified f /\
  (snd (write path f w) = Ok tt ->
   forall hdu h, In hdu (hdus_ f') -> In h (headers_ hdu) -> card_dirty h = false).
Proof.
  unfold write, openSync_w.
  match goal with |- context [write_hdus ?fd ?self ?hdus 0 ?w0] =>
    destruct (write_hdus_fields fd self hdus 0 w0) as (H1 & H2);
    destruct (write_hdus fd self hdus 0 w0) as [[[hdus' pos] w1] r] end.
  cbn [fst snd] in *.
  assert (Hm : existsb hdu_modified hdus' = existsb hdu_modified (hdus_ f))
    by now apply same_cards_modified.
  destruct r as [[]|e]; cbn [fst snd hdus_].
  - destruct (closeSync _ w1) as [w2 r2]. cbn [fst snd hdus_].
    split; [exact H1|]. split; [exact Hm|].
    intros _ hdu h Hhdu Hh. specialize (H2 eq_refl).
    rewrite Forall_forall in H2. specialize (H2 hdu Hhdu).
    rewrite Forall_forall in H2. now apply H2.
  - split; [exact H1|]. split; [exact Hm|]. discriminate.
Qed.

(** *** The loops of [write] end *)

Lemma toString_no_diverge (h : Header) : snd (toString h) <> Throw Diverges.
Proof.
  destruct h as [r|r|v]; cbn [toString snd]; try discriminate.
  unfold value_toString. destruct (dirty_ v); cbn [snd]; [|discriminate].
  unfold update, update_svalue.
  destruct (format_value (value_ v)); cbn [snd]; [|discriminate].
  unfold _write, Buffer_write. cbn [buffer_ modified_].
  match goal with |- context [if ?c then Throw RangeError else _] => destruct c end;
    cbn [snd]; discriminate.
Qed.

Lemma writeSync_no_diverge (fd : nat) (data : bytes) (pos : nat) (w : World) :
  snd (writeSync fd data pos w) <> Throw Diverges.
Proof.
  unfold writeSync. destruct (lookup_fd fd (handles w)) as [p|]; [|discriminate].
  destruct (lookup_path p (disk w)); discriminate.
Qed.

Lemma writeSync_buffer_no_diverge (fd : nat) (b : option bytes) (o l pos : nat)
    (w : World) :
  snd (writeSync_buffer fd b o l pos w) <> Throw Diverges.
Proof.
  unfold writeSync_buffer. destruct b as [b|]; [|discriminate].
  destruct (length b <? o + l); [discriminate | apply writeSync_no_diverge].
Qed.

Lemma write_headers_count (fd : nat) (cards : list Header) :
  forall (pos hwn : nat) (w : World),
  let out := write_headers fd cards pos hwn w in
  snd out <> Throw Diverges /\
  (snd out = Ok tt -> snd (fst (fst out)) = hwn + length cards * headerSize).
Proof.
  induction cards as [|h rest IH]; intros pos hwn w; cbn [write_headers].
  - cbn. split; [discriminate | lia].
  - pose proof (toString_no_diverge h) as Ht.
    destruct (toString h) as [h' [s|e]]; cbn [fst snd] in *.
    2:{ split; [congruence | discriminate]. }
    pose proof (writeSync_no_diverge fd (utf8_encode s) pos w) as Hw.
    unfold writeSync_string.
    destruct (writeSync fd (utf8_encode s) pos w) as [w1 [n|e]]; cbn [fst snd] in *.
    2:{ split; [congruence | discriminate]. }
    specialize (IH (pos + n) (hwn + headerSize) w1). cbn zeta in IH.
    destruct (write_headers fd rest (pos + n) (hwn + headerSize) w1)
      as [[[[rest' pos'] hwn'] w2] r]. cbn [fst snd length] in *.
    destruct IH as (IH1 & IH2). split; [exact IH1|].
    intros Hr. rewrite (IH2 Hr). lia.
Qed.

Lemma whole_blocks (k : nat) :
  k mod cards_per_block = 0 -> (k * headerSize) mod blockSize = 0.
Proof.
  intros Hk. change blockSize with (cards_per_block * headerSize).
  rewrite Nat.Div0.mul_mod_distr_r, Hk. reflexivity.
Qed.

Lemma pad_header_block_fuel (fd : nat) (fuel : nat) :
  forall (pos hwn : nat) (w : World) (k j : nat),
  hwn = k * headerSize -> (k + j) mod cards_per_block = 0 -> j <= fuel ->
  snd (pad_header_block fuel fd pos hwn w) <> Throw Diverges.
Proof.
  induction fuel as [|fuel IH]; intros pos hwn w k j Hk Hj Hle;
    cbn [pad_header_block]; destruct (hwn mod blockSize =? 0) eqn:E;
    cbn [snd]; try discriminate; apply Nat.eqb_neq in E.
  - exfalso. apply E. subst hwn. apply whole_blocks.
    replace j with 0 in Hj by lia. now rewrite Nat.add_0_r in Hj.
  - assert (Hj0 : j <> 0).
    { intros ->. apply E. subst hwn. apply whole_blocks.
      now rewrite Nat.add_0_r in Hj. }
    pose proof (writeSync_no_diverge fd (utf8_encode (repeat SPACE headerSize)) pos w)
      as Hw.
    unfold writeSync_string.
    destruct (writeSync fd _ pos w) as [w1 [n|e]]; cbn [snd] in *; [|congruence].
    apply (IH _ _ _ (S k) (j - 1)).
    + subst hwn. cbn [Nat.mul]. lia.
    + replace (S k + (j - 1)) with (k + j) by lia. exact Hj.
    + lia.
Qed.

Lemma block_in_range (w : World) (self : FileCore) (n : Z) (b : option bytes) :
  block w self (num_of_Z n) = Ok b -> (0 <= n < blockCount_ self)%Z.
Proof.
  unfold block. rewrite as_integer_of_Z.
  destruct (n <? 0)%Z eqn:E1; cbn [orb]; [discriminate|].
  destruct (n >=? blockCount_ self)%Z eqn:E2; [discriminate|].
  intros _. rewrite Z.geb_leb in E2. apply Z.ltb_ge in E1. apply Z.leb_gt in E2. lia.
Qed.

Lemma copy_blocks_fuel (fd : nat) (self : FileCore) (fuel : nat) :
  forall (it : RangeIterator) (pos : nat) (w : World),
  Z.to_nat (blockCount_ self - rn_ it) < fuel ->
  snd (copy_blocks fuel fd self it pos w) <> Throw Diverges.
Proof.
  induction fuel as [|fuel IH]; intros it pos w Hf; [lia|].
  cbn [copy_blocks]. destruct (range_done it) eqn:Ed; cbn [snd]; [discriminate|].
  unfold range_next. rewrite Ed.
  pose proof (block_no_diverge w self (num_of_Z (rn_ it))) as Hb.
  destruct (block w self (num_of_Z (rn_ it))) as [blk|e] eqn:Eb; cbn [snd];
    [|congruence].
  apply block_in_range in Eb.
  pose proof (writeSync_buffer_no_diverge fd blk 0 blockSize pos w) as Hw.
  destruct (writeSync_buffer fd blk 0 blockSize pos w) as [w1 [n|e]]; cbn [snd] in *;
    [|congruence].
  apply IH. cbn [rn_]. lia.
Qed.

Lemma write_hdu_no_diverge (fd : nat) (self : FileCore) (hdu : HDU) (pos : nat)
    (w : World) :
  snd (write_hdu fd self hdu pos w) <> Throw Diverges.
Proof.
  unfold write_hdu. cbn [headers].
  destruct (write_headers_count fd (headers_ hdu) pos 0 w) as (H1 & H2).
  destruct (write_headers fd (headers_ hdu) pos 0 w) as [[[[cards pos1] hwn] w1] r].
  cbn [fst snd] in *. destruct r as [[]|e]; cbn [snd]; [|exact H1].
  specialize (H2 eq_refl). cbn [Nat.add] in H2.
  pose proof (pad_header_block_fuel fd (blockSize / headerSize) pos1 hwn w1
                (length (headers_ hdu))
                (cards_per_block - length (headers_ hdu) mod cards_per_block) H2) as Hp.
  destruct (pad_header_block _ fd pos1 hwn w1) as [[pos2 w2] [u2|e]]; cbn [snd] in *.
  - match goal with |- context [copy_blocks ?f fd self ?it pos2 w2] =>
      pose proof (copy_blocks_fuel fd self f it pos2 w2) as Hc;
      destruct (copy_blocks f fd self it pos2 w2) as [[pos3 w3] r3] end.
    cbn [snd] in *. apply Hc. unfold copy_fuel. lia.
  - apply Hp.
    + rewrite cards_per_block_eq.
      pose proof (Nat.div_mod_eq (length (headers_ hdu)) 36) as Hd.
      pose proof (Nat.mod_upper_bound (length (headers_ hdu)) 36) as Hu.
      replace (length (headers_ hdu) + (36 - length (headers_ hdu) mod 36))
        with ((length (headers_ hdu) / 36 + 1) * 36) by lia.
      apply Nat.Div0.mod_mul.
    + change (blockSize / headerSize) with cards_per_block. lia.
Qed.

Lemma write_hdus_no_diverge (fd : nat) (self : FileCore) (hdus : list HDU) :
  forall (pos : nat) (w : World),
  snd (write_hdus fd self hdus pos w) <> Throw Diverges.
Proof.
  induction hdus as [|hdu rest IH]; intros pos w; cbn [write_hdus]; [discriminate|].
  pose proof (write_hdu_no_diverge fd self hdu pos w) as H1.
  destruct (write_hdu fd self hdu pos w) as [[[hdu' pos1] w1] [u|e]]; cbn [snd] in *;
    [|exact H1].
  specialize (IH pos1 w1).
  destruct (write_hdus fd self rest pos1 w1) as [[[rest' pos2] w2] r]. exact IH.
Qed.

(** X20: [write] always ends: the padding loop stops within the cards of
    one block, and the loop over the data blocks stops at the end of the
    extent or, at the latest, at the last block of the file, where [block]
    throws (in the model, no loop of [write] runs out of fuel). *)
Theorem write_terminates (path : str) (f : File) (w : World) :
  snd (write path f w) <> Throw Diverges.
Proof.
  unfold write, openSync_w.
  match goal with |- context [write_hdus ?fd ?self ?hdus 0 ?w0] =>
    pose proof (write_hdus_no_diverge fd self hdus 0 w0) as H;
    destruct (write_hdus fd self hdus 0 w0) as [[[hdus' pos] w1] r] end.
  cbn [snd] in H. destruct r as [[]|e]; cbn [snd]; [|exact H].
  unfold closeSync. destruct (is_open _ w1); cbn [snd]; discriminate.
Qed.

(** *** What the output holds *)

Lemma utf8_clear7 (c : ascii) : utf8 (clear7 c) = [clear7 c].
Proof. now destruct c. Qed.

Lemma utf8_encode_seven_bit (s : str) : Forall seven_bit s -> utf8_encode s = s.
Proof.
  induction 1 as [|c r Hc _ IH]; [reflexivity|].
  unfold utf8_encode in *. cbn [flat_map]. rewrite IH, <- Hc, utf8_clear7. reflexivity.
Qed.

Lemma seven_bit_Buffer_toString (b : bytes) : Forall seven_bit (Buffer_toString b).
Proof.
  unfold Buffer_toString. induction b; cbn [map]; constructor; auto.
  apply clear7_seven_bit.
Qed.

Lemma write_at_end (cur data : bytes) : write_at (length cur) data cur = cur ++ data.
Proof.
  unfold write_at. rewrite firstn_all, Nat.sub_diag. cbn [repeat app].
  rewrite skipn_all2 by lia. now rewrite app_nil_r.
Qed.

Lemma writeSync_append (fd : nat) (out : str) (cur data : bytes) (w : World) :
  holds fd out cur w ->
  exists w', writeSync fd data (length cur) w = (w', Ok (length data)) /\
             holds fd out (cur ++ data) w' /\ frame fd w w'.
Proof.
  intros (Hf & Hp). pose proof (writeSync_frame fd data (length cur) w) as Hfr.
  unfold writeSync in *. rewrite Hf, Hp in *. cbn [fst] in Hfr.
  eexists. split; [reflexivity|]. split; [|exact Hfr].
  split; cbn [handles disk]; [exact Hf|]. rewrite write_at_end. apply lookup_store_same.
Qed.

Lemma holds_frame (fd fd' : nat) (out p : str) (cur c : bytes) (w w' : World) :
  holds fd out cur w -> frame fd w w' -> holds fd' p c w -> p <> out -> holds fd' p c w'.
Proof.
  intros (Hf & _) (Hh & _ & Hd) (Hf' & Hp) Hn. split; [now rewrite Hh|].
  rewrite Hd; [exact Hp | congruence].
Qed.

Lemma write_headers_rendered (fd : nat) (out : str) (cards : list Header) :
  Forall rendered cards ->
  forall (cur : bytes) (hwn : nat) (w : World),
  holds fd out cur w ->
  exists w',
    write_headers fd cards (length cur) hwn w
    = ((cards, length (cur ++ flat_map card_image cards),
        hwn + length cards * headerSize, w'), Ok tt) /\
    holds fd out (cur ++ flat_map card_image cards) w' /\ frame fd w w'.
Proof.
  induction 1 as [|h rest (Hl & Ht) _ IH]; intros cur hwn w Hh; cbn [write_headers].
  - exists w. cbn [flat_map length Nat.mul]. rewrite app_nil_r, Nat.add_0_r.
    repeat split; try apply Hh.
  - rewrite Ht. unfold writeSync_string.
    rewrite (utf8_encode_seven_bit (card_image h))
      by apply seven_bit_Buffer_toString.
    destruct (writeSync_append fd out cur (card_image h) w Hh) as (w1 & -> & Hh1 & Hf1).
    rewrite <- length_app.
    destruct (IH (cur ++ card_image h) (hwn + headerSize) w1 Hh1) as (w2 & -> & Hh2 & Hf2).
    exists w2. cbn [flat_map length]. rewrite app_assoc.
    replace (hwn + headerSize + length rest * headerSize)
      with (hwn + (headerSize + length rest * headerSize)) by lia.
    split; [reflexivity|]. split; [exact Hh2|]. eapply frame_trans; eassumption.
Qed.

Lemma whole_blocks_inv (k : nat) :
  (k * headerSize) mod blockSize = 0 -> k mod cards_per_block = 0.
Proof.
  change blockSize with (cards_per_block * headerSize).
  rewrite Nat.Div0.mul_mod_distr_r. unfold headerSize. lia.
Qed.

Lemma pad_header_block_spec (fd : nat) (out : str) (fuel : nat) :
  forall (j k : nat) (cur : bytes) (hwn : nat) (w : World),
  hwn = k * headerSize -> j < cards_per_block -> (k + j) mod cards_per_block = 0 ->
  j <= fuel -> holds fd out cur w ->
  exists w',
    pad_header_block fuel fd (length cur) hwn w
    = ((length (cur ++ repeat SPACE (j * headerSize)), w'), Ok tt) /\
    holds fd out (cur ++ repeat SPACE (j * headerSize)) w' /\ frame fd w w'.
Proof.
  induction fuel as [|fuel IH]; intros j k cur hwn w Hk Hj Hm Hle Hh;
    cbn [pad_header_block]; destruct (hwn mod blockSize =? 0) eqn:E.
  1,3: (assert (j = 0);
        [ apply Nat.eqb_eq in E; subst hwn; apply whole_blocks_inv in E;
          rewrite cards_per_block_eq in *;
          pose proof (Nat.div_mod_eq k 36); pose proof (Nat.div_mod_eq (k + j) 36); lia
        | subst j; exists w; cbn [Nat.mul repeat]; rewrite app_nil_r;
          repeat split; apply Hh ]).
  - apply Nat.eqb_neq in E. exfalso. apply E. subst hwn. apply whole_blocks.
    replace j with 0 in Hm by lia. now rewrite Nat.add_0_r in Hm.
  - apply Nat.eqb_neq in E.
    assert (Hj0 : j <> 0).
    { intros ->. apply E. subst hwn. apply whole_blocks.
      now rewrite Nat.add_0_r in Hm. }
    unfold writeSync_string.
    rewrite utf8_encode_seven_bit by (apply Forall_forall; intros c Hc;
      apply repeat_spec in Hc; subst c; reflexivity).
    destruct (writeSync_append fd out cur (repeat SPACE headerSize) w Hh)
      as (w1 & -> & Hh1 & Hf1).
    rewrite <- length_app.
    destruct (IH (j - 1) (S k) (cur ++ repeat SPACE headerSize) (hwn + headerSize) w1)
      as (w2 & -> & Hh2 & Hf2); try lia; try exact Hh1.
    { replace (S k + (j - 1)) with (k + j) by lia. exact Hm. }
    assert (Hr : (cur ++ repeat SPACE headerSize) ++ repeat SPACE ((j - 1) * headerSize)
                 = cur ++ repeat SPACE (j * headerSize)).
    { rewrite <- app_assoc, <- repeat_app. do 2 f_equal. nia. }
    rewrite Hr in *. exists w2. split; [reflexivity|]. split; [exact Hh2|].
    eapply frame_trans; eassumption.
Qed.

Lemma card_images_length (cards : list Header) :
  Forall rendered cards -> length (flat_map card_image cards) = length cards * headerSize.
Proof.
  induction 1 as [|h rest (Hl & _) _ IH]; [reflexivity|].
  cbn [flat_map length Nat.mul]. rewrite length_app, IH. f_equal.
  unfold card_image, Buffer_toString. now rewrite length_map.
Qed.

Lemma header_image_eq (cards : list Header) :
  Forall rendered cards ->
  header_image cards
  = flat_map card_image cards
    ++ repeat SPACE
         ((cards_per_block - length cards mod cards_per_block) mod cards_per_block
          * headerSize).
Proof.
  intros H. unfold header_image. cbn zeta. rewrite (card_images_length _ H).
  do 2 f_equal. change blockSize with (cards_per_block * headerSize).
  now rewrite Nat.Div0.mul_mod_distr_r, <- Nat.mul_sub_distr_r, Nat.Div0.mul_mod_distr_r.
Qed.

Lemma header_image_length (cards : list Header) :
  cards <> [] -> Forall rendered cards ->
  length (header_image cards) = ((length cards - 1) / cards_per_block + 1) * blockSize.
Proof.
  intros Hn H. rewrite (header_image_eq _ H), length_app, repeat_length,
    (card_images_length _ H).
  change blockSize with (cards_per_block * headerSize).
  rewrite <- Nat.mul_add_distr_r, Nat.mul_assoc. f_equal.
  assert (0 < length cards) by (destruct cards; [congruence | cbn; lia]).
  rewrite cards_per_block_eq.
  pose proof (Nat.div_mod_eq (length cards) 36).
  pose proof (Nat.mod_upper_bound (length cards) 36).
  pose proof (Nat.div_mod_eq (length cards - 1) 36).
  pose proof (Nat.mod_upper_bound (length cards - 1) 36).
  pose proof (Nat.div_mod_eq (36 - length cards mod 36) 36).
  pose proof (Nat.mod_upper_bound (36 - length cards mod 36) 36).
  lia.
Qed.

Lemma write_header_spec (fd : nat) (out : str) (cards : list Header) (cur : bytes)
    (w : World) :
  Forall rendered cards -> holds fd out cur w ->
  exists pos1 w1 w2,
    write_headers fd cards (length cur) 0 w
    = ((cards, pos1, length cards * headerSize, w1), Ok tt) /\
    pad_header_block (blockSize / headerSize) fd pos1 (length cards * headerSize) w1
    = ((length (cur ++ header_image cards), w2), Ok tt) /\
    holds fd out (cur ++ header_image cards) w2 /\ frame fd w w2.
Proof.
  intros Hr Hh.
  destruct (write_headers_rendered fd out cards Hr cur 0 w Hh) as (w1 & E1 & Hh1 & Hf1).
  cbn [Nat.add] in E1.
  destruct (pad_header_block_spec fd out (blockSize / headerSize)
              ((cards_per_block - length cards mod cards_per_block) mod cards_per_block)
              (length cards) (cur ++ flat_map card_image cards)
              (length cards * headerSize) w1 eq_refl) as (w2 & E2 & Hh2 & Hf2);
    try exact Hh1.
  - apply Nat.mod_upper_bound. now rewrite cards_per_block_eq.
  - rewrite cards_per_block_eq.
    pose proof (Nat.div_mod_eq (length cards) 36).
    pose proof (Nat.mod_upper_bound (length cards) 36).
    pose proof (Nat.div_mod_eq (36 - length cards mod 36) 36).
    pose proof (Nat.mod_upper_bound (36 - length cards mod 36) 36).
    pose proof (Nat.div_mod_eq
                  (length cards + (36 - length cards mod 36) mod 36) 36).
    pose proof (Nat.mod_upper_bound
                  (length cards + (36 - length cards mod 36) mod 36) 36).
    lia.
  - change (blockSize / headerSize) with cards_per_block.
    pose proof (Nat.mod_upper_bound
                  (cards_per_block - length cards mod cards_per_block) cards_per_block).
    rewrite cards_per_block_eq in *. lia.
  - rewrite <- app_assoc, <- (header_image_eq _ Hr) in E2, Hh2.
    exists (length (cur ++ flat_map card_image cards)), w1, w2.
    split; [exact E1|]. split; [exact E2|]. split; [exact Hh2|].
    eapply frame_trans; eassumption.
Qed.

(** *** Reading the source while the output is written *)

Lemma holds_contents (fd : nat) (p : str) (c : bytes) (w : World) :
  holds fd p c w -> contents fd w = Ok c.
Proof. intros (Hf & Hp). unfold contents. now rewrite Hf, Hp. Qed.

Lemma block_read_full (w : World) (self : FileCore) (p : str) (c : bytes) (n : Z) :
  holds (fd_ self) p c w -> (0 <= n < blockCount_ self)%Z ->
  (Z.to_nat n + 1) * blockSize <= length c ->
  block w self (num_of_Z n)
  = Ok (Some (firstn blockSize (skipn (Z.to_nat n * blockSize) c))) /\
  length (firstn blockSize (skipn (Z.to_nat n * blockSize) c)) = blockSize.
Proof.
  intros Hh Hn Hl. unfold block. rewrite as_integer_of_Z.
  replace (n <? 0)%Z with false by (symmetry; apply Z.ltb_ge; lia).
  rewrite Z.geb_leb.
  replace (blockCount_ self <=? n)%Z with false by (symmetry; apply Z.leb_gt; lia).
  cbn [orb].
  assert (Hd : length (firstn blockSize (skipn (Z.to_nat n * blockSize) c)) = blockSize).
  { rewrite length_firstn, length_skipn. nia. }
  split; [|exact Hd].
  unfold readSync. rewrite (holds_contents _ _ _ _ Hh). cbn [bind].
  rewrite Hd, Nat.eqb_refl, Nat.sub_diag. cbn [repeat]. now rewrite app_nil_r.
Qed.

Lemma block_read_eof (w : World) (self : FileCore) (p : str) (c : bytes) (n : Z) :
  holds (fd_ self) p c w -> (0 <= n < blockCount_ self)%Z ->
  length c <= Z.to_nat n * blockSize ->
  block w self (num_of_Z n) = Ok None.
Proof.
  intros Hh Hn Hl. unfold block. rewrite as_integer_of_Z.
  replace (n <? 0)%Z with false by (symmetry; apply Z.ltb_ge; lia).
  rewrite Z.geb_leb.
  replace (blockCount_ self <=? n)%Z with false by (symmetry; apply Z.leb_gt; lia).
  cbn [orb]. unfold readSync. rewrite (holds_contents _ _ _ _ Hh). cbn [bind].
  rewrite skipn_all2 by exact Hl. rewrite firstn_nil. cbn [length].
  replace (0 =? blockSize) with false by reflexivity. reflexivity.
Qed.

Lemma range_done_integer (it : RangeIterator) (stop : Z) :
  as_integer (rend_ it) = Some stop -> range_done it = (stop <=? rn_ it)%Z.
Proof.
  unfold range_done, as_integer. destruct (rend_ it) as [q|]; [|discriminate].
  destruct (Qeq_bool q (inject_Z (Qfloor q))) eqn:E; [|discriminate].
  intros H; inversion H; subst stop. apply Qeq_bool_iff in E.
  cbn [num_le num_of_Z]. destruct (Qfloor q <=? rn_ it)%Z eqn:E2.
  - apply Qle_bool_iff. rewrite E, <- Zle_Qle. now apply Z.leb_le.
  - apply Z.leb_gt in E2. destruct (Qle_bool q (inject_Z (rn_ it))) eqn:E3; [|reflexivity].
    apply Qle_bool_iff in E3. rewrite E, <- Zle_Qle in E3. lia.
Qed.

Lemma writeSync_block (fd : nat) (out : str) (cur : bytes) (b : list ascii)
    (w : World) :
  length b = blockSize -> holds fd out cur w ->
  exists w', writeSync_buffer fd (Some b) 0 blockSize (length cur) w
             = (w', Ok blockSize) /\
             holds fd out (cur ++ b) w' /\ frame fd w w'.
Proof.
  intros Hl Hh. unfold writeSync_buffer. rewrite Hl, Nat.add_0_l, Nat.ltb_irrefl.
  unfold subarray. rewrite Nat.sub_0_r. cbn [skipn].
  replace (firstn blockSize b) with b by (rewrite <- Hl; symmetry; apply firstn_all).
  destruct (writeSync_append fd out cur b w Hh) as (w' & E & H1 & H2).
  rewrite Hl in E. now exists w'.
Qed.

Lemma firstn_plus {A} (a b : nat) (l : list A) :
  firstn (a + b) l = firstn a l ++ firstn b (skipn a l).
Proof.
  revert l. induction a as [|a IH]; intros l; [reflexivity|].
  destruct l as [|x l]; cbn [Nat.add firstn skipn app].
  - now rewrite firstn_nil.
  - now rewrite IH.
Qed.

Lemma firstn_blocks (m a : nat) (c : bytes) :
  firstn (S m * blockSize) (skipn (a * blockSize) c)
  = firstn blockSize (skipn (a * blockSize) c)
    ++ firstn (m * blockSize) (skipn ((a + 1) * blockSize) c).
Proof.
  replace (S m * blockSize) with (blockSize + m * blockSize) by lia.
  rewrite firstn_plus, skipn_skipn. do 3 f_equal. lia.
Qed.

Lemma copy_blocks_spec (fdo : nat) (out : str) (self : FileCore) (p : str) (c : bytes)
    (stop : Z) (fuel : nat) :
  length c = Z.to_nat (blockCount_ self) * blockSize ->
  (stop <= blockCount_ self)%Z -> p <> out ->
  forall (it : RangeIterator) (cur : bytes) (w : World),
  as_integer (rend_ it) = Some stop -> (0 <= rn_ it <= stop)%Z ->
  Z.to_nat (stop - rn_ it) <= fuel ->
  holds (fd_ self) p c w -> holds fdo out cur w ->
  let data := firstn (Z.to_nat (stop - rn_ it) * blockSize)
                (skipn (Z.to_nat (rn_ it) * blockSize) c) in
  exists w',
    copy_blocks fuel fdo self it (length cur) w = ((length (cur ++ data), w'), Ok tt) /\
    holds (fd_ self) p c w' /\ holds fdo out (cur ++ data) w' /\ frame fdo w w'.
Proof.
  intros Hlen Hstop Hp. induction fuel as [|fuel IH]; intros it cur w He Hn Hf Hs Ho;
    cbn [copy_blocks]; rewrite (range_done_integer _ _ He);
    destruct (stop <=? rn_ it)%Z eqn:E.
  1,3: (apply Z.leb_le in E; replace (Z.to_nat (stop - rn_ it)) with 0 by lia;
        cbn [Nat.mul firstn]; rewrite app_nil_r; exists w;
        repeat split; try apply Hs; try apply Ho).
  - apply Z.leb_gt in E. lia.
  - apply Z.leb_gt in E. unfold range_next.
    rewrite (range_done_integer _ _ He), (proj2 (Z.leb_gt _ _) E).
    destruct (block_read_full w self p c (rn_ it) Hs) as (Eb & Hb); [lia | nia |].
    rewrite Eb.
    destruct (writeSync_block fdo out cur _ w Hb Ho) as (w1 & -> & Ho1 & Hf1).
    replace (length cur + blockSize)
      with (length (cur ++ firstn blockSize (skipn (Z.to_nat (rn_ it) * blockSize) c)))
      by (now rewrite length_app, Hb).
    assert (Hs1 : holds (fd_ self) p c w1)
      by exact (holds_frame _ _ _ _ _ _ _ _ Ho Hf1 Hs Hp).
    destruct (IH {| rn_ := rn_ it + 1; rend_ := rend_ it |}
                (cur ++ firstn blockSize (skipn (Z.to_nat (rn_ it) * blockSize) c))
                w1 He) as
      (w2 & E2 & Hs2 & Ho2 & Hf2); cbn [rn_]; try lia; try assumption.
    cbn [rn_] in E2, Ho2.
    assert (Hd : firstn (Z.to_nat (stop - rn_ it) * blockSize)
                   (skipn (Z.to_nat (rn_ it) * blockSize) c)
                 = firstn blockSize (skipn (Z.to_nat (rn_ it) * blockSize) c)
                   ++ firstn (Z.to_nat (stop - (rn_ it + 1)) * blockSize)
                        (skipn (Z.to_nat (rn_ it + 1) * blockSize) c)).
    { replace (Z.to_nat (stop - rn_ it)) with (S (Z.to_nat (stop - (rn_ it + 1)))) by lia.
      rewrite firstn_blocks. do 4 f_equal. lia. }
    rewrite Hd, app_assoc. exists w2. split; [exact E2|]. split; [exact Hs2|].
    split; [exact Ho2|]. eapply frame_trans; eassumption.
Qed.

(** *** The HDUs of a file that was opened *)

Lemma block_length (w : World) (self : FileCore) (n : number) (buf : bytes) :
  block w self n = Ok (Some buf) -> length buf = blockSize.
Proof.
  unfold block. destruct (as_integer n) as [i|]; [|discriminate].
  destruct ((i <? 0)%Z || _); [discriminate|].
  unfold readSync. destruct (contents _ _) as [c|e]; cbn [bind]; [|discriminate].
  set (data := firstn blockSize _).
  destruct (length data =? blockSize) eqn:E.
  - intros H. apply Nat.eqb_eq in E.
    assert (Hb : buf = data ++ repeat zero (blockSize - length data)) by congruence.
    rewrite Hb, length_app, repeat_length. lia.
  - destruct (length data =? 0); discriminate.
Qed.

Lemma slot_length (w : World) (self : FileCore) (start : Z) (k : nat) (b : bytes) :
  slot w self start k = Some b -> length b = headerSize.
Proof.
  unfold slot. destruct (block w self _) as [[buf|]|e] eqn:Eb; try discriminate.
  apply block_length in Eb. intros H.
  assert (Hb : b = subarray (k mod cards_per_block * headerSize)
                     (k mod cards_per_block * headerSize + headerSize) buf)
    by congruence.
  rewrite Hb. unfold subarray. rewrite length_firstn, length_skipn, Eb.
  assert (Hu : k mod cards_per_block < 36)
    by (apply Nat.mod_upper_bound; discriminate).
  set (m := k mod cards_per_block) in *. unfold blockSize, headerSize. lia.
Qed.

Lemma from_buffer_buffer (buf : bytes) (h : Header) :
  from_buffer buf = Ok h -> buffer_ (raw_of h) = buf.
Proof.
  rewrite from_buffer_eq.
  destruct (commentary_keyword _); [intros H; inversion H; reflexivity|].
  destruct (has_value _); [|intros H; inversion H; reflexivity].
  destruct (parse _) as [v|e] eqn:Ep; cbn [bind]; intros H; inversion H; subst.
  apply parse_frame in Ep as [Hsup _]. cbn [raw_of]. now rewrite Hsup.
Qed.

Lemma from_buffer_rendered (buf : bytes) (h : Header) :
  length buf = headerSize -> from_buffer buf = Ok h -> rendered h.
Proof.
  intros Hl Hd. pose proof (from_buffer_buffer _ _ Hd) as Hb.
  apply (from_buffer_pristine _ _ Hl) in Hd as (Hlen & _ & Ht).
  split; [exact Hlen|]. unfold card_image. now rewrite Hb.
Qed.

Lemma new_HDU_rendered (w : World) (self : FileCore) (iter iter' : BlockIterator)
    (hdu : HDU) :
  new_HDU w self iter = Ok (hdu, iter') ->
  headers_ hdu <> [] /\ Forall rendered (headers_ hdu) /\
  hdu_start hdu
  = (n_ iter + Z.of_nat ((length (headers_ hdu) - 1) / cards_per_block) + 1)%Z.
Proof.
  intros H. apply new_HDU_inv in H as (it1 & nv & Hr & Hs & _).
  apply read_headers_spec in Hr as (Hne & Hslots & Hpos & _).
  split; [exact Hne|]. split; [|now rewrite Hs, Hpos].
  apply Forall_forall. intros h Hin. apply In_nth_error in Hin as (k & Hk).
  destruct (Hslots k h Hk) as ((b & Hb & Hd) & _).
  apply slot_length in Hb. now apply (from_buffer_rendered b).
Qed.

Lemma read_hdus_opened (fuel : nat) (w : World) (self : FileCore) :
  forall (iter : BlockIterator) (hdus0 hdus : list HDU),
  read_hdus fuel w self iter hdus0 = Ok hdus ->
  (n_ iter <= end_ iter)%Z ->
  exists new, hdus = hdus0 ++ new /\ opened_chain (n_ iter) new (end_ iter).
Proof.
  induction fuel as [|fuel IH]; intros iter hdus0 hdus; cbn [read_hdus]; unfold done.
  - destruct (n_ iter >=? end_ iter)%Z eqn:E; [|discriminate].
    intros H Hle; inversion H; subst. exists []. rewrite app_nil_r.
    split; [reflexivity|]. cbn [opened_chain]. rewrite Z.geb_leb in E.
    apply Z.leb_le in E. lia.
  - destruct (n_ iter >=? end_ iter)%Z eqn:E.
    + intros H Hle; inversion H; subst. exists []. rewrite app_nil_r.
      split; [reflexivity|]. cbn [opened_chain]. rewrite Z.geb_leb in E.
      apply Z.leb_le in E. lia.
    + destruct (new_HDU w self iter) as [[hdu it1]|e] eqn:Eh; cbn [bind]; [|discriminate].
      intros H Hle. pose proof (new_HDU_rendered _ _ _ _ _ Eh) as (Hne & Hr & Hst).
      apply new_HDU_cursor in Eh as (Hs & He & Hend & Hb).
      apply IH in H as (new & -> & Hchain); [|lia].
      exists (hdu :: new). rewrite <- app_assoc. split; [reflexivity|].
      cbn [opened_chain]. exists (n_ it1). rewrite Hend in Hchain.
      repeat split; try assumption. lia.
Qed.

Lemma opened_chain_le (hdus : list HDU) :
  forall (from to : Z), opened_chain from hdus to -> (from <= to)%Z.
Proof.
  induction hdus as [|hdu rest IH]; intros from to; cbn [opened_chain]; [lia|].
  intros (stop & _ & _ & Hs & Hle & _ & Hc). apply IH in Hc. lia.
Qed.

Lemma new_File_opened (path : str) (w : World) (f : File) (c : bytes) :
  snd (new_File path w) = Ok f -> lookup_path path (disk w) = Some c ->
  fst (new_File path w)
  = {| disk := disk w; handles := (next_fd w, path) :: handles w;
       next_fd := S (next_fd w) |} /\
  fd_ (core f) = next_fd w /\
  length c = Z.to_nat (blockCount_ (core f)) * blockSize /\
  opened_chain 0 (hdus_ f) (blockCount_ (core f)).
Proof.
  intros H Hc. pose proof H as H0.
  apply new_File_inv in H as (c' & Hc' & Hpos & Hm & Hcore & Hr).
  rewrite Hc in Hc'. inversion Hc'; subst c'. split.
  { unfold new_File. rewrite (openSync_found path w c Hc). reflexivity. }
  rewrite Hcore. cbn [fd_ blockCount_]. split; [reflexivity|]. split.
  { rewrite Nat2Z.id. apply Nat.Div0.mod_divides in Hm as [k Hk].
    rewrite Hk, Nat.mul_comm, Nat.div_mul by (unfold blockSize; lia). lia. }
  apply read_hdus_opened in Hr as (new & Hnew & Hchain).
  - cbn [app] in Hnew. subst new. rewrite Hcore in Hchain.
    cbn [blocks block_iterator n_ end_ blockCount_] in Hchain. exact Hchain.
  - rewrite Hcore. cbn [blocks block_iterator n_ end_ blockCount_]. lia.
Qed.

(** *** Copying *)

Lemma with_headers_same (hdu : HDU) : with_headers (headers_ hdu) hdu = hdu.
Proof. now destruct hdu. Qed.

Lemma write_hdu_copy (fdo : nat) (out : str) (self : FileCore) (p : str) (c : bytes)
    (hdu : HDU) (stop : Z) (cur : bytes) (w : World) :
  length c = Z.to_nat (blockCount_ self) * blockSize ->
  (stop <= blockCount_ self)%Z -> p <> out ->
  Forall rendered (headers_ hdu) ->
  (0 <= hdu_start hdu <= stop)%Z -> as_integer (hdu_end hdu) = Some stop ->
  holds (fd_ self) p c w -> holds fdo out cur w ->
  let cur' := cur ++ header_image (headers_ hdu) ++ data_extent c hdu in
  exists w',
    write_hdu fdo self hdu (length cur) w = ((hdu, length cur', w'), Ok tt) /\
    holds (fd_ self) p c w' /\ holds fdo out cur' w' /\ frame fdo w w'.
Proof.
  intros Hlen Hstop Hp Hr Hs He Hsrc Ho cur'. unfold write_hdu. cbn [headers].
  destruct (write_header_spec fdo out (headers_ hdu) cur w Hr Ho)
    as (pos1 & w1 & w2 & E1 & E2 & Ho2 & Hf2).
  rewrite E1. cbv beta iota. rewrite with_headers_same, E2. cbv beta iota.
  assert (Hsrc2 : holds (fd_ self) p c w2)
    by exact (holds_frame _ _ _ _ _ _ _ _ Ho Hf2 Hsrc Hp).
  destruct (copy_blocks_spec fdo out self p c stop (copy_fuel self (hdu_blocks hdu))
              Hlen Hstop Hp (hdu_blocks hdu) (cur ++ header_image (headers_ hdu)) w2)
    as (w3 & E3 & Hsrc3 & Ho3 & Hf3); try assumption.
  { unfold copy_fuel, hdu_blocks, range_iterator. cbn [rn_]. lia. }
  cbn [hdu_blocks range_iterator rn_] in E3, Ho3.
  assert (Hd : firstn (Z.to_nat (stop - hdu_start hdu) * blockSize)
                 (skipn (Z.to_nat (hdu_start hdu) * blockSize) c) = data_extent c hdu)
    by (unfold data_extent; now rewrite He).
  rewrite Hd, <- app_assoc in E3, Ho3. rewrite E3. exists w3.
  split; [reflexivity|]. split; [exact Hsrc3|]. split; [exact Ho3|].
  eapply frame_trans; eassumption.
Qed.

Lemma write_hdus_copy (fdo : nat) (out : str) (self : FileCore) (p : str) (c : bytes) :
  length c = Z.to_nat (blockCount_ self) * blockSize -> p <> out ->
  forall (hdus : list HDU) (from : Z) (cur : bytes) (w : World),
  opened_chain from hdus (blockCount_ self) -> (0 <= from)%Z ->
  holds (fd_ self) p c w -> holds fdo out cur w ->
  exists w',
    write_hdus fdo self hdus (length cur) w
    = ((hdus, length (cur ++ file_image c hdus), w'), Ok tt) /\
    holds (fd_ self) p c w' /\ holds fdo out (cur ++ file_image c hdus) w' /\
    frame fdo w w'.
Proof.
  intros Hlen Hp. induction hdus as [|hdu rest IH]; intros from cur w Hc Hfrom Hsrc Ho;
    cbn [write_hdus file_image flat_map].
  - rewrite app_nil_r. exists w. repeat split; try apply Hsrc; try apply Ho.
  - cbn [opened_chain] in Hc. destruct Hc as (stop & Hne & Hr & Hst & Hle & He & Hc).
    pose proof (opened_chain_le _ _ _ Hc) as Hstop.
    destruct (write_hdu_copy fdo out self p c hdu stop cur w Hlen Hstop Hp Hr)
      as (w1 & E1 & Hsrc1 & Ho1 & Hf1); try assumption; [lia|].
    rewrite E1. cbv beta iota.
    destruct (IH stop (cur ++ header_image (headers_ hdu) ++ data_extent c hdu) w1 Hc)
      as (w2 & E2 & Hsrc2 & Ho2 & Hf2); try assumption; [lia|].
    rewrite E2. cbv beta iota.
    fold (file_image c rest). rewrite <- !app_assoc in *.
    exists w2. split; [reflexivity|]. split; [exact Hsrc2|]. split; [exact Ho2|].
    eapply frame_trans; eassumption.
Qed.

Lemma file_image_length (c : bytes) (hdus : list HDU) :
  forall (from to : Z),
  opened_chain from hdus to -> (0 <= from)%Z -> Z.to_nat to * blockSize <= length c ->
  length (file_image c hdus) = Z.to_nat (to - from) * blockSize.
Proof.
  induction hdus as [|hdu rest IH]; intros from to Hc Hfrom Hlen;
    cbn [opened_chain file_image flat_map] in *.
  - subst. now rewrite Z.sub_diag.
  - destruct Hc as (stop & Hne & Hr & Hst & Hle & He & Hc).
    pose proof (opened_chain_le _ _ _ Hc) as Hstop.
    fold (file_image c rest). rewrite !length_app, (IH stop to Hc) by lia.
    rewrite (header_image_length _ Hne Hr). unfold data_extent. rewrite He.
    rewrite length_firstn, length_skipn. nia.
Qed.

Lemma write_copy_run (path out : str) (w : World) (f : File) (c : bytes) :
  snd (new_File path w) = Ok f -> lookup_path path (disk w) = Some c -> out <> path ->
  exists w',
    write out f (fst (new_File path w))
    = ((f, {| disk := disk w';
              handles := filter (fun e => negb (fst e =? S (next_fd w))) (handles w');
              next_fd := next_fd w' |}), Ok tt) /\
    holds (fd_ (core f)) path c w' /\
    holds (S (next_fd w)) out (file_image c (hdus_ f)) w'.
Proof.
  intros Hf Hc Hn.
  destruct (new_File_opened path w f c Hf Hc) as (Hw1 & Hfd & Hlen & Hchain).
  unfold write, openSync_w. rewrite Hw1. cbn [disk handles next_fd].
  set (w0 := {| disk := store_path out [] (disk w);
                handles := (S (next_fd w), out) :: (next_fd w, path) :: handles w;
                next_fd := S (S (next_fd w)) |}).
  assert (Hsrc : holds (fd_ (core f)) path c w0).
  { split; cbn [w0 handles disk lookup_fd].
    - rewrite Hfd. replace (S (next_fd w) =? next_fd w) with false
        by (symmetry; apply Nat.eqb_neq; lia).
      now rewrite Nat.eqb_refl.
    - rewrite lookup_store_other by congruence. exact Hc. }
  assert (Ho : holds (S (next_fd w)) out [] w0).
  { split; cbn [w0 handles disk lookup_fd].
    - now rewrite Nat.eqb_refl.
    - apply lookup_store_same. }
  destruct (write_hdus_copy (S (next_fd w)) out (core f) path c Hlen
              (fun H => Hn (eq_sym H)) (hdus_ f) 0 [] w0 Hchain (Z.le_refl 0) Hsrc Ho)
    as (w' & E & Hsrc' & Ho' & Hfr).
  cbn [length app] in E, Ho'. rewrite E. cbv beta iota.
  destruct Hfr as (Hh & Hnf & _).
  unfold closeSync, is_open. rewrite Hh. cbn [w0 handles lookup_fd].
  rewrite Nat.eqb_refl. exists w'. split; [|split; assumption].
  f_equal. f_equal; [now destruct f|]. now rewrite Hh.
Qed.

(** X21: copying a file that was just opened.  [write] to another path
    returns and leaves the File as it was; the output holds, HDU by HDU, the
    cards up to END as the ASCII decoding reads them, spaces up to the end
    of the header block, and the data blocks of the source; it is as long as
    the source, which is not touched. *)
Theorem write_copies_file (path out : str) (w : World) (f : File) (c : bytes) :
  snd (new_File path w) = Ok f -> lookup_path path (disk w) = Some c -> out <> path ->
  let w1 := fst (new_File path w) in
  let image := file_image c (hdus_ f) in
  exists w2,
    write out f w1 = ((f, w2), Ok tt) /\
    lookup_path out (disk w2) = Some image /\
    length image = length c /\
    lookup_path path (disk w2) = Some c.
Proof.
  intros Hf Hc Hn w1 image.
  destruct (write_copy_run path out w f c Hf Hc Hn) as (w' & E & Hsrc & Ho).
  destruct (new_File_opened path w f c Hf Hc) as (_ & _ & Hlen & Hchain).
  eexists. split; [exact E|]. cbn [disk].
  split; [apply Ho|]. split; [|apply Hsrc].
  unfold image. rewrite (file_image_length c (hdus_ f) 0 (blockCount_ (core f)) Hchain);
    [rewrite Z.sub_0_r; now symmetry | lia | lia].
Qed.

(** *** Writing a file onto itself *)

Lemma has_data_integer (hdu : HDU) (stop : Z) :
  as_integer (hdu_end hdu) = Some stop ->
  has_data hdu = (hdu_start hdu <? stop)%Z.
Proof.
  intros He. unfold has_data.
  rewrite (range_done_integer (hdu_blocks hdu) stop He).
  cbn [hdu_blocks range_iterator rn_]. now rewrite Z.leb_antisym, negb_involutive.
Qed.

Lemma holds_same_file (fd fd' : nat) (out : str) (cur' x : bytes) (w w' : World) :
  frame fd w w' -> holds fd out cur' w' -> holds fd' out x w -> holds fd' out cur' w'.
Proof.
  intros (Hh & _) (_ & Hp) (Hf' & _). split; [now rewrite Hh | exact Hp].
Qed.

Lemma write_hdu_header_only (fdo : nat) (out : str) (self : FileCore) (hdu : HDU)
    (cur : bytes) (w : World) :
  Forall rendered (headers_ hdu) -> has_data hdu = false -> holds fdo out cur w ->
  exists w',
    write_hdu fdo self hdu (length cur) w
    = ((hdu, length (cur ++ header_image (headers_ hdu)), w'), Ok tt) /\
    holds fdo out (cur ++ header_image (headers_ hdu)) w' /\ frame fdo w w'.
Proof.
  intros Hr Hd Ho. unfold write_hdu. cbn [headers].
  destruct (write_header_spec fdo out (headers_ hdu) cur w Hr Ho)
    as (pos1 & w1 & w2 & E1 & E2 & Ho2 & Hf2).
  rewrite E1. cbv beta iota. rewrite with_headers_same, E2. cbv beta iota.
  unfold has_data in Hd. apply negb_false_iff in Hd.
  unfold copy_fuel. cbn [copy_blocks]. rewrite Hd.
  exists w2. auto.
Qed.

Lemma write_hdu_reads_itself (fdo : nat) (out : str) (self : FileCore) (hdu : HDU)
    (cur : bytes) (w : World) :
  Forall rendered (headers_ hdu) -> has_data hdu = true ->
  (0 <= hdu_start hdu < blockCount_ self)%Z ->
  length (cur ++ header_image (headers_ hdu)) = Z.to_nat (hdu_start hdu) * blockSize ->
  holds fdo out cur w -> holds (fd_ self) out cur w ->
  exists w',
    write_hdu fdo self hdu (length cur) w
    = ((hdu, length (cur ++ header_image (headers_ hdu)), w'), Throw TypeError) /\
    holds fdo out (cur ++ header_image (headers_ hdu)) w' /\ frame fdo w w'.
Proof.
  intros Hr Hd Hs Hl Ho Hsrc. unfold write_hdu. cbn [headers].
  destruct (write_header_spec fdo out (headers_ hdu) cur w Hr Ho)
    as (pos1 & w1 & w2 & E1 & E2 & Ho2 & Hf2).
  rewrite E1. cbv beta iota. rewrite with_headers_same, E2. cbv beta iota.
  unfold has_data in Hd. apply negb_true_iff in Hd.
  unfold copy_fuel. cbn [copy_blocks]. unfold range_next. rewrite Hd.
  cbn [hdu_blocks range_iterator rn_].
  rewrite (block_read_eof w2 self out (cur ++ header_image (headers_ hdu))
             (hdu_start hdu)); [| exact (holds_same_file _ _ _ _ _ _ _ Hf2 Ho2 Hsrc)
                                | exact Hs | lia].
  cbn [writeSync_buffer]. exists w2. auto.
Qed.

Lemma headers_image_app (a b : list HDU) :
  headers_image (a ++ b) = headers_image a ++ headers_image b.
Proof. unfold headers_image. apply flat_map_app. Qed.

Lemma write_hdus_onto_itself (fdo : nat) (out : str) (self : FileCore) (hdu : HDU)
    (post : list HDU) :
  has_data hdu = true ->
  forall (pre : list HDU) (from : Z) (cur : bytes) (w : World),
  opened_chain from (pre ++ hdu :: post) (blockCount_ self) -> (0 <= from)%Z ->
  length cur = Z.to_nat from * blockSize ->
  Forall (fun h => has_data h = false) pre ->
  holds fdo out cur w -> holds (fd_ self) out cur w ->
  let cur' := cur ++ headers_image (pre ++ [hdu]) in
  exists w',
    write_hdus fdo self (pre ++ hdu :: post) (length cur) w
    = ((pre ++ hdu :: post, length cur', w'), Throw TypeError) /\
    length cur' = Z.to_nat (hdu_start hdu) * blockSize /\
    (0 <= hdu_start hdu < blockCount_ self)%Z /\
    holds fdo out cur' w' /\ frame fdo w w'.
Proof.
  intros Hd. induction pre as [|h pre IH]; intros from cur w Hc Hfrom Hl Hpre Ho Hsrc;
    cbn [app write_hdus opened_chain] in *;
    destruct Hc as (stop & Hne & Hr & Hst & Hle & He & Hc);
    pose proof (opened_chain_le _ _ _ Hc) as Hstop.
  - rewrite (has_data_integer _ _ He) in Hd. apply Z.ltb_lt in Hd.
    assert (Hlen : length (cur ++ header_image (headers_ hdu))
                   = Z.to_nat (hdu_start hdu) * blockSize).
    { rewrite length_app, (header_image_length _ Hne Hr), Hl, Hst. nia. }
    destruct (write_hdu_reads_itself fdo out self hdu cur w Hr) as (w1 & E1 & Ho1 & Hf1);
      try assumption.
    { rewrite (has_data_integer _ _ He). now apply Z.ltb_lt. }
    { lia. }
    rewrite E1. cbv beta iota. unfold headers_image. cbn [flat_map].
    rewrite app_nil_r. exists w1. split; [reflexivity|]. split; [exact Hlen|].
    split; [lia|]. split; [exact Ho1 | exact Hf1].
  - inversion Hpre as [|? ? Hh Hpre']; subst.
    pose proof Hh as Hh'. rewrite (has_data_integer _ _ He) in Hh'.
    apply Z.ltb_ge in Hh'.
    destruct (write_hdu_header_only fdo out self h cur w Hr Hh Ho)
      as (w1 & E1 & Ho1 & Hf1).
    rewrite E1. cbv beta iota.
    destruct (IH stop (cur ++ header_image (headers_ h)) w1 Hc) as
      (w2 & E2 & Hl2 & Hb2 & Ho2 & Hf2); try assumption; try lia.
    { rewrite length_app, (header_image_length _ Hne Hr), Hl. nia. }
    { exact (holds_same_file _ _ _ _ _ _ _ Hf1 Ho1 Hsrc). }
    rewrite E2. cbv beta iota.
    assert (Hi : (cur ++ header_image (headers_ h)) ++ headers_image (pre ++ [hdu])
                 = cur ++ headers_image (h :: pre ++ [hdu])).
    { unfold headers_image. cbn [flat_map]. now rewrite app_assoc. }
    rewrite Hi in *. exists w2. split; [reflexivity|]. split; [exact Hl2|].
    split; [exact Hb2|]. split; [exact Ho2|]. eapply frame_trans; eassumption.
Qed.

Lemma opened_chain_rendered (hdus : list HDU) :
  forall (from to : Z), opened_chain from hdus to ->
  Forall (fun hdu => Forall rendered (headers_ hdu)) hdus.
Proof.
  induction hdus as [|hdu rest IH]; intros from to; cbn [opened_chain]; [constructor|].
  intros (stop & _ & Hr & _ & _ & _ & Hc). constructor; [exact Hr | eapply IH; exact Hc].
Qed.

Lemma write_hdus_headers_only (fdo : nat) (out : str) (self : FileCore) :
  forall (hdus : list HDU) (cur : bytes) (w : World),
  Forall (fun hdu => Forall rendered (headers_ hdu)) hdus ->
  Forall (fun hdu => has_data hdu = false) hdus ->
  holds fdo out cur w ->
  exists w',
    write_hdus fdo self hdus (length cur) w
    = ((hdus, length (cur ++ headers_image hdus), w'), Ok tt) /\
    holds fdo out (cur ++ headers_image hdus) w' /\ frame fdo w w'.
Proof.
  induction hdus as [|hdu rest IH]; intros cur w Hr Hd Ho; cbn [write_hdus].
  - unfold headers_image. cbn [flat_map]. rewrite app_nil_r. exists w.
    split; [reflexivity|]. split; [exact Ho | apply frame_refl].
  - inversion Hr as [|? ? Hr1 Hr2]; subst. inversion Hd as [|? ? Hd1 Hd2]; subst.
    destruct (write_hdu_header_only fdo out self hdu cur w Hr1 Hd1 Ho)
      as (w1 & E1 & Ho1 & Hf1).
    rewrite E1. cbv beta iota.
    destruct (IH (cur ++ header_image (headers_ hdu)) w1 Hr2 Hd2 Ho1)
      as (w2 & E2 & Ho2 & Hf2).
    rewrite E2. cbv beta iota.
    assert (Hi : (cur ++ header_image (headers_ hdu)) ++ headers_image rest
                 = cur ++ headers_image (hdu :: rest)).
    { unfold headers_image. cbn [flat_map]. now rewrite app_assoc. }
    rewrite Hi in *. exists w2. split; [reflexivity|]. split; [exact Ho2|].
    eapply frame_trans; eassumption.
Qed.

(** X22: writing a file onto the path it was opened from.  The output is
    cut to length 0 when it is opened, and the data blocks are read from it
    afterwards: at the first HDU that has data, [block] finds nothing to
    read and returns undefined, [fs.writeSync] throws a TypeError, and the
    file is left with the header blocks written so far, shorter than it
    was, its descriptor open.  A file without data blocks is written in
    full. *)
Theorem write_onto_itself (path : str) (w : World) (f : File) (c : bytes) :
  snd (new_File path w) = Ok f -> lookup_path path (disk w) = Some c ->
  let w1 := fst (new_File path w) in
  (forall pre hdu post,
     hdus_ f = pre ++ hdu :: post ->
     Forall (fun h => has_data h = false) pre -> has_data hdu = true ->
     exists w2,
       write path f w1 = ((f, w2), Throw TypeError) /\
       lookup_path path (disk w2) = Some (headers_image (pre ++ [hdu])) /\
       length (headers_image (pre ++ [hdu])) < length c /\
       is_open (next_fd w1) w2 = true) /\
  (Forall (fun h => has_data h = false) (hdus_ f) ->
   exists w2,
     write path f w1 = ((f, w2), Ok tt) /\
     lookup_path path (disk w2) = Some (headers_image (hdus_ f))).
Proof.
  intros Hf Hc w1.
  destruct (new_File_opened path w f c Hf Hc) as (Hw1 & Hfd & Hlen & Hchain).
  unfold write, openSync_w. subst w1. rewrite Hw1. cbn [disk handles next_fd].
  set (w0 := {| disk := store_path path [] (disk w);
                handles := (S (next_fd w), path) :: (next_fd w, path) :: handles w;
                next_fd := S (S (next_fd w)) |}).
  assert (Hsrc : holds (fd_ (core f)) path [] w0).
  { split; cbn [w0 handles disk lookup_fd].
    - rewrite Hfd. replace (S (next_fd w) =? next_fd w) with false
        by (symmetry; apply Nat.eqb_neq; lia).
      now rewrite Nat.eqb_refl.
    - apply lookup_store_same. }
  assert (Ho : holds (S (next_fd w)) path [] w0).
  { split; cbn [w0 handles disk lookup_fd].
    - now rewrite Nat.eqb_refl.
    - apply lookup_store_same. }
  split.
  - intros pre hdu post Hh Hpre Hd. rewrite Hh in Hchain.
    destruct (write_hdus_onto_itself (S (next_fd w)) path (core f) hdu post Hd pre 0 []
                w0 Hchain (Z.le_refl 0) eq_refl Hpre Ho Hsrc)
      as (w' & E & Hl & Hb & Ho' & Hfr).
    cbn [length app] in E, Ho', Hl. rewrite Hh, E. cbv beta iota.
    exists w'. split; [f_equal; f_equal; destruct f; cbn [core hdus_] in *; now subst|].
    split; [apply Ho'|]. split.
    { rewrite Hl, Hlen. apply Nat.mul_lt_mono_pos_r; [unfold blockSize|]; lia. }
    destruct Hfr as (Hhd & _). unfold is_open. rewrite Hhd.
    cbn [w0 handles lookup_fd]. now rewrite Nat.eqb_refl.
  - intros Hd.
    destruct (write_hdus_headers_only (S (next_fd w)) path (core f) (hdus_ f) [] w0
                (opened_chain_rendered _ _ _ Hchain) Hd Ho) as (w' & E & Ho' & Hfr).
    cbn [length app] in E, Ho'. rewrite E. cbv beta iota.
    destruct Hfr as (Hh & _).
    unfold closeSync, is_open. rewrite Hh. cbn [w0 handles lookup_fd].
    rewrite Nat.eqb_refl. eexists. split; [f_equal; f_equal; now destruct f|].
    cbn [disk]. apply Ho'.
Qed.

End WriteProperties.

(** * Further properties: reading back what was written *)

Section ReadingBack.

Context {host : NumberHost}.

(** *** Decoding the bytes of a card again *)

Lemma raw_substring_ascii (a b : nat) (r : RawHeader) :
  raw_substring a b (ascii_raw r) = raw_substring a b r.
Proof.
  unfold raw_substring, ascii_raw, subarray, Buffer_toString. cbn [buffer_].
  rewrite skipn_map, firstn_map, map_map. apply map_ext. apply clear7_idem.
Qed.

Lemma parse_comment_super (s : str) (r : RawHeader) (v : ValueHeader) :
  parse_comment s (with_super r v)
  = (v' <- parse_comment s v ;; Ok (with_super r v')).
Proof.
  unfold parse_comment.
  destruct (startsWith "/" _); [|reflexivity].
  destruct (startsWith "[" _); [|reflexivity].
  destruct (indexOf _ _ _) as [i|]; [|reflexivity].
  destruct (1 <? i); reflexivity.
Qed.

Lemma parse_super (v : ValueHeader) :
  parse (with_super (ascii_raw (super v)) v)
  = (v' <- parse v ;; Ok (with_super (ascii_raw (super v)) v')).
Proof.
  unfold parse, parse_string. cbn [with_super super]. rewrite !raw_substring_ascii.
  destruct (startsWith [QUOTE] _).
  - destruct (scan_string _ _ _) as [inside offset].
    destruct (inside || _ || _); [reflexivity|].
    apply (parse_comment_super _ _ (with_value _ v)).
  - destruct (str_eqb _ "T"); [|destruct (str_eqb _ "F")];
      cbn [with_value with_super super]; rewrite ?raw_substring_ascii;
      apply (parse_comment_super _ _ (with_value _ v)).
Qed.

Lemma from_buffer_ascii (h : Header) :
  from_buffer (buffer_ (raw_of h)) = Ok h ->
  from_buffer (card_image h) = Ok (ascii_card h).
Proof.
  unfold card_image. set (b := buffer_ (raw_of h)). rewrite !from_buffer_eq.
  change (raw_of_buffer (Buffer_toString b)) with (ascii_raw (raw_of_buffer b)).
  unfold raw_keyword, has_value. rewrite !raw_substring_ascii.
  fold (raw_keyword (raw_of_buffer b)). fold (has_value (raw_of_buffer b)).
  destruct (commentary_keyword _); [intros H; inversion H; reflexivity|].
  destruct (has_value _); [|intros H; inversion H; reflexivity].
  change (fresh_value (ascii_raw (raw_of_buffer b)))
    with (with_super (ascii_raw (super (fresh_value (raw_of_buffer b))))
            (fresh_value (raw_of_buffer b))).
  rewrite parse_super.
  destruct (parse (fresh_value (raw_of_buffer b))) as [v|e] eqn:Ep; cbn [bind];
    [|discriminate].
  intros H; inversion H; subst h. apply parse_frame in Ep as [Hs _].
  cbn [ascii_card]. now rewrite Hs.
Qed.

Lemma ascii_card_fields (h : Header) :
  keyword (ascii_card h) = keyword h /\ same_fields h (ascii_card h).
Proof.
  split.
  - unfold keyword, raw_keyword.
    destruct h as [r|r|v]; cbn [ascii_card raw_of with_super super];
      now rewrite raw_substring_ascii.
  - destruct h as [r|r|v]; repeat split.
Qed.

(** *** The cards that [#read_headers] must return *)

Lemma read_cards_complete (buf : bytes) :
  forall (n s : nat) (hs0 tl : list Header),
  tl <> [] ->
  (forall i h, i < n -> nth_error tl i = Some h ->
     from_buffer (subarray ((s + i) * headerSize) ((s + i) * headerSize + headerSize) buf)
     = Ok h /\
     (keyword h = "END" <-> S i = length tl)) ->
  read_cards (map (fun i => i * headerSize) (seq s n)) buf hs0
  = if length tl <=? n then Ok (hs0 ++ tl, true) else Ok (hs0 ++ firstn n tl, false).
Proof.
  induction n as [|n IH]; intros s hs0 tl Hne Hcards; cbn [seq map read_cards];
    (destruct tl as [|x tl]; [congruence|]); cbn [length Nat.leb firstn].
  - now rewrite app_nil_r.
  - destruct (Hcards 0 x (Nat.lt_0_succ n) eq_refl) as (Hd & Hend).
    rewrite Nat.add_0_r in Hd. rewrite Hd. cbn [bind].
    destruct (str_eqb (keyword x) "END") eqn:E.
    + apply str_eqb_eq in E. apply Hend in E. cbn [length] in E.
      destruct tl; [reflexivity | discriminate].
    + assert (Htl : tl <> []).
      { intros ->. apply str_eqb_neq in E. apply E. now apply Hend. }
      rewrite (IH (S s) (hs0 ++ [x]) tl Htl).
      * rewrite <- !app_assoc. reflexivity.
      * intros i h Hi Hn. destruct (Hcards (S i) h) as (H1 & H2); [lia | exact Hn |].
        replace (S s + i) with (s + S i) by lia. split; [exact H1|].
        cbn [length] in H2. rewrite H2. lia.
Qed.

Lemma read_headers_loop_complete (w : World) (self : FileCore) (start : Z)
    (hs : list Header) :
  (forall k h, nth_error hs k = Some h ->
     decodes_slot w self start k h /\ (keyword h = "END" <-> S k = length hs)) ->
  forall (fuel j : nat) (iter : BlockIterator) (hs0 tl : list Header),
  hs = hs0 ++ tl -> length hs0 = j * cards_per_block -> tl <> [] ->
  n_ iter = (start + Z.of_nat j)%Z ->
  (length tl - 1) / cards_per_block < fuel ->
  (n_ iter + Z.of_nat ((length tl - 1) / cards_per_block) < end_ iter)%Z ->
  read_headers_loop fuel w self iter hs0
  = Ok (hs, {| n_ := n_ iter + Z.of_nat ((length tl - 1) / cards_per_block) + 1;
               end_ := end_ iter |}).
Proof.
  intros Hslots. induction fuel as [|fuel IH]; intros j iter hs0 tl Hhs Hl0 Hne Hn Hf Hb;
    [lia|].
  cbn [read_headers_loop]. unfold next, done.
  replace (n_ iter >=? end_ iter)%Z with false
    by (symmetry; rewrite Z.geb_leb; apply Z.leb_gt; lia).
  assert (Hnth : forall i, nth_error hs (j * cards_per_block + i) = nth_error tl i).
  { intros i. rewrite Hhs, <- Hl0, nth_error_app2 by lia. f_equal. lia. }
  assert (Hblock : exists buf,
            block w self (num_of_Z (n_ iter)) = Ok (Some buf) /\
            forall i h, i < cards_per_block -> nth_error tl i = Some h ->
              from_buffer (subarray ((0 + i) * headerSize)
                             ((0 + i) * headerSize + headerSize) buf) = Ok h /\
              (keyword h = "END" <-> S i = length tl)).
  { destruct tl as [|x tl']; [congruence|].
    destruct (Hslots (j * cards_per_block + 0) x) as ((b & Hb0 & _) & _);
      [now rewrite Hnth|].
    unfold slot in Hb0.
    destruct (slot_index j cards_per_block 0) as (Hq & _);
      [rewrite cards_per_block_eq; lia|].
    rewrite Hq, <- Hn in Hb0.
    destruct (block w self (num_of_Z (n_ iter))) as [[buf|]|e] eqn:Eb; try discriminate.
    exists buf. split; [reflexivity|]. intros i h Hi Hh.
    destruct (Hslots (j * cards_per_block + i) h) as ((b' & Hb' & Hd) & Hend);
      [now rewrite Hnth|].
    unfold slot in Hb'. destruct (slot_index j cards_per_block i Hi) as (Hq' & Hr').
    rewrite Hq', Hr', <- Hn, Eb in Hb'.
    assert (Hbe : b' = subarray (i * headerSize) (i * headerSize + headerSize) buf)
      by congruence.
    rewrite Hbe in Hd. split; [exact Hd|].
    rewrite Hend, Hhs, length_app, Hl0. lia. }
  destruct Hblock as (buf & Eb & Hcards). rewrite Eb. cbn [bind].
  change card_offsets with (map (fun i => i * headerSize) (seq 0 cards_per_block)).
  rewrite (read_cards_complete buf cards_per_block 0 hs0 tl Hne Hcards).
  assert (Hlen : 0 < length tl) by (destruct tl; [congruence | cbn; lia]).
  destruct (length tl <=? cards_per_block) eqn:E; cbn [bind].
  - apply Nat.leb_le in E. rewrite <- Hhs.
    replace ((length tl - 1) / cards_per_block) with 0
      by (symmetry; apply Nat.div_small; rewrite cards_per_block_eq in *; lia).
    rewrite Z.add_0_r. reflexivity.
  - apply Nat.leb_gt in E.
    assert (Hd : (length tl - 1) / cards_per_block
                 = S ((length (skipn cards_per_block tl) - 1) / cards_per_block)).
    { rewrite length_skipn.
      replace (length tl - 1) with (1 * cards_per_block + (length tl - cards_per_block - 1))
        by lia.
      rewrite Nat.div_add_l by (rewrite cards_per_block_eq; lia). lia. }
    rewrite (IH (S j) {| n_ := n_ iter + 1; end_ := end_ iter |}
               (hs0 ++ firstn cards_per_block tl) (skipn cards_per_block tl)).
    + cbn [n_ end_]. rewrite Hd. do 2 f_equal. f_equal. lia.
    + rewrite <- app_assoc, firstn_skipn. exact Hhs.
    + rewrite length_app, length_firstn, Hl0. cbn [Nat.mul]. lia.
    + intros H0. apply (f_equal (@length Header)) in H0.
      rewrite length_skipn in H0. cbn [length] in H0. lia.
    + cbn [n_]. lia.
    + lia.
    + cbn [n_ end_]. lia.
Qed.

Lemma read_headers_complete (w : World) (self : FileCore) (iter : BlockIterator)
    (hs : list Header) :
  hs <> [] ->
  (forall k h, nth_error hs k = Some h ->
     decodes_slot w self (n_ iter) k h /\ (keyword h = "END" <-> S k = length hs)) ->
  (n_ iter + Z.of_nat ((length hs - 1) / cards_per_block) < end_ iter)%Z ->
  read_headers w self iter
  = Ok (hs, {| n_ := n_ iter + Z.of_nat ((length hs - 1) / cards_per_block) + 1;
               end_ := end_ iter |}).
Proof.
  intros Hne Hslots Hb. unfold read_headers.
  apply (read_headers_loop_complete w self (n_ iter) hs Hslots _ 0 iter [] hs);
    try reflexivity; try assumption; lia.
Qed.

(** *** The HDU over the cards read back *)

Lemma find_header_ascii (hs : list Header) (kw : jsval) :
  find_header (map ascii_card hs) kw = option_map ascii_card (find_header hs kw).
Proof.
  destruct kw; try reflexivity. cbn [find_header].
  induction hs as [|h hs IH]; [reflexivity|]. cbn [map find].
  rewrite (proj1 (ascii_card_fields h)).
  destruct (str_eqb (keyword h) s); [reflexivity | exact IH].
Qed.

Lemma value_of_ascii (hs : list Header) (kw : jsval) :
  value_of (find_header (map ascii_card hs) kw) = value_of (find_header hs kw).
Proof.
  rewrite find_header_ascii. destruct (find_header hs kw) as [h|]; [|reflexivity].
  cbn [option_map value_of]. now destruct h.
Qed.

Lemma naxis_loop_ascii (hs : list Header) (bound : number) (fuel : nat) :
  forall (i : Z) (size : number),
  naxis_loop fuel i bound (map ascii_card hs) size = naxis_loop fuel i bound hs size.
Proof.
  induction fuel as [|fuel IH]; intros i size; cbn [naxis_loop];
    destruct (num_le (num_of_Z i) bound); try reflexivity.
  rewrite value_of_ascii. destruct (value_of _) as [v|e]; cbn [bind]; [apply IH | reflexivity].
Qed.

Lemma new_HDU_reread (w1 w2 : World) (self1 self2 : FileCore)
    (iter iter' : BlockIterator) (hdu : HDU) :
  new_HDU w1 self1 iter = Ok (hdu, iter') ->
  (forall k h, nth_error (headers_ hdu) k = Some h ->
     slot w2 self2 (n_ iter) k = Some (card_image h)) ->
  new_HDU w2 self2 iter = Ok (ascii_hdu hdu, iter').
Proof.
  intros H Hslots. pose proof H as H0.
  apply new_HDU_inv in H as (it1 & nv & Hr & Hs & _).
  pose proof (read_headers_spec _ _ _ _ _ Hr) as (Hne & Hsl1 & Hpos & Hend).
  pose proof Hr as Hbd. unfold read_headers in Hbd. apply read_headers_loop_bound in Hbd.
  unfold position in Hpos.
  assert (Hr2 : read_headers w2 self2 iter = Ok (map ascii_card (headers_ hdu), it1)).
  { rewrite (read_headers_complete w2 self2 iter (map ascii_card (headers_ hdu))).
    - rewrite length_map. do 2 f_equal. destruct it1 as [n1 e1]. cbn [n_ end_] in *.
      f_equal; congruence.
    - destruct (headers_ hdu); [congruence | discriminate].
    - intros k h' Hk. rewrite nth_error_map in Hk.
      destruct (nth_error (headers_ hdu) k) as [h|] eqn:Ek; [|discriminate].
      cbn [option_map] in Hk. injection Hk as <-.
      destruct (Hsl1 k h Ek) as ((b & Hb & Hd) & Hend'). split.
      + exists (card_image h). split; [now apply Hslots|].
        apply from_buffer_ascii. now rewrite (from_buffer_buffer _ _ Hd).
      + rewrite (proj1 (ascii_card_fields h)), length_map. exact Hend'.
    - rewrite length_map. lia. }
  rewrite (new_HDU_eq w2 self2 iter it1 _ Hr2).
  rewrite (new_HDU_eq w1 self1 iter it1 _ Hr) in H0.
  rewrite value_of_ascii.
  destruct (value_of (find_header (headers_ hdu) (JStr "NAXIS"))) as [nvl|e];
    cbn [bind] in *; [|discriminate].
  destruct (num_gt (ToNumber nvl) (num_of_Z 0)).
  - rewrite value_of_ascii.
    destruct (value_of (find_header (headers_ hdu) (JStr "BITPIX"))) as [bv|e];
      cbn [bind] in *; [|discriminate].
    rewrite naxis_loop_ascii.
    destruct (naxis_loop _ _ _ _ _) as [size|e]; cbn [bind] in *; [|discriminate].
    destruct (skip _ it1) as [it2 [u|e]]; cbn [bind] in *; [|discriminate].
    injection H0 as <- <-. reflexivity.
  - injection H0 as <- <-. reflexivity.
Qed.

(** *** The slots of a header that [write] laid out *)

Lemma firstn_exact {A} (n : nat) (l1 l2 : list A) :
  length l1 = n -> firstn n (l1 ++ l2) = l1.
Proof.
  intros <-. rewrite firstn_app, firstn_all, Nat.sub_diag. cbn [firstn].
  apply app_nil_r.
Qed.

Lemma skipn_exact {A} (n m : nat) (l1 l2 : list A) :
  length l1 = n -> skipn (n + m) (l1 ++ l2) = skipn m l2.
Proof.
  intros <-. rewrite Nat.add_comm, <- skipn_skipn. f_equal.
  rewrite skipn_app, skipn_all, Nat.sub_diag. reflexivity.
Qed.

Lemma flat_map_chunk {A} (g : A -> bytes) (n : nat) (l : list A) (t : bytes) :
  Forall (fun h => length (g h) = n) l ->
  forall k h, nth_error l k = Some h ->
  firstn n (skipn (k * n) (flat_map g l ++ t)) = g h.
Proof.
  induction 1 as [|x l Hx _ IH]; intros k h Hk; [destruct k; discriminate|].
  cbn [flat_map]. rewrite <- app_assoc. destruct k as [|k]; cbn [nth_error] in Hk.
  - injection Hk as <-. cbn [Nat.mul skipn]. now apply firstn_exact.
  - cbn [Nat.mul]. rewrite (skipn_exact n (k * n) _ _ Hx). now apply IH.
Qed.

Lemma image_slot (w : World) (self : FileCore) (out : str) (image pre rest : bytes)
    (hs : list Header) (from : Z) (k : nat) (h : Header) :
  holds (fd_ self) out image w ->
  image = pre ++ header_image hs ++ rest ->
  length pre = Z.to_nat from * blockSize -> (0 <= from)%Z ->
  Forall rendered hs ->
  (from + Z.of_nat ((length hs - 1) / cards_per_block) < blockCount_ self)%Z ->
  nth_error hs k = Some h ->
  slot w self from k = Some (card_image h).
Proof.
  intros Hh Him Hpre Hfrom Hr Hbc Hk.
  assert (Hklt : k < length hs) by (apply nth_error_Some; congruence).
  assert (Hne : hs <> []) by (intros ->; cbn in Hklt; lia).
  pose proof (header_image_length hs Hne Hr) as Hlen.
  assert (Hq : k / cards_per_block <= (length hs - 1) / cards_per_block)
    by (apply Nat.Div0.div_le_mono; lia).
  assert (Hrm : k mod cards_per_block < 36)
    by (apply Nat.mod_upper_bound; discriminate).
  pose proof (Nat.div_mod_eq k cards_per_block) as Hkd.
  set (q := k / cards_per_block) in *. set (r := k mod cards_per_block) in *.
  unfold slot. fold q. fold r.
  destruct (block_read_full w self out image (from + Z.of_nat q) Hh) as (Eb & _).
  { lia. }
  { rewrite Him, !length_app, Hpre, Hlen. nia. }
  rewrite Eb. f_equal. unfold subarray.
  replace (r * headerSize + headerSize - r * headerSize) with headerSize by lia.
  rewrite skipn_firstn_comm, firstn_firstn, skipn_skipn.
  replace (Nat.min headerSize (blockSize - r * headerSize)) with headerSize
    by (unfold headerSize, blockSize; lia).
  rewrite Him.
  replace (r * headerSize + Z.to_nat (from + Z.of_nat q) * blockSize)
    with (length pre + k * headerSize).
  2:{ replace (Z.to_nat (from + Z.of_nat q)) with (Z.to_nat from + q) by lia.
      rewrite Hpre. rewrite Hkd at 1.
      change blockSize with (cards_per_block * headerSize). ring. }
  rewrite (skipn_exact (length pre) _ pre _ eq_refl).
  rewrite (header_image_eq _ Hr), <- app_assoc.
  apply flat_map_chunk; [|exact Hk].
  apply Forall_forall. intros x Hx. rewrite Forall_forall in Hr.
  destruct (Hr x Hx) as (Hl & _). unfold card_image, Buffer_toString.
  now rewrite length_map.
Qed.

(** *** The file read back *)

Lemma read_hdus_reread (w1 w2 : World) (self1 self2 : FileCore) (out : str)
    (c image : bytes) :
  blockCount_ self2 = blockCount_ self1 ->
  length c = Z.to_nat (blockCount_ self1) * blockSize ->
  holds (fd_ self2) out image w2 ->
  forall (fuel : nat) (iter : BlockIterator) (hdus0 hdus new : list HDU) (pre : bytes),
  read_hdus fuel w1 self1 iter hdus0 = Ok hdus -> hdus = hdus0 ++ new ->
  end_ iter = blockCount_ self1 -> (0 <= n_ iter <= end_ iter)%Z ->
  image = pre ++ file_image c new -> length pre = Z.to_nat (n_ iter) * blockSize ->
  read_hdus fuel w2 self2 iter (map ascii_hdu hdus0) = Ok (map ascii_hdu hdus).
Proof.
  intros Hbc Hlen Hh. induction fuel as [|fuel IH];
    intros iter hdus0 hdus new pre H Hnew Hend Hn Him Hpre; cbn [read_hdus] in *;
    destruct (done iter); try discriminate; try (injection H as <-; reflexivity).
  destruct (new_HDU w1 self1 iter) as [[hdu it1]|e] eqn:Eh; cbn [bind] in H;
    [|discriminate].
  pose proof (new_HDU_rendered _ _ _ _ _ Eh) as (Hne & Hr & Hst).
  pose proof (new_HDU_cursor _ _ _ _ _ Eh) as (Hs & He & Hend1 & Hb).
  pose proof H as H1. apply read_hdus_layout in H1 as (new' & Hnew' & _); [|lia].
  assert (Hnw : new = hdu :: new').
  { rewrite Hnew, <- app_assoc in Hnew'. now apply app_inv_head in Hnew'. }
  subst new. cbn [file_image flat_map] in Him. fold (file_image c new') in Him.
  rewrite <- app_assoc in Him.
  rewrite (new_HDU_reread w1 w2 self1 self2 iter it1 hdu Eh).
  2:{ intros k h Hk.
      apply (image_slot w2 self2 out image pre
               (data_extent c hdu ++ file_image c new') (headers_ hdu));
        try assumption; lia. }
  cbn [bind].
  replace (map ascii_hdu hdus0 ++ [ascii_hdu hdu]) with (map ascii_hdu (hdus0 ++ [hdu]))
    by (now rewrite map_app).
  apply (IH it1 (hdus0 ++ [hdu]) hdus new'
           (pre ++ header_image (headers_ hdu) ++ data_extent c hdu)); try assumption.
  - congruence.
  - lia.
  - rewrite Him, <- !app_assoc. reflexivity.
  - rewrite !length_app, Hpre, (header_image_length _ Hne Hr).
    unfold data_extent. rewrite He, length_firstn, length_skipn. nia.
Qed.

(** Every card of an opened file is the decoding of a slot of the file. *)
Lemma read_hdus_cards (P : Header -> Prop) (w : World) (self : FileCore) :
  (forall from k h, decodes_slot w self from k h -> P h) ->
  forall (fuel : nat) (iter : BlockIterator) (hdus0 hdus : list HDU),
  read_hdus fuel w self iter hdus0 = Ok hdus ->
  Forall (fun hdu => Forall P (headers_ hdu)) hdus0 ->
  Forall (fun hdu => Forall P (headers_ hdu)) hdus.
Proof.
  intros HP. induction fuel as [|fuel IH]; intros iter hdus0 hdus H H0;
    cbn [read_hdus] in H; destruct (done iter); try discriminate;
    try (now injection H as <-).
  destruct (new_HDU w self iter) as [[hdu it1]|e] eqn:Eh; cbn [bind] in H;
    [|discriminate].
  apply (IH _ _ _ H). apply Forall_app. split; [exact H0|]. constructor; [|constructor].
  apply new_HDU_inv in Eh as (it0 & nv & Hr & _).
  apply read_headers_spec in Hr as (_ & Hslots & _).
  apply Forall_forall. intros h Hin. apply In_nth_error in Hin as (k & Hk).
  destruct (Hslots k h Hk) as (Hd & _). exact (HP _ _ _ Hd).
Qed.

Lemma seven_bit_firstn (n : nat) (l : bytes) :
  Forall seven_bit l -> Forall seven_bit (firstn n l).
Proof.
  intros H. rewrite <- (firstn_skipn n l) in H. now apply Forall_app in H.
Qed.

Lemma seven_bit_skipn (n : nat) (l : bytes) :
  Forall seven_bit l -> Forall seven_bit (skipn n l).
Proof.
  intros H. rewrite <- (firstn_skipn n l) in H. now apply Forall_app in H.
Qed.

Lemma seven_bit_card (w : World) (self : FileCore) (c : bytes) (from : Z) (k : nat)
    (h : Header) :
  contents (fd_ self) w = Ok c -> Forall seven_bit c ->
  decodes_slot w self from k h -> ascii_card h = h.
Proof.
  intros Hc H7 (b & Hb & Hd). unfold slot in Hb.
  destruct (block w self _) as [[buf|]|e] eqn:Eb; try discriminate.
  assert (Hbuf : Forall seven_bit buf).
  { unfold block in Eb. destruct (as_integer _) as [i|]; [|discriminate].
    destruct ((i <? 0)%Z || _); [discriminate|].
    unfold readSync in Eb. rewrite Hc in Eb. cbn [bind] in Eb.
    set (data := firstn blockSize _) in Eb.
    destruct (length data =? blockSize); [|destruct (length data =? 0); discriminate].
    assert (Hbe : buf = data ++ repeat zero (blockSize - length data)) by congruence.
    rewrite Hbe. apply Forall_app. split.
    - now apply seven_bit_firstn, seven_bit_skipn.
    - apply Forall_forall. intros x Hx. apply repeat_spec in Hx. now subst x. }
  assert (Hbs : Forall seven_bit b).
  { assert (Hbe : b = subarray (k mod cards_per_block * headerSize)
                        (k mod cards_per_block * headerSize + headerSize) buf)
      by congruence.
    rewrite Hbe. unfold subarray. now apply seven_bit_firstn, seven_bit_skipn. }
  pose proof (from_buffer_buffer _ _ Hd) as Hbb.
  assert (Hr : ascii_raw (raw_of h) = raw_of h).
  { unfold ascii_raw. rewrite Hbb, (Buffer_toString_seven_bit _ Hbs), <- Hbb.
    now destruct (raw_of h). }
  destruct h as [r|r|v]; cbn [ascii_card raw_of] in *; rewrite Hr;
    [reflexivity | reflexivity | now destruct v].
Qed.

Lemma ascii_hdus_fixed (hdus : list HDU) :
  Forall (fun hdu => Forall (fun h => ascii_card h = h) (headers_ hdu)) hdus ->
  map ascii_hdu hdus = hdus.
Proof.
  induction 1 as [|hdu rest Hh _ IH]; [reflexivity|]. cbn [map]. rewrite IH. f_equal.
  unfold ascii_hdu. replace (map ascii_card (headers_ hdu)) with (headers_ hdu).
  - apply with_headers_same.
  - induction Hh as [|h hs Hx _ IHh]; [reflexivity|]. cbn [map]. now rewrite Hx, <- IHh.
Qed.

(** X23: a file that [write] copied opens again, with the same number of
    blocks and the same HDUs: the same extents and sizes, and card by card
    the same keyword, value, units and comment, none of them modified; the
    cards differ from those of the source in the bytes they hold only, which
    are the bytes of the source with the high bits cleared.  When the
    source holds 7-bit bytes only, the HDUs of the copy are those of the
    source. *)
Theorem written_file_reopens (path out : str) (w : World) (f : File) (c : bytes) :
  snd (new_File path w) = Ok f -> lookup_path path (disk w) = Some c -> out <> path ->
  let w2 := snd (fst (write out f (fst (new_File path w)))) in
  exists f2,
    snd (new_File out w2) = Ok f2 /\
    blockCount_ (core f2) = blockCount_ (core f) /\
    hdus_ f2 = map ascii_hdu (hdus_ f) /\
    (forall h, keyword (ascii_card h) = keyword h /\ same_fields h (ascii_card h)) /\
    (Forall seven_bit c -> hdus_ f2 = hdus_ f).
Proof.
  intros Hf Hc Hn w2.
  destruct (write_copy_run path out w f c Hf Hc Hn) as (w' & E & Hsrc & Ho).
  destruct (new_File_opened path w f c Hf Hc) as (Hw1 & Hfd & Hlen & Hchain).
  destruct (new_File_inv path w f Hf) as (c' & Hc' & Hpos & Hm & Hcore & Hr).
  rewrite Hc in Hc'. injection Hc' as <-.
  subst w2. rewrite E. cbn [fst snd].
  set (w2 := {| disk := disk w'; handles := _; next_fd := next_fd w' |}).
  assert (Hout : lookup_path out (disk w2) = Some (file_image c (hdus_ f))) by apply Ho.
  assert (Hil : length (file_image c (hdus_ f)) = length c).
  { rewrite (file_image_length c (hdus_ f) 0 (blockCount_ (core f)) Hchain);
      [rewrite Z.sub_0_r; now symmetry | lia | lia]. }
  unfold new_File. rewrite (openSync_found out w2 _ Hout). cbn [snd].
  rewrite (fstatSync_opened out w2 _ Hout). cbn [bind]. rewrite Hil.
  replace (length c =? 0) with false by (symmetry; apply Nat.eqb_neq; lia).
  rewrite Hm. cbn [Nat.eqb negb].
  set (w3 := {| disk := disk w2; handles := (next_fd w2, out) :: handles w2;
                next_fd := S (next_fd w2) |}).
  set (self2 := {| fd_ := next_fd w2; blockCount_ := Z.of_nat (length c / blockSize) |}).
  assert (Hbc : blockCount_ self2 = blockCount_ (core f)) by now rewrite Hcore.
  assert (Hrr : read_hdus (length c / blockSize) w3 self2 (blocks self2) []
                = Ok (map ascii_hdu (hdus_ f))).
  { apply (read_hdus_reread (fst (openSync path w)) w3 (core f) self2 out c
             (file_image c (hdus_ f)) Hbc Hlen) with (hdus0 := []) (new := hdus_ f)
                                                     (pre := []).
    - split; cbn [w3 handles disk lookup_fd]; [now rewrite Nat.eqb_refl | exact Hout].
    - unfold blocks, block_iterator. rewrite Hbc. exact Hr.
    - reflexivity.
    - cbn [blocks block_iterator end_]. exact Hbc.
    - cbn [blocks block_iterator n_ end_ self2 blockCount_]. lia.
    - reflexivity.
    - reflexivity. }
  rewrite Hrr. cbn [bind]. eexists. split; [reflexivity|]. cbn [core hdus_].
  split; [exact Hbc|]. split; [reflexivity|]. split; [apply ascii_card_fields|].
  intros H7. apply ascii_hdus_fixed.
  assert (Hsc : contents (fd_ (core f)) (fst (openSync path w)) = Ok c).
  { rewrite (openSync_found path w c Hc). apply (holds_contents _ path).
    split; cbn [fst handles disk lookup_fd]; [|exact Hc].
    now rewrite Hfd, Nat.eqb_refl. }
  apply (read_hdus_cards (fun h => ascii_card h = h) _ _
           (fun from k h => seven_bit_card _ _ c from k h Hsc H7) _ _ _ _ Hr).
  constructor.
Qed.

End ReadingBack.

(** *** Writing the files of the examples *)

Section WriteExamples.

Import DecimalHost.

Lemma write_copies_file_witness :
  let w1 := fst (new_File "image.fits" Examples.world) in
  let image := file_image Examples.image_file (hdus_ (Examples.opened "image.fits")) in
  exists w2,
    write "copy.fits" (Examples.opened "image.fits") w1
    = ((Examples.opened "image.fits", w2), Ok tt) /\
    lookup_path "copy.fits" (disk w2) = Some image /\
    length image = length Examples.image_file /\
    lookup_path "image.fits" (disk w2) = Some Examples.image_file.
Proof.
  apply (write_copies_file "image.fits" "copy.fits" Examples.world
           (Examples.opened "image.fits") Examples.image_file).
  - vm_compute. reflexivity.
  - reflexivity.
  - apply str_eqb_neq. vm_compute. reflexivity.
Defined.

Lemma write_onto_itself_witness :
  (exists w2,
     write "image.fits" (Examples.opened "image.fits")
       (fst (new_File "image.fits" Examples.world))
     = ((Examples.opened "image.fits", w2), Throw TypeError) /\
     lookup_path "image.fits" (disk w2) = Some (headers_image [Examples.image_hdu]) /\
     length (headers_image [Examples.image_hdu]) < length Examples.image_file /\
     is_open 4 w2 = true) /\
  (exists w2,
     write "minimal.fits" (Examples.opened "minimal.fits")
       (fst (new_File "minimal.fits" Examples.world))
     = ((Examples.opened "minimal.fits", w2), Ok tt) /\
     lookup_path "minimal.fits" (disk w2)
     = Some (headers_image (hdus_ (Examples.opened "minimal.fits")))).
Proof.
  split.
  - refine (proj1 (write_onto_itself "image.fits" Examples.world
                     (Examples.opened "image.fits") Examples.image_file _ _)
              [] Examples.image_hdu [] _ _ _).
    + vm_compute. reflexivity.
    + reflexivity.
    + vm_compute. reflexivity.
    + constructor.
    + vm_compute. reflexivity.
  - refine (proj2 (write_onto_itself "minimal.fits" Examples.world
                     (Examples.opened "minimal.fits") Examples.minimal_file _ _) _).
    + vm_compute. reflexivity.
    + reflexivity.
    + repeat constructor.
Defined.

Lemma written_file_reopens_witness :
  let w2 := snd (fst (write "copy.fits" (Examples.opened "image.fits")
                        (fst (new_File "image.fits" Examples.world)))) in
  exists f2,
    snd (new_File "copy.fits" w2) = Ok f2 /\
    blockCount_ (core f2) = blockCount_ (core (Examples.opened "image.fits")) /\
    hdus_ f2 = map ascii_hdu (hdus_ (Examples.opened "image.fits")) /\
    (forall h, keyword (ascii_card h) = keyword h /\ same_fields h (ascii_card h)) /\
    (Forall seven_bit Examples.image_file ->
     hdus_ f2 = hdus_ (Examples.opened "image.fits")).
Proof.
  apply (written_file_reopens "image.fits" "copy.fits" Examples.world
           (Examples.opened "image.fits") Examples.image_file).
  - vm_compute. reflexivity.
  - reflexivity.
  - apply str_eqb_neq. vm_compute. reflexivity.
Defined.

End WriteExamples.
